(** * JenaAI-VTuber: the dynamic module system, its state store and its
      WebSocket server

    A shallow embedding of
    - [src/services/moduleSystem.js]         (class [ModuleSystem]),
    - [src/services/moduleStatePersistence.js] (class [ModuleStatePersistence]),
    - the WebSocket server                   (class [ModuleWebSocketServer]),
    and the properties of the registry, the dependency resolver, the
    lifecycle operations, the state store and the message handler.

    Conventions of the embedding.
    - A JS [Map] keyed by strings whose iteration order is observed is an
      insertion-ordered association list ([JMap]); a JS [Set] whose
      iteration order is observed is an insertion-ordered list ([JSet]).
      The [Set]s local to the graph walks are only tested, extended and
      shrunk, and are [gset string].
    - [async] methods are run to completion, one at a time: an [await]
      is a sequencing point, and no other operation interleaves.  Calls
      that overlap are the matter of the module [Async], where a call
      is suspended at each [await].
    - Lifecycle hooks are opaque callbacks.  A hook is modelled by its
      outcome (it returns, or it throws); it does not call back into the
      module system.  Every invocation is recorded in the [trace].
    - An exception is the [Throw] outcome; the state reached at the
      point of the [throw] is kept, as in JS.
    - Recursive closures take a [fuel] argument bounding the depth of the
      recursion; [OutOfFuel] is shown unreachable for the fuel the
      top-level definitions pass. *)

From Stdlib Require Import ZArith Lia Floats.
From stdpp Require Import base option list sets gmap strings relations.

Set Warnings "-clear-no-such-hyp,-register-all".

Open Scope string_scope.
Open Scope list_scope.
Open Scope nat_scope.

(** ** Outcomes of a call *)

Inductive error :=
  | ModuleNotFound (moduleId : string)
      (* [`Module ${moduleId} not found`] *)
  | ModuleNotLoaded (moduleId : string)
      (* [`Module ${moduleId} not loaded`] *)
  | CircularDependency (currentId : string) (depId : option string)
      (* [`Circular dependency detected: ${currentId} -> ${depId}`], and
         [`Circular dependency detected: ${depId}`] with [None] *)
  | CannotUnload (moduleId : string) (dependents : list string)
      (* [`Cannot unload ${moduleId}: ${dependents.join(', ')} depend on it`] *)
  | HookError (message : string)
      (* whatever a lifecycle hook threw *)
  | TypeError (message : string)
      (* a property read on [undefined] *)
  | DatabaseNotInitialized.
      (* ['Database not initialized'] *)

Inductive outcome (A : Type) :=
  | Return (a : A)
  | Throw (e : error)
  | OutOfFuel.
Arguments Return {A} a.
Arguments Throw {A} e.
Arguments OutOfFuel {A}.

(** [for (const x of l) { s = f(x, s) }], left as soon as a call throws. *)
Fixpoint for_each {A S : Type} (f : A → S → outcome S) (l : list A) (s : S)
  : outcome S :=
  match l with
  | [] => Return s
  | x :: l' =>
      match f x s with
      | Return s' => for_each f l' s'
      | Throw e => Throw e
      | OutOfFuel => OutOfFuel
      end
  end.

(** ** Insertion-ordered containers *)

Module JMap.
Section Ops.
Context {V : Type}.
(** [map.get(k)] *)
Fixpoint get (k : string) (m : list (string * V)) : option V :=
  match m with
  | [] => None
  | (k', v) :: m' => if decide (k = k') then Some v else get k m'
  end.

(** [map.has(k)] *)
Definition has (k : string) (m : list (string * V)) : bool :=
  bool_decide (is_Some (get k m)).

(** [map.set(k, v)]: an existing key keeps its position, a new key
    goes last. *)
Fixpoint set (k : string) (v : V) (m : list (string * V))
  : list (string * V) :=
  match m with
  | [] => [(k, v)]
  | (k', v') :: m' =>
      if decide (k = k') then (k, v) :: m' else (k', v') :: set k v m'
  end.

(** [map.delete(k)] *)
Definition delete (k : string) (m : list (string * V))
  : list (string * V) :=
  filter (λ kv, kv.1 ≠ k) m.

(** [map.keys()] *)
Definition keys (m : list (string * V)) : list string := m.*1.

(** An in-place write to a field of the object stored under [k]. *)
Definition modify (f : V → V) (k : string) (m : list (string * V))
  : list (string * V) :=
  match get k m with
  | Some v => set k (f v) m
  | None => m
  end.
End Ops.
End JMap.

Module JSet.
(** [set.has(x)] *)
Definition has (x : string) (s : list string) : bool := bool_decide (x ∈ s).
(** [set.add(x)] *)
Definition add (x : string) (s : list string) : list string :=
  if bool_decide (x ∈ s) then s else s ++ [x].
(** [set.delete(x)] *)
Definition delete (x : string) (s : list string) : list string :=
  filter (λ y, y ≠ x) s.
End JSet.

(** ** Module descriptors *)

(** What a lifecycle hook does when it is called. *)
Inductive hook :=
  | Returns
  | Throws (message : string).

(** The empty arrow function [() => {}]. *)
Definition noop : hook := Returns.

Inductive status := registered | loaded | unloaded.

(** The object built by [registerModule].  A hook slot holds [None] when
    its value is falsy ([undefined], [null]). *)
Record moduleObject := Module_ {
  id : string;
  name : option string;
  version : option string;
  dependencies : list string;
  exports : list (string * string);
  init : option hook;
  destroy : option hook;
  update : option hook;
  config : list (string * string);
  state : status;
  lastUpdated : Z
}.

(** A [moduleConfig] object, as passed to [registerModule] and to
    [hotSwapModule].  Every key may be absent ([None]).  A hook key that
    is present may hold a falsy value ([Some None]). *)
Record moduleConfig := ModuleConfig {
  cfg_id : option string;
  cfg_name : option string;
  cfg_version : option string;
  cfg_dependencies : option (list string);
  cfg_exports : option (list (string * string));
  cfg_init : option (option hook);
  cfg_destroy : option (option hook);
  cfg_update : option (option hook);
  cfg_config : option (list (string * string));
  cfg_state : option status;
  cfg_lastUpdated : option Z
}.

Definition emptyConfig : moduleConfig :=
  ModuleConfig None None None None None None None None None None None.

(** ** The dependency graph and its walks *)

Record walk := Walk {
  visited : gset string;
  visiting : gset string;
  order : list string
}.

Record marks := Marks {
  m_visited : gset string;
  m_visiting : gset string
}.

Section Resolver.
Variable modules : list (string * moduleObject).

(** [x] lists [y] among its dependencies. *)
Definition depends_on (x y : string) : Prop :=
  ∃ m, JMap.get x modules = Some m ∧ y ∈ dependencies m.

Definition acyclic : Prop := ∀ x, ¬ tc depends_on x x.

(** The depth the walks may reach: a chain of modules being visited
    holds distinct registered ids, and one more call on top of it. *)
Definition walk_fuel : nat := S (S (length modules)).

(** *** [getDependencyOrder] *)

(** The closure [visit] of [getDependencyOrder]. *)
Fixpoint visit (fuel : nat) (depId : string) (w : walk) : outcome walk :=
  match fuel with
  | 0 => OutOfFuel
  | S fuel' =>
      if decide (depId ∈ visiting w) then
        Throw (CircularDependency depId None)
      else if decide (depId ∈ visited w) then Return w
      else
        let w1 := Walk (visited w) ({[depId]} ∪ visiting w) (order w) in
        let inner :=
          match JMap.get depId modules with
          | Some depModule =>
              for_each (visit fuel') (dependencies depModule) w1
          | None => Return w1
          end in
        match inner with
        | Return w2 =>
            Return (Walk ({[depId]} ∪ visited w2)
                         (visiting w2 ∖ {[depId]})
                         (order w2 ++ [depId]))
        | Throw e => Throw e
        | OutOfFuel => OutOfFuel
        end
  end.

Definition getDependencyOrder (deps : list string) : outcome (list string) :=
  match for_each (visit walk_fuel) deps (Walk ∅ ∅ []) with
  | Return w => Return (order w)
  | Throw e => Throw e
  | OutOfFuel => OutOfFuel
  end.

(** *** The cycle check of [checkDependencies] *)

(** The closure [checkCircular] of [checkDependencies]. *)
Fixpoint checkCircular (fuel : nat) (currentId targetId : string)
    (k : marks) : outcome marks :=
  match fuel with
  | 0 => OutOfFuel
  | S fuel' =>
      if decide (currentId ∈ m_visiting k) then
        Throw (CircularDependency currentId (Some targetId))
      else if decide (currentId ∈ m_visited k) then Return k
      else
        let k1 := Marks (m_visited k) ({[currentId]} ∪ m_visiting k) in
        let inner :=
          match JMap.get currentId modules with
          | Some currentModule =>
              for_each
                (λ depId k',
                   if decide (depId = targetId) then
                     Throw (CircularDependency currentId (Some depId))
                   else checkCircular fuel' depId targetId k')
                (dependencies currentModule) k1
          | None => Return k1
          end in
        match inner with
        | Return k2 =>
            Return (Marks ({[currentId]} ∪ m_visited k2)
                          (m_visiting k2 ∖ {[currentId]}))
        | Throw e => Throw e
        | OutOfFuel => OutOfFuel
        end
  end.
End Resolver.

(** ** The module system *)

Inductive payload :=
  | NoData
  | ModuleData (moduleId : string) (m : moduleObject)
      (* [{ moduleId, module }] *)
  | UpdateData (moduleId : string) (oldModule newModule : moduleObject).
      (* [{ moduleId, oldModule, newModule }] *)

(** What the module system does to the outside world, oldest first. *)
Inductive event :=
  | InitCalled (moduleId : string) (options : list (string * string))
  | DestroyCalled (moduleId : string)
  | UpdateCalled (moduleId : string) (oldModule newModule : moduleObject)
  | Emit (eventName : string) (data : payload).

Record system := System {
  modules : list (string * moduleObject);
  moduleStates : gmap string status;
  loadedModules : list string;
  trace : list event
}.

(** [new ModuleSystem()] *)
Definition newSystem : system := System [] ∅ [] [].

Definition set_modules
    (f : list (string * moduleObject) → list (string * moduleObject))
    (st : system) : system :=
  System (f (modules st)) (moduleStates st) (loadedModules st) (trace st).
Definition set_moduleStates (f : gmap string status → gmap string status)
    (st : system) : system :=
  System (modules st) (f (moduleStates st)) (loadedModules st) (trace st).
Definition set_loadedModules (f : list string → list string)
    (st : system) : system :=
  System (modules st) (moduleStates st) (f (loadedModules st)) (trace st).
Definition record (e : event) (st : system) : system :=
  System (modules st) (moduleStates st) (loadedModules st) (trace st ++ [e]).

(** A method of the class: it runs from a state, ends in a state, and
    returns or throws. *)
Definition M (A : Type) : Type := system → outcome A * system.

Definition ret {A} (a : A) : M A := λ st, (Return a, st).
Definition throw {A} (e : error) : M A := λ st, (Throw e, st).
Definition bind {A B} (m : M A) (k : A → M B) : M B :=
  λ st,
    match m st with
    | (Return a, st') => k a st'
    | (Throw e, st') => (Throw e, st')
    | (OutOfFuel, st') => (OutOfFuel, st')
    end.
Definition gets {A} (f : system → A) : M A := λ st, (Return (f st), st).
Definition update_state (f : system → system) : M unit :=
  λ st, (Return tt, f st).
Definition lift {A} (o : outcome A) : M A := λ st, (o, st).

Notation "'let!' x ':=' m 'in' k" := (bind m (λ x, k))
  (at level 10, x name, m at level 100, k at level 200,
   format "'[v' 'let!'  x  ':='  m  'in'  '/' k ']'").
Notation "m ';;' k" := (bind m (λ _, k))
  (at level 100, k at level 200, right associativity).

(** [try { m } catch (error) { console.error(...) }] *)
Definition try_catch_log (m : M unit) : M unit :=
  λ st,
    match m st with
    | (Throw _, st') => (Return tt, st')
    | r => r
    end.

(** [for (const x of l) { await f(x) }] *)
Fixpoint for_of {A} (l : list A) (f : A → M unit) : M unit :=
  match l with
  | [] => ret tt
  | x :: l' => f x ;; for_of l' f
  end.

(** Calling a hook: the call is traced, then the hook returns or throws. *)
Definition call_hook (e : event) (h : hook) : M unit :=
  update_state (record e) ;;
  match h with
  | Returns => ret tt
  | Throws msg => throw (HookError msg)
  end.

(** [this.emit(event, data)]: the listeners are outside the model, and an
    exception of a listener is caught inside [emit]. *)
Definition emit (eventName : string) (data : payload) : M unit :=
  update_state (record (Emit eventName data)).

(** The current fields of the object [module] that was read from
    [this.modules] under [moduleId].  Objects are written in place and no
    entry is replaced while a method holds one, so the fields are those
    of the entry. *)
Definition deref (moduleId : string) (module : moduleObject)
  : M moduleObject :=
  gets (λ st, default module (JMap.get moduleId (modules st))).

Definition with_state (s : status) (m : moduleObject) : moduleObject :=
  Module_ (id m) (name m) (version m) (dependencies m) (exports m)
          (init m) (destroy m) (update m) (config m) s (lastUpdated m).

(** [registerModule(moduleId, moduleConfig)], at time [now]. *)
Definition registerModule (moduleId : string) (moduleConfig : moduleConfig)
    (now : Z) : M moduleObject :=
  let module :=
    Module_ moduleId
            (cfg_name moduleConfig)
            (cfg_version moduleConfig)
            (default [] (cfg_dependencies moduleConfig))
            (default [] (cfg_exports moduleConfig))
            (Some (default noop (mjoin (cfg_init moduleConfig))))
            (Some (default noop (mjoin (cfg_destroy moduleConfig))))
            (Some (default noop (mjoin (cfg_update moduleConfig))))
            (default [] (cfg_config moduleConfig))
            registered
            now in
  update_state (set_modules (JMap.set moduleId module)) ;;
  update_state (set_moduleStates <[moduleId := registered]>) ;;
  ret module.

(** [checkDependencies(moduleId)]; [load] is [this.loadModule]. *)
Definition checkDependencies (load : string → M moduleObject)
    (moduleId : string) : M unit :=
  let! found := gets (λ st, JMap.get moduleId (modules st)) in
  match found with
  | None => ret tt
  | Some module =>
      let! mods := gets modules in
      lift (checkCircular mods (walk_fuel mods) moduleId moduleId
              (Marks ∅ ∅)) ;;
      let! dependencyOrder :=
        lift (getDependencyOrder mods (dependencies module)) in
      for_of dependencyOrder (λ depId,
        let! isLoaded := gets (λ st, JSet.has depId (loadedModules st)) in
        if isLoaded : bool then ret tt else load depId ;; ret tt)
  end.

(** [loadModule(moduleId, options)] *)
Fixpoint loadModule (fuel : nat) (moduleId : string)
    (options : list (string * string)) : M moduleObject :=
  match fuel with
  | 0 => lift OutOfFuel
  | S fuel' =>
      let! found := gets (λ st, JMap.get moduleId (modules st)) in
      match found with
      | None => throw (ModuleNotFound moduleId)
      | Some module =>
          let! isLoaded :=
            gets (λ st, JSet.has moduleId (loadedModules st)) in
          if isLoaded : bool then ret module
          else
            checkDependencies (λ depId, loadModule fuel' depId []) moduleId ;;
            let! module := deref moduleId module in
            match init module with
            | Some h => call_hook (InitCalled moduleId options) h
            | None => ret tt
            end ;;
            update_state (set_loadedModules (JSet.add moduleId)) ;;
            update_state (set_moduleStates <[moduleId := loaded]>) ;;
            update_state
              (set_modules (JMap.modify (with_state loaded) moduleId)) ;;
            let! module := deref moduleId module in
            emit "moduleLoaded" (ModuleData moduleId module) ;;
            ret module
      end
  end.

Arguments loadModule : simpl never.

(** A load nests one level deep at most: the dependencies of a module are
    loaded in dependency order, so that the load of a dependency finds
    its own dependencies loaded. *)
Definition load_fuel : nat := 2.

(** [getDependents(moduleId)] *)
Definition getDependents (moduleId : string) (st : system) : list string :=
  (filter (λ kv : string * moduleObject, moduleId ∈ dependencies kv.2)
          (modules st)).*1.

Arguments getDependents : simpl never.

(** [unloadModule(moduleId)] *)
Definition unloadModule (moduleId : string) : M unit :=
  let! found := gets (λ st, JMap.get moduleId (modules st)) in
  match found with
  | None => throw (ModuleNotFound moduleId)
  | Some module =>
      let! isLoaded := gets (λ st, JSet.has moduleId (loadedModules st)) in
      if negb isLoaded then ret tt
      else
        let! dependents := gets (getDependents moduleId) in
        if (0 <? length dependents)%nat then
          throw (CannotUnload moduleId dependents)
        else
          match destroy module with
          | Some h => call_hook (DestroyCalled moduleId) h
          | None => ret tt
          end ;;
          update_state (set_loadedModules (JSet.delete moduleId)) ;;
          update_state (set_moduleStates <[moduleId := unloaded]>) ;;
          update_state
            (set_modules (JMap.modify (with_state unloaded) moduleId)) ;;
          let! module := deref moduleId module in
          emit "moduleUnloaded" (ModuleData moduleId module)
  end.

(** [Object.assign(module, newModuleConfig)] *)
Definition assign (m : moduleObject) (c : moduleConfig) : moduleObject :=
  Module_ (default (id m) (cfg_id c))
          (from_option Some (name m) (cfg_name c))
          (from_option Some (version m) (cfg_version c))
          (default (dependencies m) (cfg_dependencies c))
          (default (exports m) (cfg_exports c))
          (default (init m) (cfg_init c))
          (default (destroy m) (cfg_destroy c))
          (default (update m) (cfg_update c))
          (default (config m) (cfg_config c))
          (default (state m) (cfg_state c))
          (default (lastUpdated m) (cfg_lastUpdated c)).

Definition with_lastUpdated (now : Z) (m : moduleObject) : moduleObject :=
  Module_ (id m) (name m) (version m) (dependencies m) (exports m)
          (init m) (destroy m) (update m) (config m) (state m) now.

(** [hotSwapModule(moduleId, newModuleConfig)], at time [now]. *)
Definition hotSwapModule (moduleId : string) (newModuleConfig : moduleConfig)
    (now : Z) : M moduleObject :=
  let! found := gets (λ st, JMap.get moduleId (modules st)) in
  match found with
  | None => throw (ModuleNotFound moduleId)
  | Some module =>
      let! isLoaded := gets (λ st, JSet.has moduleId (loadedModules st)) in
      if negb isLoaded then throw (ModuleNotLoaded moduleId)
      else
        let oldModule := module in
        let module := with_lastUpdated now (assign module newModuleConfig) in
        update_state (set_modules (JMap.set moduleId module)) ;;
        match update module with
        | Some h => call_hook (UpdateCalled moduleId oldModule module) h
        | None => ret tt
        end ;;
        emit "moduleUpdated" (UpdateData moduleId oldModule module) ;;
        ret module
  end.

(** The [data] of a WebSocket message. *)
Record messageData := MessageData {
  d_moduleId : string;
  d_moduleConfig : option moduleConfig;
  d_action : option string
}.

(** [registerModule] reads [moduleConfig.name] first: on [undefined] this
    is a [TypeError]. *)
Definition registerModule' (moduleId : string)
    (moduleConfig : option moduleConfig) (now : Z) : M moduleObject :=
  match moduleConfig with
  | Some c => registerModule moduleId c now
  | None => throw (TypeError "Cannot read properties of undefined")
  end.

(** [handleModuleInstall(data)] *)
Definition handleModuleInstall (data : messageData) (now : Z) : M unit :=
  registerModule' (d_moduleId data) (d_moduleConfig data) now ;;
  loadModule load_fuel (d_moduleId data) [] ;;
  ret tt.

(** [handleModuleUninstall(data)] *)
Definition handleModuleUninstall (data : messageData) : M unit :=
  unloadModule (d_moduleId data) ;;
  update_state (set_modules (JMap.delete (d_moduleId data))) ;;
  update_state (set_moduleStates (delete (d_moduleId data))).

(** [handleModuleReload(data)] *)
Definition handleModuleReload (data : messageData) (now : Z) : M unit :=
  let moduleId := d_moduleId data in
  let! wasLoaded := gets (λ st, JSet.has moduleId (loadedModules st)) in
  (if wasLoaded : bool then unloadModule moduleId else ret tt) ;;
  registerModule' moduleId (d_moduleConfig data) now ;;
  (if wasLoaded : bool then loadModule load_fuel moduleId [] ;; ret tt
   else ret tt).

(** [restartSystem()].  The loop runs over the live [Set]; the call in
    its body deletes no id but the one it is at, so that the ids met are
    those of the set at entry, in insertion order. *)
Definition restartSystem : M unit :=
  let! ids := gets loadedModules in
  for_of ids (λ moduleId, try_catch_log (unloadModule moduleId)) ;;
  update_state (set_modules (λ _, [])) ;;
  update_state (set_moduleStates (λ _, ∅)) ;;
  update_state (set_loadedModules (λ _, [])) ;;
  emit "systemRestart" NoData.

(** ** The state store *)

(** The options of [saveModuleState]. *)
Record saveOptions := SaveOptions {
  opt_version : option string;
  opt_metadata : option (list (string * string))
}.

(** [x || d] on strings: [undefined] and the empty string are falsy. *)
Definition or_default (x : option string) (d : string) : string :=
  match x with
  | Some s => if decide (s = "") then d else s
  | None => d
  end.

Section StateStore.
(** The values of JS and the texts of JSON.  [JSON.stringify] and
    [JSON.parse] belong to the platform; they yield [None] where the
    platform yields [undefined] or throws. *)
Context {value text : Type}.
Variable JSON_stringify : value → option text.
Variable JSON_parse : text → option value.

(** [JSON.parse(JSON.stringify(state))] *)
Definition deep_clone (state : value) : option value :=
  JSON_stringify state ≫= JSON_parse.

(** A state is JSON-serializable when the clone is the state. *)
Definition json_serializable (state : value) : Prop :=
  deep_clone state = Some state.

(** A record of the [moduleStates] store. *)
Record stateData := StateData {
  sd_moduleId : string;
  sd_state : value;
  sd_timestamp : Z;
  sd_version : string;
  sd_metadata : list (string * string)
}.

(** A record of the [stateHistory] store: the generated key is written
    into the record under [id]. *)
Record historyData := HistoryData {
  h_id : nat;
  h_moduleId : string;
  h_state : value;
  h_timestamp : Z;
  h_version : string;
  h_metadata : list (string * string)
}.

(** The database: [moduleStates] is keyed by [moduleId]; [stateHistory]
    has a generated key, and is kept in key order. *)
Record database := Database {
  db_moduleStates : gmap string stateData;
  db_stateHistory : list historyData;
  db_nextId : nat
}.

Record persistence := Persistence {
  db : option database;
  autoSaveEnabled : bool;
  autoSaveDelay : Z
}.

(** [new ModuleStatePersistence()] *)
Definition newPersistence : persistence := Persistence None true 30000.

(** The database that [initialize] opens for the first time. *)
Definition emptyDatabase : database := Database ∅ [] 1.

Definition set_db (d : database) (p : persistence) : persistence :=
  Persistence (Some d) (autoSaveEnabled p) (autoSaveDelay p).

(** [saveModuleState(moduleId, state, options)], at time [now].  The
    deep clone throws when [JSON.stringify] throws or yields [undefined],
    which [JSON.parse] rejects. *)
Definition saveModuleState (moduleId : string) (state : value)
    (options : saveOptions) (now : Z) (p : persistence)
  : outcome stateData * persistence :=
  match db p with
  | None => (Throw DatabaseNotInitialized, p)
  | Some d =>
      match deep_clone state with
      | None => (Throw (TypeError "JSON"), p)
      | Some clone =>
          let stateData :=
            StateData moduleId clone now
                      (or_default (opt_version options) "1.0.0")
                      (default [] (opt_metadata options)) in
          let historyData :=
            HistoryData (db_nextId d) moduleId (sd_state stateData)
                        (sd_timestamp stateData) (sd_version stateData)
                        (sd_metadata stateData) in
          (Return stateData,
           set_db (Database (<[moduleId := stateData]> (db_moduleStates d))
                            (db_stateHistory d ++ [historyData])
                            (S (db_nextId d)))
                  p)
      end
  end.

(** [loadModuleState(moduleId, version)]; [null] is [None]. *)
Definition loadModuleState (moduleId : string) (version : option string)
    (p : persistence) : outcome (option value) * persistence :=
  match db p with
  | None => (Throw DatabaseNotInitialized, p)
  | Some d =>
      match db_moduleStates d !! moduleId with
      | Some result =>
          match version with
          | Some v =>
              if decide (v = "") then (Return (Some (sd_state result)), p)
              else if decide (sd_version result = v) then
                (Return (Some (sd_state result)), p)
              else (Return None, p)
          | None => (Return (Some (sd_state result)), p)
          end
      | None => (Return None, p)
      end
  end.

(** [index.getAll(moduleId)] on the [moduleId] index of [stateHistory] *)
Definition history_of (moduleId : string) (d : database) : list historyData :=
  filter (λ h, h_moduleId h = moduleId) (db_stateHistory d).

(** [.sort((a, b) => b.timestamp - a.timestamp)]: latest first, records
    of one timestamp in their order. *)
Fixpoint insert_latest_first (x : historyData) (l : list historyData)
  : list historyData :=
  match l with
  | [] => [x]
  | y :: l' =>
      if (h_timestamp y <=? h_timestamp x)%Z then x :: y :: l'
      else y :: insert_latest_first x l'
  end.

Definition sort_latest_first (l : list historyData) : list historyData :=
  foldr insert_latest_first [] l.

(** [getModuleStateHistory(moduleId, limit)] *)
Definition getModuleStateHistory (moduleId : string) (limit : nat)
    (p : persistence) : outcome (list historyData) * persistence :=
  match db p with
  | None => (Throw DatabaseNotInitialized, p)
  | Some d =>
      (Return (take limit (sort_latest_first (history_of moduleId d))), p)
  end.

(** The number of history entries of [moduleId]. *)
Definition history_count (moduleId : string) (p : persistence) : nat :=
  match db p with
  | Some d => length (history_of moduleId d)
  | None => 0
  end.
End StateStore.

Arguments stateData : clear implicits.
Arguments historyData : clear implicits.
Arguments database : clear implicits.
Arguments persistence : clear implicits.

(** An instance of the platform for the examples: values are flat
    objects of numbers, and JSON texts are the objects themselves. *)
Definition toy_stringify (v : list (string * Z)) : option (list (string * Z)) :=
  Some v.
Definition toy_parse (t : list (string * Z)) : option (list (string * Z)) :=
  Some t.

Definition openedPersistence : persistence (list (string * Z)) :=
  Persistence (Some emptyDatabase) true 30000.

(** ** The WebSocket server *)

(** The values that [JSON.parse] yields and [JSON.stringify] takes. *)
Inductive json :=
  | JNull
  | JBool (b : bool)
  | JNum (n : Z)
  | JStr (s : string)
  | JArr (items : list json)
  | JObj (fields : list (string * json)).

(** [ws.readyState] *)
Inductive readyState := CONNECTING | OPEN | CLOSING | CLOSED.

(** A connection: its state, and the messages handed to [ws.send],
    oldest first, as the objects given to [JSON.stringify]. *)
Record socket := Socket {
  ws_readyState : readyState;
  ws_sent : list json
}.

(** An entry of [this.clients]; [c_ws] names the connection. *)
Record client := Client {
  c_ws : nat;
  c_id : string;
  c_type : string;
  c_lastPing : Z
}.

Record server := Server {
  clients : list (string * client);
  sockets : gmap nat socket;
  moduleRegistry : list (string * json);
  moduleFiles : list (string * string)
}.

(** [sendMessage(ws, message)] *)
Definition sendMessage (ws : nat) (message : json) (srv : server) : server :=
  match sockets srv !! ws with
  | Some s =>
      match ws_readyState s with
      | OPEN =>
          Server (clients srv)
                 (<[ws := Socket (ws_readyState s) (ws_sent s ++ [message])]>
                    (sockets srv))
                 (moduleRegistry srv) (moduleFiles srv)
      | _ => srv
      end
  | None => srv
  end.

(** The envelope that [sendError] builds. *)
Definition error_envelope (error : string) (now : Z) : json :=
  JObj [("type", JStr "error");
        ("data", JObj [("error", JStr error); ("timestamp", JNum now)])].

(** [sendError(ws, error)], at time [now]. *)
Definition sendError (ws : nat) (error : string) (now : Z) (srv : server)
  : server :=
  sendMessage ws (error_envelope error now) srv.

(** [broadcast(message)] *)
Definition broadcast (message : json) (srv : server) : server :=
  foldl (λ srv' kv, sendMessage (c_ws kv.2) message srv') srv (clients srv).

Section MessageHandler.
(** [JSON.parse] belongs to the platform: [None] when it throws.
    [handleMessage] is the dispatcher of the parsed messages; what it
    does to the server, and whether it throws before it returns, is left
    open here. *)
Variable JSON_parse : string → option json.
Variable handleMessage : string → json → server → option error * server.

(** The listener [ws.on('message', ...)] of the connection [ws] that was
    given the id [clientId], on the frame [message], at time [now]. *)
Definition on_message (clientId : string) (ws : nat) (message : string)
    (now : Z) (srv : server) : server :=
  match JSON_parse message with
  | Some data =>
      match handleMessage clientId data srv with
      | (None, srv') => srv'
      | (Some _, srv') => sendError ws "Invalid JSON message" now srv'
      end
  | None => sendError ws "Invalid JSON message" now srv
  end.
End MessageHandler.

(** A dispatcher for the examples, after [handlePing]: it answers
    [pong]. *)
Definition pingOnly (clientId : string) (data : json) (srv : server)
  : option error * server :=
  match JMap.get clientId (clients srv) with
  | Some c =>
      (None,
       sendMessage (c_ws c) (JObj [("type", JStr "pong")])
         (Server (JMap.set clientId
                    (Client (c_ws c) (c_id c) (c_type c) 0) (clients srv))
                 (sockets srv) (moduleRegistry srv) (moduleFiles srv)))
  | None => (None, srv)
  end.

(** A parser for the examples: it knows one frame. *)
Definition nullParser (message : string) : option json :=
  if decide (message = "null") then Some JNull else None.

(** Two peers connected. *)
Definition twoPeers : server :=
  Server [("client_a", Client 1 "client_a" "unknown" 0);
          ("client_b", Client 2 "client_b" "unknown" 0)]
         (<[1 := Socket OPEN []]> (<[2 := Socket OPEN []]> ∅))
         [] [].

(** ** Example systems *)

(** A configuration that only lists dependencies. *)
Definition depsConfig (deps : list string) : moduleConfig :=
  ModuleConfig None None None (Some deps) None None None None None None None.

(** The state a method ends in, and what it returns. *)
Definition state_after {A} (m : M A) (st : system) : system := (m st).2.
Definition outcome_of {A} (m : M A) (st : system) : outcome A := (m st).1.

(** [audio], [voice] over [audio], and [tts] over both, registered. *)
Definition scenarioA : system :=
  state_after
    (registerModule "audio" (depsConfig []) 0 ;;
     registerModule "voice" (depsConfig ["audio"]) 0 ;;
     registerModule "tts" (depsConfig ["audio"; "voice"]) 0)
    newSystem.

Definition rankA (x : string) : nat :=
  if decide (x = "tts") then 2 else if decide (x = "voice") then 1 else 0.

(** Every module ranks above its dependencies. *)
Definition ranked (rank : string → nat) (mods : list (string * moduleObject))
  : bool :=
  forallb (λ kv : string * moduleObject,
             forallb (λ y, rank y <? rank kv.1) (dependencies kv.2))
          mods.

(** [audio] loaded, and [voice], which depends on it, only registered. *)
Definition audioLoaded : system :=
  state_after
    (registerModule "audio" (depsConfig []) 0 ;;
     registerModule "voice" (depsConfig ["audio"]) 0 ;;
     loadModule load_fuel "audio" [])
    newSystem.

(** [audio] and [voice] loaded, in that order. *)
Definition voiceLoaded : system :=
  state_after
    (registerModule "audio" (depsConfig []) 0 ;;
     registerModule "voice" (depsConfig ["audio"]) 0 ;;
     loadModule load_fuel "voice" [])
    newSystem.

(** A fragment that carries an [id] key. *)
Definition idConfig (newId : string) : moduleConfig :=
  ModuleConfig (Some newId) None None None None None None None None None None.

(** A fragment whose [update] key holds [null]. *)
Definition noUpdateConfig : moduleConfig :=
  ModuleConfig None None None None None None None (Some None) None None None.

(** ** Counting hook calls in a trace *)

Definition is_init_of (moduleId : string) (e : event) : bool :=
  match e with
  | InitCalled x _ => bool_decide (x = moduleId)
  | _ => false
  end.

(** How many times the [init] hook of [moduleId] was called. *)
Definition init_calls (moduleId : string) (t : list event) : nat :=
  length (List.filter (is_init_of moduleId) t).

Definition is_hook_call (e : event) : bool :=
  match e with
  | Emit _ _ => false
  | _ => true
  end.

(** The ids whose [destroy] hook was called, oldest first. *)
Definition destroy_calls (t : list event) : list string :=
  omap (λ e, match e with DestroyCalled x => Some x | _ => None end) t.

(** [scenarioA] after [loadModule("tts")]. *)
Definition ttsLoaded : system :=
  state_after (loadModule load_fuel "tts" []) scenarioA.

(** A module whose [init] hook throws, registered. *)
Definition failingInit : system :=
  state_after
    (registerModule "jaw"
       (ModuleConfig None None None None None (Some (Some (Throws "boom")))
                     None None None None None) 0)
    newSystem.

(** The invariant of the registry: a loaded id is a registered id. *)
Definition loaded_registered (st : system) : Prop :=
  ∀ x, x ∈ loadedModules st → is_Some (JMap.get x (modules st)).

(** The object that [registerModule] builds. *)
Definition new_module (moduleId : string) (moduleConfig : moduleConfig)
    (now : Z) : moduleObject :=
  Module_ moduleId
          (cfg_name moduleConfig)
          (cfg_version moduleConfig)
          (default [] (cfg_dependencies moduleConfig))
          (default [] (cfg_exports moduleConfig))
          (Some (default noop (mjoin (cfg_init moduleConfig))))
          (Some (default noop (mjoin (cfg_destroy moduleConfig))))
          (Some (default noop (mjoin (cfg_update moduleConfig))))
          (default [] (cfg_config moduleConfig))
          registered
          now.

(** [a] over [b], registered. *)
Definition halfCycle : system :=
  state_after (registerModule "a" (depsConfig ["b"]) 0) newSystem.

(** The system after a successful unload of [moduleId], entered from
    [st]. *)
Definition unloaded_from (moduleId : string) (module : moduleObject)
    (st : system) : system :=
  record
    (Emit "moduleUnloaded"
       (ModuleData moduleId
          (default module
             (JMap.get moduleId
                (JMap.modify (with_state unloaded) moduleId (modules st))))))
    (set_modules (JMap.modify (with_state unloaded) moduleId)
       (set_moduleStates <[moduleId := unloaded]>
          (set_loadedModules (JSet.delete moduleId) st))).

(** A method keeps [P], however it ends. *)
Definition preserves {A} (P : system → Prop) (m : M A) : Prop :=
  ∀ st, P st → P (m st).2.

(** [restartSystem] calls the [destroy] hook of a loaded module when the
    module is registered with a [destroy] hook and no registered module
    depends on it. *)
Definition destroyed_at_restart (st : system) (x : string) : Prop :=
  x ∈ loadedModules st ∧
  (∃ m, JMap.get x (modules st) = Some m ∧ is_Some (destroy m)) ∧
  getDependents x st = [].

(** ** Vocabulary of the properties *)

(** What a walk that returns has done to the walk state: the set of
    ids being visited is restored, the visited set and the order have
    grown, and no id that was being visited has become visited. *)
Definition walk_step (w w' : walk) : Prop :=
  visiting w' = visiting w ∧
  visited w ⊆ visited w' ∧
  (∃ l, order w' = order w ++ l) ∧
  (∀ x, x ∈ visiting w → x ∈ visited w' → x ∈ visited w).

(** The order lists the visited ids, once each, every id after all the
    ids it depends on. *)
Definition walk_ok (mods : list (string * moduleObject)) (w : walk) : Prop :=
  NoDup (order w) ∧
  (∀ x, x ∈ order w ↔ x ∈ visited w) ∧
  (∀ i x y, order w !! i = Some x → depends_on mods x y →
            ∃ j, j < i ∧ order w !! j = Some y).

(** [y] comes strictly before [x] in [l]. *)
Definition strictly_before (l : list string) (y x : string) : Prop :=
  ∃ i j, i < j ∧ l !! i = Some y ∧ l !! j = Some x.

(** No visited module lists the target, and the visited set is closed
    under dependencies. *)
Definition marks_closed (mods : list (string * moduleObject))
    (targetId : string) (k : marks) : Prop :=
  ∀ v y, v ∈ m_visited k → depends_on mods v y →
         y ≠ targetId ∧ y ∈ m_visited k.

Definition marks_step (k k' : marks) : Prop :=
  m_visiting k' = m_visiting k ∧ m_visited k ⊆ m_visited k'.

(** The check that [checkDependencies] runs for [moduleId]. *)
Definition cycle_check (mods : list (string * moduleObject))
    (moduleId : string) : outcome marks :=
  checkCircular mods (walk_fuel mods) moduleId moduleId (Marks ∅ ∅).

(** The part of [loadModule] after [checkDependencies]. *)
Definition finish_load (moduleId : string) (options : list (string * string))
    (module : moduleObject) : M moduleObject :=
  let! module := deref moduleId module in
  match init module with
  | Some h => call_hook (InitCalled moduleId options) h
  | None => ret tt
  end ;;
  update_state (set_loadedModules (JSet.add moduleId)) ;;
  update_state (set_moduleStates <[moduleId := loaded]>) ;;
  update_state (set_modules (JMap.modify (with_state loaded) moduleId)) ;;
  let! module := deref moduleId module in
  emit "moduleLoaded" (ModuleData moduleId module) ;;
  ret module.

(** The body of the loop of [checkDependencies]. *)
Definition load_dependency (load : string → M moduleObject) (depId : string)
  : M unit :=
  let! isLoaded := gets (λ st, JSet.has depId (loadedModules st)) in
  if isLoaded : bool then ret tt else load depId ;; ret tt.

(** What a load may change: the [state] fields of the registered
    modules, the loaded set, which grows by registered modules, and the
    trace, which grows. *)
Definition load_step (st st' : system) : Prop :=
  (∀ x, with_state registered <$> JMap.get x (modules st')
        = with_state registered <$> JMap.get x (modules st)) ∧
  (∀ x, x ∈ loadedModules st → x ∈ loadedModules st') ∧
  (∀ x, x ∈ loadedModules st' →
        x ∈ loadedModules st ∨ is_Some (JMap.get x (modules st))) ∧
  (∃ t, trace st' = trace st ++ t).


(** What the loop of [restartSystem] relies on: the modules keep their
    dependents and their [destroy] hooks. *)
Definition same_registry (st st' : system) : Prop :=
  (∀ x, getDependents x st' = getDependents x st) ∧
  (∀ x, destroy <$> JMap.get x (modules st')
        = destroy <$> JMap.get x (modules st)).


(** ** Further vocabulary *)

(** [x] is reached from [moduleId] through dependencies, in any number
    of steps. *)
Definition reaches (mods : list (string * moduleObject))
    (moduleId x : string) : Prop :=
  rtc (depends_on mods) moduleId x.

(** [x] lies on a dependency cycle. *)
Definition on_cycle (mods : list (string * moduleObject)) (x : string)
  : Prop :=
  tc (depends_on mods) x x.

(** [a] over [b] and [b] over [a], registered. *)
Definition fullCycle : system :=
  state_after (registerModule "b" (depsConfig ["a"]) 0) halfCycle.

(** Nothing about the module [y] has changed: its membership of the
    loaded set, its status, its descriptor, and the number of calls of
    its [init] hook. *)
Definition untouched (y : string) (st st' : system) : Prop :=
  (y ∈ loadedModules st' ↔ y ∈ loadedModules st) ∧
  moduleStates st' !! y = moduleStates st !! y ∧
  JMap.get y (modules st') = JMap.get y (modules st) ∧
  init_calls y (trace st') = init_calls y (trace st).

(** The loaded set is closed under dependencies: what a loaded module
    lists as a dependency is loaded. *)
Definition deps_loaded (st : system) : Prop :=
  ∀ x y, x ∈ loadedModules st → depends_on (modules st) x y →
         y ∈ loadedModules st.

(** Everything that [moduleId] reaches is registered with an [init]
    hook that does not throw, and lies on no cycle. *)
Definition loadable (st : system) (moduleId : string) : Prop :=
  ∀ y, reaches (modules st) moduleId y →
       (∃ m, JMap.get y (modules st) = Some m ∧
             ∀ msg, init m ≠ Some (Throws msg)) ∧
       ¬ on_cycle (modules st) y.

(** In the events [t] that follow the state [st], every call of an
    [init] hook comes after the loading of whatever the module reaches
    through dependencies: each such module was loaded in [st], or its
    [moduleLoaded] event comes earlier in [t]. *)
Definition init_after_dependencies (st : system) (t : list event) : Prop :=
  ∀ i x options y,
    t !! i = Some (InitCalled x options) →
    tc (depends_on (modules st)) x y →
    y ∈ loadedModules st ∨
    ∃ j m, j < i ∧ t !! j = Some (Emit "moduleLoaded" (ModuleData y m)).

(** From [st] to [st'] modules were loaded in dependency order, and the
    loading of each was announced. *)
Definition ordered_load (st st' : system) : Prop :=
  ∃ t, trace st' = trace st ++ t ∧
       load_step st st' ∧
       init_after_dependencies st t ∧
       ∀ y, y ∈ loadedModules st' →
            y ∈ loadedModules st ∨
            ∃ j m, t !! j = Some (Emit "moduleLoaded" (ModuleData y m)).

(** From [st] to [st'] the loaded set has only grown, and every module
    announced by a [moduleLoaded] event on the way is loaded in [st']:
    nothing that was loaded has been taken back. *)
Definition kept_loaded (st st' : system) : Prop :=
  ∃ t, trace st' = trace st ++ t ∧
       load_step st st' ∧
       ∀ y m, Emit "moduleLoaded" (ModuleData y m) ∈ t →
              y ∈ loadedModules st'.

(** [jaw], whose [init] hook throws, over [audio]; both registered. *)
Definition failingOverAudio : system :=
  state_after
    (registerModule "audio" (depsConfig []) 0 ;;
     registerModule "jaw"
       (ModuleConfig None None None (Some ["audio"]) None
                     (Some (Some (Throws "boom"))) None None None None None)
       0)
    newSystem.

(** ** [validateDependencyGraph] *)

(** The two messages that [validateDependencyGraph] pushes, kept with
    the ids they interpolate. *)
Inductive graphError :=
  | CircularDetected (moduleId : string)
  | MissingDependency (moduleId depId : string).

Definition graphError_message (e : graphError) : string :=
  match e with
  | CircularDetected moduleId =>
      "Circular dependency detected: " +:+ moduleId
  | MissingDependency moduleId depId =>
      "Missing dependency: " +:+ moduleId +:+ " depends on " +:+ depId
      +:+ " (not found)"
  end.

(** [errors], [visited] and [visiting] of [validateDependencyGraph]. *)
Record validation := Validation {
  v_visited : gset string;
  v_visiting : gset string;
  v_errors : list graphError
}.

(** [{ isValid, errors }] *)
Record validationResult := ValidationResult {
  isValid : bool;
  errors : list graphError
}.

Section Validator.
Variable modules : list (string * moduleObject).

(** The body of the loop over [module.dependencies]. *)
Definition validate_dependency
    (visit : string → validation → outcome validation)
    (moduleId depId : string) (s : validation) : outcome validation :=
  if JMap.has depId modules then visit depId s
  else Return (Validation (v_visited s) (v_visiting s)
                 (v_errors s ++ [MissingDependency moduleId depId])).

(** The closure [visit] of [validateDependencyGraph]: it reports and
    goes on where the walks of the resolver throw. *)
Fixpoint validate_visit (fuel : nat) (moduleId : string) (s : validation)
  : outcome validation :=
  match fuel with
  | 0 => OutOfFuel
  | S fuel' =>
      if decide (moduleId ∈ v_visiting s) then
        Return (Validation (v_visited s) (v_visiting s)
                  (v_errors s ++ [CircularDetected moduleId]))
      else if decide (moduleId ∈ v_visited s) then Return s
      else
        let s1 := Validation (v_visited s) ({[moduleId]} ∪ v_visiting s)
                    (v_errors s) in
        let inner :=
          match JMap.get moduleId modules with
          | Some module =>
              for_each (validate_dependency (validate_visit fuel') moduleId)
                (dependencies module) s1
          | None => Return s1
          end in
        match inner with
        | Return s2 =>
            Return (Validation ({[moduleId]} ∪ v_visited s2)
                               (v_visiting s2 ∖ {[moduleId]})
                               (v_errors s2))
        | Throw e => Throw e
        | OutOfFuel => OutOfFuel
        end
  end.

(** [validateDependencyGraph()] *)
Definition validateDependencyGraph : outcome validationResult :=
  match for_each (validate_visit (walk_fuel modules)) (JMap.keys modules)
          (Validation ∅ ∅ []) with
  | Return s =>
      Return (ValidationResult (length (v_errors s) =? 0) (v_errors s))
  | Throw e => Throw e
  | OutOfFuel => OutOfFuel
  end.
End Validator.

(** [x] lists the unregistered [y] as a dependency. *)
Definition missing_dependency (mods : list (string * moduleObject))
    (x y : string) : Prop :=
  depends_on mods x y ∧ JMap.get y mods = None.

Definition circular_free (errors : list graphError) : Prop :=
  ∀ x, CircularDetected x ∉ errors.

(** What a call of the closure does to the marks and the errors. *)
Definition validation_step (s s' : validation) : Prop :=
  v_visiting s' = v_visiting s ∧
  v_visited s ⊆ v_visited s' ∧
  (∃ l, v_errors s' = v_errors s ++ l) ∧
  (∀ x, x ∈ v_visiting s → x ∈ v_visited s' → x ∈ v_visited s).

(** [l] lists the visited ids, once each, every id after the registered
    ids it depends on. *)
Definition validation_ok (mods : list (string * moduleObject))
    (s : validation) (l : list string) : Prop :=
  NoDup l ∧
  (∀ x, x ∈ l ↔ x ∈ v_visited s) ∧
  (∀ i x y, l !! i = Some x → depends_on mods x y →
            is_Some (JMap.get y mods) →
            ∃ j, j < i ∧ l !! j = Some y).

(** Two modules that depend on each other, and one with a dependency
    that is not registered. *)
Definition brokenGraph : system :=
  state_after (registerModule "c" (depsConfig ["ghost"]) 0) fullCycle.

(** ** More of the state store *)

Section StateStoreMore.
Context {value : Type}.

(** [deleteModuleState(moduleId)] *)
Definition deleteModuleState (moduleId : string) (p : persistence value)
  : outcome unit * persistence value :=
  match db p with
  | None => (Throw DatabaseNotInitialized, p)
  | Some d =>
      (Return tt,
       set_db (Database (delete moduleId (db_moduleStates d))
                        (db_stateHistory d) (db_nextId d))
              p)
  end.

(** The numbers of the source are IEEE doubles: the primitive floats.
    A time value ([Date.now()], the [timestamp] of a record) is an
    integer of at most [8.64e15] in magnitude, below [2 ^ 53], which
    [number] converts exactly. *)
Definition time_value (t : Z) : Prop :=
  (-8640000000000000 ≤ t ≤ 8640000000000000)%Z.

Definition number (z : Z) : float :=
  if (z <? 0)%Z then (- of_uint63 (Uint63.of_Z (- z)))%float
  else of_uint63 (Uint63.of_Z z).

(** [Date.now() - (daysToKeep * 24 * 60 * 60 * 1000)] *)
Definition cutoff_time (daysToKeep : float) (now : Z) : float :=
  (number now - daysToKeep * 24 * 60 * 60 * 1000)%float.

(** The keys of [IDBKeyRange.upperBound(x)]: those that are at most
    [x]. *)
Definition upperBound (x : float) (key : Z) : Prop :=
  (number key <=? x)%float = true.

#[global] Instance upperBound_dec x key : Decision (upperBound x key) :=
  decide ((number key <=? x)%float = true).

(** [cleanupOldHistory(daysToKeep)], at time [now]: the cursor runs over
    the history records whose timestamp is in the key range, deletes
    each and counts it.  [NaN] is no valid key: on a cutoff that is
    [NaN], [IDBKeyRange.upperBound] throws a [DataError], which is the
    result [None]. *)
Definition cleanupOldHistory (daysToKeep : float) (now : Z)
    (p : persistence value) : option (outcome nat * persistence value) :=
  match db p with
  | None => Some (Throw DatabaseNotInitialized, p)
  | Some d =>
      let cutoffTime := cutoff_time daysToKeep now in
      if is_nan cutoffTime then None
      else
        let old :=
          filter (λ h, upperBound cutoffTime (h_timestamp h))
                 (db_stateHistory d) in
        Some (Return (length old),
              set_db (Database (db_moduleStates d)
                               (filter
                                  (λ h, ¬ upperBound cutoffTime
                                            (h_timestamp h))
                                  (db_stateHistory d))
                               (db_nextId d))
                     p)
  end.

(** Latest first: no record comes before a record with a later
    timestamp. *)
Definition latest_first (l : list (historyData value)) : Prop :=
  ∀ i j a b, i < j → l !! i = Some a → l !! j = Some b →
             (h_timestamp b ≤ h_timestamp a)%Z.

(** The history records of the store, of all modules. *)
Definition history_records (p : persistence value)
  : list (historyData value) :=
  match db p with
  | Some d => db_stateHistory d
  | None => []
  end.
End StateStoreMore.

Section SaveSequences.
Context {value text : Type}.
Variable JSON_stringify : value → option text.
Variable JSON_parse : text → option value.

(** A call [saveModuleState(moduleId, state, options)] at a time. *)
Record saveCall := SaveCall {
  sc_moduleId : string;
  sc_state : value;
  sc_options : saveOptions;
  sc_now : Z
}.

(** The store after the calls of [calls], made one after the other,
    whether they return or throw. *)
Definition after_saves (calls : list saveCall) (p : persistence value)
  : persistence value :=
  foldl (λ p c,
           (saveModuleState JSON_stringify JSON_parse (sc_moduleId c)
              (sc_state c) (sc_options c) (sc_now c) p).2)
        p calls.
End SaveSequences.

Arguments saveCall : clear implicits.

(** A store with one state saved at time 5. *)
Definition savedOnce : persistence (list (string * Z)) :=
  (saveModuleState toy_stringify toy_parse "tts" [("count", 1%Z)]
     (SaveOptions None None) 5 openedPersistence).2.

(** ** More of the WebSocket server *)

(** [ws.close()] belongs to the platform: an open connection starts to
    close, a connection that is closing or closed stays as it is. *)
Definition close_socket (s : socket) : socket :=
  match ws_readyState s with
  | OPEN | CONNECTING => Socket CLOSING (ws_sent s)
  | _ => s
  end.

Definition close (ws : nat) (srv : server) : server :=
  Server (clients srv) (alter close_socket ws (sockets srv))
         (moduleRegistry srv) (moduleFiles srv).

Definition set_clients (f : list (string * client) → list (string * client))
    (srv : server) : server :=
  Server (f (clients srv)) (sockets srv) (moduleRegistry srv)
         (moduleFiles srv).

Definition ping_message : json := JObj [("type", JStr "ping")].
Definition pong_message : json := JObj [("type", JStr "pong")].

(** [now - client.lastPing > 30000] *)
Definition timed_out (now : Z) (c : client) : Prop :=
  (now - c_lastPing c > 30000)%Z.

#[global] Instance timed_out_dec now c : Decision (timed_out now c) :=
  decide (now - c_lastPing c > 30000)%Z.

(** The body of the loop of the heartbeat. *)
Definition heartbeat_step (now : Z) (srv : server) (kv : string * client)
  : server :=
  if decide (timed_out now kv.2) then
    set_clients (JMap.delete kv.1) (close (c_ws kv.2) srv)
  else sendMessage (c_ws kv.2) ping_message srv.

(** The callback that [startHeartbeat] hands to [setInterval], at time
    [now].  The loop runs over the live [Map]; its body deletes no entry
    but the one it is at, so that the entries met are those of the map
    at entry, in insertion order. *)
Definition heartbeat (now : Z) (srv : server) : server :=
  foldl (heartbeat_step now) srv (clients srv).

(** [handlePing(clientId, message)], at time [now] *)
Definition handlePing (clientId : string) (now : Z) (srv : server) : server :=
  match JMap.get clientId (clients srv) with
  | Some c =>
      sendMessage (c_ws c) pong_message
        (set_clients
           (JMap.set clientId (Client (c_ws c) (c_id c) (c_type c) now))
           srv)
  | None => srv
  end.

(** Whether a value is truthy; [None] is [undefined]. *)
Definition truthy (v : option json) : bool :=
  match v with
  | None | Some JNull => false
  | Some (JBool b) => b
  | Some (JNum n) => negb (n =? 0)%Z
  | Some (JStr s) => negb (bool_decide (s = ""))
  | Some (JArr _) | Some (JObj _) => true
  end.

(** [v.k] for a key [k] that no string, number, boolean or array has:
    the field of an object, [undefined] on the other values. *)
Definition field (k : string) (v : option json) : option json :=
  match v with
  | Some (JObj fields) => JMap.get k fields
  | _ => None
  end.

(** [typeof v === 'function']: no value that [JSON.parse] yields is a
    function. *)
Definition is_function (v : option json) : bool := false.

(** [validateModuleConfig(config)] *)
Definition validateModuleConfig (config : option json) : bool :=
  truthy config && truthy (field "id" config) && truthy (field "name" config)
  && truthy (field "version" config) && is_function (field "init" config).

(** What a server handler leaves behind: [Some message] when its promise
    is rejected with an error of that message. *)
Definition rejected (message : string) (srv : server)
  : option string * server :=
  (Some message, srv).

Section InstallHandler.
(** The statements of the [try] block of [handleModuleInstall] after the
    validation: they store the module, watch its file and tell the
    clients.  [Some message] when they throw. *)
Variable store_and_announce :
  string → option json → Z → server → option string * server.

(** [handleModuleInstall(clientId, message)] of the server, at time
    [now], on [message.data].  Reading the fields of [undefined] or
    [null] throws before the [try]; the [catch] reads the connection of
    the client, which throws when the client is not there. *)
Definition server_handleModuleInstall (clientId : string) (data : option json)
    (now : Z) (srv : server) : option string * server :=
  match data with
  | None | Some JNull => rejected "Cannot destructure" srv
  | _ =>
      let moduleConfig := field "moduleConfig" data in
      let tried :=
        if negb (validateModuleConfig moduleConfig) then
          (Some "Invalid module configuration", srv)
        else store_and_announce clientId data now srv in
      match tried with
      | (None, srv1) => (None, srv1)
      | (Some message, srv1) =>
          match JMap.get clientId (clients srv1) with
          | Some c =>
              (None,
               sendError (c_ws c) ("Failed to install module: " +:+ message)
                 now srv1)
          | None => rejected "Cannot read properties of undefined" srv1
          end
      end
  end.
End InstallHandler.

(** The connections of the clients are distinct, and so are their
    ids. *)
Definition distinct_clients (srv : server) : Prop :=
  NoDup (clients srv).*1 ∧ NoDup (c_ws <$> (clients srv).*2).

(** What [sendMessage] does to a connection. *)
Definition send_on (message : json) (s : socket) : socket :=
  match ws_readyState s with
  | OPEN => Socket OPEN (ws_sent s ++ [message])
  | _ => s
  end.

(** What a tick of the heartbeat does to the connection of a client. *)
Definition heartbeat_socket (now : Z) (kv : string * client) (s : socket)
  : socket :=
  if decide (timed_out now kv.2) then close_socket s
  else send_on ping_message s.

(** Two peers, the second silent since time 0, the first heard at time
    40000. *)
Definition onePeerSilent : server :=
  Server [("client_a", Client 1 "client_a" "unknown" 40000);
          ("client_b", Client 2 "client_b" "unknown" 0)]
         (<[1 := Socket OPEN []]> (<[2 := Socket OPEN []]> ∅))
         [] [].

(** A [module_install] message with every field that
    [validateModuleConfig] reads, as [JSON.parse] yields it. *)
Definition installRequest : option json :=
  Some (JObj [("moduleId", JStr "tts");
              ("moduleConfig",
               JObj [("id", JStr "tts"); ("name", JStr "TTS");
                     ("version", JStr "1.0.0");
                     ("init", JStr "function() {}")]);
              ("source", JStr "websocket")]).

(** ** Hooks that write the descriptor *)

(** [hotSwapModule] calls [module.update(oldModule, module)] on the live
    descriptor, and the hooks of the repository write it:
    [ttsModule.update] of main.jsx copies the keys of [newModule.config]
    onto [this].  Here the writes of the hook that is called are a
    parameter: from the copy of the old descriptor and the live
    descriptor it is called with, the two as the hook leaves them,
    whether it returns or throws.  The object stays the value of the
    key it is registered under. *)
Module Live.
Section Hooks.
Variable update_writes :
  moduleObject → moduleObject → moduleObject * moduleObject.

(** [hotSwapModule(moduleId, newModuleConfig)], at time [now]. *)
Definition hotSwapModule (moduleId : string) (newModuleConfig : moduleConfig)
    (now : Z) : M moduleObject :=
  let! found := gets (λ st, JMap.get moduleId (modules st)) in
  match found with
  | None => throw (ModuleNotFound moduleId)
  | Some module =>
      let! isLoaded := gets (λ st, JSet.has moduleId (loadedModules st)) in
      if negb isLoaded then throw (ModuleNotLoaded moduleId)
      else
        let oldModule := module in
        let module := with_lastUpdated now (assign module newModuleConfig) in
        update_state (set_modules (JMap.set moduleId module)) ;;
        let! left :=
          match update module with
          | Some h =>
              let left := update_writes oldModule module in
              update_state (record (UpdateCalled moduleId oldModule module)) ;;
              update_state (set_modules (JMap.set moduleId left.2)) ;;
              match h with
              | Returns => ret left
              | Throws msg => throw (HookError msg)
              end
          | None => ret (oldModule, module)
          end in
        emit "moduleUpdated" (UpdateData moduleId left.1 left.2) ;;
        ret left.2
  end.
End Hooks.

(** A hook that writes nothing. *)
Definition quiet (oldModule module : moduleObject)
  : moduleObject * moduleObject :=
  (oldModule, module).

(** The two descriptors as the [update] hook leaves them, when it is
    set. *)
Definition left_by
    (update_writes : moduleObject → moduleObject → moduleObject * moduleObject)
    (oldModule merged : moduleObject) : moduleObject * moduleObject :=
  match update merged with
  | Some _ => update_writes oldModule merged
  | None => (oldModule, merged)
  end.

(** What [hotSwapModule] adds to the trace on a loaded module whose
    merged descriptor is [merged]. *)
Definition swap_trace
    (update_writes : moduleObject → moduleObject → moduleObject * moduleObject)
    (moduleId : string) (oldModule merged : moduleObject) : list event :=
  let left := left_by update_writes oldModule merged in
  match update merged with
  | Some Returns =>
      [UpdateCalled moduleId oldModule merged;
       Emit "moduleUpdated" (UpdateData moduleId left.1 left.2)]
  | Some (Throws _) => [UpdateCalled moduleId oldModule merged]
  | None => [Emit "moduleUpdated" (UpdateData moduleId left.1 left.2)]
  end.

Definition swap_outcome
    (update_writes : moduleObject → moduleObject → moduleObject * moduleObject)
    (oldModule merged : moduleObject) : outcome moduleObject :=
  match update merged with
  | Some (Throws msg) => Throw (HookError msg)
  | _ => Return (left_by update_writes oldModule merged).2
  end.

(** [Object.assign(this, newModule.config)] of [ttsModule.update], for a
    [config] whose keys are among [id], [name] and [version]. *)
Definition assign_config (m : moduleObject) : moduleObject :=
  Module_ (default (id m) (JMap.get "id" (config m)))
          (from_option Some (name m) (JMap.get "name" (config m)))
          (from_option Some (version m) (JMap.get "version" (config m)))
          (dependencies m) (exports m) (init m) (destroy m) (update m)
          (config m) (state m) (lastUpdated m).

(** What [ttsModule.update] writes of the descriptor. *)
Definition tts_update (oldModule module : moduleObject)
  : moduleObject * moduleObject :=
  (oldModule, assign_config module).
End Live.

(** A fragment with a [config] key only, whose value has an [id]
    key. *)
Definition configIdFragment (newId : string) : moduleConfig :=
  ModuleConfig None None None None None None None None
               (Some [("id", newId)]) None None.

(** ** Calls that overlap *)

(** The methods above run from their call to their end.  The methods of
    the source are [async]: a call runs to its first [await] and goes on
    from there in a later turn of the job queue, and a call made while
    another is suspended runs in between.  A method keeps the object it
    read from [this.modules] at its start, whatever the map holds later:
    here the descriptors are objects on a heap, and the map holds their
    addresses. *)
Module Async.

Record world := World {
  w_heap : list moduleObject;
  w_modules : list (string * nat);
  w_moduleStates : gmap string status;
  w_loadedModules : list string;
  w_trace : list event
}.

(** [new ModuleSystem()] *)
Definition newWorld : world := World [] [] ∅ [] [].

(** The fields of the object at an address.  Addresses come from
    [registerModule], and no object is freed. *)
Definition object_at (module : nat) (w : world) : moduleObject :=
  default (new_module "" emptyConfig 0) (w_heap w !! module).

(** The registry as the methods above see it: every id with the fields
    of its object. *)
Definition view (w : world) : list (string * moduleObject) :=
  (λ kv : string * nat, (kv.1, object_at kv.2 w)) <$> w_modules w.

Definition snapshot (w : world) : system :=
  System (view w) (w_moduleStates w) (w_loadedModules w) (w_trace w).

Definition traced (e : event) (w : world) : world :=
  World (w_heap w) (w_modules w) (w_moduleStates w) (w_loadedModules w)
        (w_trace w ++ [e]).

(** A call in flight: settled, or suspended at an [await] with what it
    does when it is resumed. *)
Inductive task (A : Type) : Type :=
  | Settled (r : outcome A)
  | Pending (resume : world → task A * world).

Arguments Settled {A} r.
Arguments Pending {A} resume.

(** [await callee; k]: the callee goes on from turn to turn; one turn
    after it has settled the caller goes on, with the result or with the
    exception, which the [catch] blocks of the source throw again. *)
Fixpoint await {A B} (callee : task A) (k : A → world → task B * world)
    (w : world) : task B * world :=
  match callee with
  | Settled r =>
      (Pending (λ w',
                  match r with
                  | Return a => k a w'
                  | Throw e => (Settled (Throw e), w')
                  | OutOfFuel => (Settled OutOfFuel, w')
                  end),
       w)
  | Pending resume =>
      (Pending (λ w', let (callee', w'') := resume w' in await callee' k w''),
       w)
  end.

(** [registerModule(moduleId, moduleConfig)], at time [now]: a new
    object. *)
Definition registerModule (moduleId : string) (moduleConfig : moduleConfig)
    (now : Z) (w : world) : nat * world :=
  let module := length (w_heap w) in
  (module,
   World (w_heap w ++ [new_module moduleId moduleConfig now])
         (JMap.set moduleId module (w_modules w))
         (<[moduleId := registered]> (w_moduleStates w))
         (w_loadedModules w) (w_trace w)).

(** The loop of [checkDependencies]. *)
Fixpoint load_each (load : string → world → task nat * world)
    (dependencyOrder : list string) (w : world) : task unit * world :=
  match dependencyOrder with
  | [] => (Settled (Return tt), w)
  | depId :: rest =>
      if JSet.has depId (w_loadedModules w) then load_each load rest w
      else
        let (callee, w1) := load depId w in
        await callee (λ _ w2, load_each load rest w2) w1
  end.

(** [checkDependencies(moduleId)]; [load] is [this.loadModule]. *)
Definition checkDependencies (load : string → world → task nat * world)
    (moduleId : string) (w : world) : task unit * world :=
  match JMap.get moduleId (w_modules w) with
  | None => (Settled (Return tt), w)
  | Some module =>
      match cycle_check (view w) moduleId with
      | Return _ =>
          match getDependencyOrder (view w) (dependencies (object_at module w))
          with
          | Return dependencyOrder => load_each load dependencyOrder w
          | Throw e => (Settled (Throw e), w)
          | OutOfFuel => (Settled OutOfFuel, w)
          end
      | Throw e => (Settled (Throw e), w)
      | OutOfFuel => (Settled OutOfFuel, w)
      end
  end.

(** The end of [loadModule], after the two [await]s. *)
Definition add_loaded (moduleId : string) (module : nat) (w : world)
  : task nat * world :=
  let w1 :=
    World (alter (with_state loaded) module (w_heap w)) (w_modules w)
          (<[moduleId := loaded]> (w_moduleStates w))
          (JSet.add moduleId (w_loadedModules w)) (w_trace w) in
  (Settled (Return module),
   traced (Emit "moduleLoaded" (ModuleData moduleId (object_at module w1))) w1).

(** The part of [loadModule] after [await this.checkDependencies].  The
    hook is awaited for one turn, the least that an [await] takes. *)
Definition finish_load (moduleId : string) (options : list (string * string))
    (module : nat) (w : world) : task nat * world :=
  match init (object_at module w) with
  | Some h =>
      (Pending
         (λ w',
            match h with
            | Returns => add_loaded moduleId module w'
            | Throws msg => (Settled (Throw (HookError msg)), w')
            end),
       traced (InitCalled moduleId options) w)
  | None => add_loaded moduleId module w
  end.

(** [loadModule(moduleId, options)] *)
Fixpoint loadModule (fuel : nat) (moduleId : string)
    (options : list (string * string)) (w : world) : task nat * world :=
  match fuel with
  | 0 => (Settled OutOfFuel, w)
  | S fuel' =>
      match JMap.get moduleId (w_modules w) with
      | None => (Settled (Throw (ModuleNotFound moduleId)), w)
      | Some module =>
          if JSet.has moduleId (w_loadedModules w) then
            (Settled (Return module), w)
          else
            let (callee, w1) :=
              checkDependencies (λ depId, loadModule fuel' depId [])
                moduleId w in
            await callee (λ _, finish_load moduleId options module) w1
      end
  end.

(** The end of [unloadModule], after the [await]. *)
Definition remove_loaded (moduleId : string) (module : nat) (w : world)
  : task unit * world :=
  let w1 :=
    World (alter (with_state unloaded) module (w_heap w)) (w_modules w)
          (<[moduleId := unloaded]> (w_moduleStates w))
          (JSet.delete moduleId (w_loadedModules w)) (w_trace w) in
  (Settled (Return tt),
   traced (Emit "moduleUnloaded" (ModuleData moduleId (object_at module w1))) w1).

(** [unloadModule(moduleId)] *)
Definition unloadModule (moduleId : string) (w : world) : task unit * world :=
  match JMap.get moduleId (w_modules w) with
  | None => (Settled (Throw (ModuleNotFound moduleId)), w)
  | Some module =>
      if negb (JSet.has moduleId (w_loadedModules w)) then
        (Settled (Return tt), w)
      else
        match getDependents moduleId (snapshot w) with
        | [] =>
            match destroy (object_at module w) with
            | Some h =>
                (Pending
                   (λ w',
                      match h with
                      | Returns => remove_loaded moduleId module w'
                      | Throws msg => (Settled (Throw (HookError msg)), w')
                      end),
                 traced (DestroyCalled moduleId) w)
            | None => remove_loaded moduleId module w
            end
        | dependents =>
            (Settled (Throw (CannotUnload moduleId dependents)), w)
        end
  end.

(** [handleModuleUninstall(data)] *)
Definition handleModuleUninstall (data : messageData) (w : world)
  : task unit * world :=
  let (callee, w1) := unloadModule (d_moduleId data) w in
  await callee
    (λ _ w2,
       (Settled (Return tt),
        World (w_heap w2) (JMap.delete (d_moduleId data) (w_modules w2))
              (delete (d_moduleId data) (w_moduleStates w2))
              (w_loadedModules w2) (w_trace w2)))
    w1.





(** A call run alone, to its end; [n] bounds its turns. *)
Fixpoint alone {A} (n : nat) (t : task A) (w : world) : outcome A * world :=
  match t with
  | Settled r => (r, w)
  | Pending resume =>
      match n with
      | 0 => (OutOfFuel, w)
      | S n' => let (t', w') := resume w in alone n' t' w'
      end
  end.

(** A call made in a world and run alone from there settles with an
    outcome and leaves a world. *)
Inductive settles {A : Type} : task A * world → outcome A → world → Prop :=
  | settles_now r w : settles (Settled r, w) r w
  | settles_later resume w r w' :
      settles (resume w) r w' → settles (Pending resume, w) r w'.

(** The addresses of the registry are those of objects, one for each
    entry. *)
Definition well_formed (w : world) : Prop :=
  NoDup (w_modules w).*2 ∧
  ∀ kv, kv ∈ w_modules w → kv.2 < length (w_heap w).

(** What a load returns, with the object for its address. *)
Definition loaded_object (w : world) (r : outcome nat)
  : outcome moduleObject :=
  match r with
  | Return module => Return (object_at module w)
  | Throw e => Throw e
  | OutOfFuel => OutOfFuel
  end.

(** One module without dependencies, registered. *)
Definition oneModule : world :=
  (registerModule "x" emptyConfig 0 newWorld).2.
End Async.

(** * Properties *)

(** ** The containers *)

Module JMapFacts.
Section Facts.
Context {V : Type}.
Implicit Types (m : list (string * V)) (k : string) (v : V).

Lemma get_set_eq k v m : JMap.get k (JMap.set k v m) = Some v.
Proof.
  induction m as [|[k' v'] m IH]; simpl.
  - by rewrite decide_True.
  - destruct (decide (k = k')) as [->|Hne]; simpl.
    + by rewrite decide_True.
    + by rewrite decide_False.
Qed.

Lemma get_set_ne k k' v m :
  k ≠ k' → JMap.get k' (JMap.set k v m) = JMap.get k' m.
Proof.
  intros Hne. induction m as [|[k0 v0] m IH]; simpl.
  - by rewrite decide_False.
  - destruct (decide (k = k0)) as [->|Hne0]; simpl.
    + by rewrite !decide_False.
    + destruct (decide (k' = k0)); [done | apply IH].
Qed.

Lemma get_delete_eq k m : JMap.get k (JMap.delete k m) = None.
Proof.
  unfold JMap.delete.
  induction m as [|[k' v'] m IH]; [done |].
  rewrite filter_cons. simpl. destruct (decide (k' ≠ k)); simpl.
  - by rewrite decide_False.
  - done.
Qed.

Lemma get_delete_ne k k' m :
  k ≠ k' → JMap.get k' (JMap.delete k m) = JMap.get k' m.
Proof.
  intros Hne. unfold JMap.delete.
  induction m as [|[k0 v0] m IH]; [done |].
  rewrite filter_cons. simpl. destruct (decide (k0 ≠ k)) as [H0|H0]; simpl.
  - by rewrite IH.
  - apply dec_stable in H0. subst k0. by rewrite decide_False.
Qed.

Lemma get_Some_elem k v m : JMap.get k m = Some v → (k, v) ∈ m.
Proof.
  induction m as [|[k' v'] m IH]; simpl; [done |].
  destruct (decide (k = k')) as [->|Hne].
  - intros [= ->]. left.
  - intros H. right. by apply IH.
Qed.

Lemma get_Some_key k v m : JMap.get k m = Some v → k ∈ JMap.keys m.
Proof.
  intros H%get_Some_elem. unfold JMap.keys.
  apply list_elem_of_fmap. by exists (k, v).
Qed.

Lemma get_modify f k k' m :
  JMap.get k' (JMap.modify f k m) =
  if decide (k' = k) then f <$> JMap.get k m else JMap.get k' m.
Proof.
  unfold JMap.modify. destruct (JMap.get k m) as [v|] eqn:Hk.
  - destruct (decide (k' = k)) as [->|Hne].
    + by rewrite get_set_eq.
    + by rewrite get_set_ne.
  - destruct (decide (k' = k)) as [->|Hne]; [by rewrite Hk | done].
Qed.

End Facts.
End JMapFacts.

Lemma for_each_app {A S} (f : A → S → outcome S) l1 l2 s :
  for_each f (l1 ++ l2) s =
  match for_each f l1 s with
  | Return s' => for_each f l2 s'
  | Throw e => Throw e
  | OutOfFuel => OutOfFuel
  end.
Proof.
  revert s. induction l1 as [|x l1 IH]; intros s; simpl; [done |].
  destruct (f x s); auto.
Qed.

(** A loop that returns has carried its invariant [P] through, and has
    established [Q x] for every element [x] it went over. *)
Lemma for_each_invariant {A S} (f : A → S → outcome S)
    (P : S → Prop) (Q : A → S → Prop) l s s' :
  (∀ x s1 s2, x ∈ l → P s1 → f x s1 = Return s2 → P s2 ∧ Q x s2) →
  (∀ x y s1 s2, P s1 → f y s1 = Return s2 → Q x s1 → Q x s2) →
  for_each f l s = Return s' →
  P s →
  P s' ∧ ∀ x, x ∈ l → Q x s'.
Proof.
  intros Hstep Hkeep.
  assert (∀ l' s (X : A → Prop),
            (∀ x, x ∈ l' → x ∈ l) →
            for_each f l' s = Return s' → P s → (∀ x, X x → Q x s) →
            P s' ∧ ∀ x, X x ∨ x ∈ l' → Q x s') as Hgen.
  { clear s. induction l' as [|a l' IH]; intros s X Hsub Hrun HP HX;
      simpl in Hrun.
    - injection Hrun as <-. split; [done |].
      intros x [Hx|Hx]; [by apply HX | by apply elem_of_nil in Hx].
    - destruct (f a s) as [s1| |] eqn:Ha; try discriminate.
      destruct (Hstep a s s1) as [HP1 HQ1]; [apply Hsub; left | done | done |].
      destruct (IH s1 (λ x, X x ∨ x = a)) as [HP' HQ']; [| done | done | |].
      + intros x Hx. apply Hsub. by right.
      + intros x [Hx| ->]; [|done]. apply (Hkeep x a s s1 HP Ha), HX, Hx.
      + split; [done |]. intros x [Hx|Hx].
        * apply HQ'; auto.
        * apply elem_of_cons in Hx as [->|Hx]; apply HQ'; auto. }
  intros Hrun HP. destruct (Hgen l s (λ _, False)) as [HP' HQ']; try done.
  split; [done |]. intros x Hx. apply HQ'. by right.
Qed.

(** A loop either returns, or ends as the call that did not return. *)
Lemma for_each_outcome {A S} (f : A → S → outcome S) (P : S → Prop) l s :
  (∀ x s1 s2, x ∈ l → P s1 → f x s1 = Return s2 → P s2) →
  P s →
  (∃ s', for_each f l s = Return s' ∧ P s') ∨
  (∃ x s1, x ∈ l ∧ P s1 ∧ for_each f l s = f x s1 ∧
           ∀ s2, f x s1 ≠ Return s2).
Proof.
  revert s. induction l as [|a l IH]; intros s Hstep HP; simpl.
  - left. by exists s.
  - destruct (f a s) as [s1|e|] eqn:Ha.
    + destruct (IH s1) as [Hret|(x & s2 & Hx & HP2 & Heq & Hne)].
      * intros x s2 s3 Hx. apply Hstep. by right.
      * apply (Hstep a s s1); [left | done | done].
      * by left.
      * right. exists x, s2. split; [by right | done].
    + right. exists a, s. rewrite Ha. split; [left | done].
    + right. exists a, s. rewrite Ha. split; [left | done].
Qed.

(** ** The dependency order *)

Section VisitFacts.
Variable mods : list (string * moduleObject).

Lemma walk_step_refl w : walk_step w w.
Proof. repeat split; auto. by exists []; rewrite app_nil_r. Qed.

Lemma walk_step_trans w1 w2 w3 :
  walk_step w1 w2 → walk_step w2 w3 → walk_step w1 w3.
Proof.
  intros (Hv1 & Hs1 & [l1 Ho1] & Hn1) (Hv2 & Hs2 & [l2 Ho2] & Hn2).
  repeat split.
  - by rewrite Hv2.
  - set_solver.
  - exists (l1 ++ l2). by rewrite Ho2, Ho1, app_assoc.
  - intros x Hx Hx3. apply Hn1; [done |]. apply Hn2; [|done]. by rewrite Hv1.
Qed.

Lemma visit_step fuel depId w w' :
  visit mods fuel depId w = Return w' →
  walk_step w w' ∧ depId ∈ visited w'.
Proof.
  revert depId w w'. induction fuel as [|fuel IH]; intros depId w w' Hrun;
    simpl in Hrun; [discriminate |].
  destruct (decide (depId ∈ visiting w)) as [|Hing]; [discriminate |].
  destruct (decide (depId ∈ visited w)) as [Hed|Hed].
  { injection Hrun as <-. split; [apply walk_step_refl | done]. }
  set (w1 := Walk (visited w) ({[depId]} ∪ visiting w) (order w)) in Hrun.
  assert (∀ l w2, for_each (visit mods fuel) l w1 = Return w2 →
                  walk_step w1 w2) as Hloop.
  { intros l w2 Hl.
    apply (for_each_invariant (visit mods fuel) (walk_step w1) (λ _ _, True) l w1 w2);
      [| done | done | apply walk_step_refl].
    intros x s1 s2 _ Hs1 Hx. split; [|done].
    eapply walk_step_trans; [done |]. by apply (IH x). }
  assert (∃ w2, walk_step w1 w2 ∧
            w' = Walk ({[depId]} ∪ visited w2) (visiting w2 ∖ {[depId]})
                      (order w2 ++ [depId])) as (w2 & Hw2 & ->).
  { destruct (JMap.get depId mods) as [depModule|].
    - destruct (for_each _ _ w1) as [w2| |] eqn:Hl; try discriminate.
      injection Hrun as <-. exists w2. split; [by eapply Hloop | done].
    - injection Hrun as <-. exists w1. split; [apply walk_step_refl | done]. }
  destruct Hw2 as (Hv & Hs & [l Ho] & Hn). simpl in *.
  split; [|set_solver]. repeat split; simpl.
  - rewrite Hv. set_solver.
  - set_solver.
  - exists (l ++ [depId]). by rewrite Ho, app_assoc.
  - intros x Hx [->%elem_of_singleton|Hx2]%elem_of_union; [done |].
    apply Hn; [set_solver | done].
Qed.

Lemma visit_loop_step fuel l w w' :
  for_each (visit mods fuel) l w = Return w' →
  walk_step w w' ∧ ∀ x, x ∈ l → x ∈ visited w'.
Proof.
  intros Hl.
  apply (for_each_invariant (visit mods fuel) (walk_step w)
           (λ x s, x ∈ visited s) l w w'); [| | done | apply walk_step_refl].
  - intros x s1 s2 _ Hs1 Hx. apply visit_step in Hx as [Hx ?].
    split; [by eapply walk_step_trans | done].
  - intros x y s1 s2 _ Hy%visit_step Hx. destruct Hy as [(_ & Hs & _) _].
    by apply Hs.
Qed.

Lemma visit_ok fuel depId w w' :
  visit mods fuel depId w = Return w' → walk_ok mods w → walk_ok mods w'.
Proof.
  revert depId w w'. induction fuel as [|fuel IH]; intros depId w w' Hrun Hok;
    simpl in Hrun; [discriminate |].
  destruct (decide (depId ∈ visiting w)) as [|Hing]; [discriminate |].
  destruct (decide (depId ∈ visited w)) as [Hed|Hed].
  { by injection Hrun as <-. }
  set (w1 := Walk (visited w) ({[depId]} ∪ visiting w) (order w)) in Hrun.
  assert (walk_ok mods w1) as Hok1 by done.
  assert (∃ w2, walk_ok mods w2 ∧ walk_step w1 w2 ∧
            (∀ m y, JMap.get depId mods = Some m → y ∈ dependencies m →
                    y ∈ visited w2) ∧
            w' = Walk ({[depId]} ∪ visited w2) (visiting w2 ∖ {[depId]})
                      (order w2 ++ [depId])) as (w2 & Hok2 & Hw2 & Hdeps & ->).
  { destruct (JMap.get depId mods) as [depModule|].
    - destruct (for_each _ _ w1) as [w2| |] eqn:Hl; try discriminate.
      injection Hrun as <-. exists w2.
      destruct (visit_loop_step _ _ _ _ Hl) as [Hst Hin].
      split; [|split; [done | split; [|done]]].
      + apply (for_each_invariant (visit mods fuel) (walk_ok mods) (λ _ _, True) _ w1 w2) in Hl
          as [? _]; [done | | done | done].
        intros x s1 s2 _ Hs1 Hx. split; [by apply (IH x s1) | done].
      + by intros m y [= <-] Hy%Hin.
    - injection Hrun as <-. exists w1.
      split; [done | split; [apply walk_step_refl | split; [done | done]]]. }
  destruct Hok2 as (Hnd & Hmem & Htopo).
  destruct Hw2 as (Hv & Hs & [l Ho] & Hn). simpl in *.
  assert (depId ∉ order w2) as Hfresh.
  { rewrite Hmem. intros Hin. apply Hed, Hn; [set_solver | done]. }
  repeat split; simpl.
  - apply NoDup_app. split; [done |]. split; [|apply NoDup_singleton].
    intros x Hx ->%list_elem_of_singleton. done.
  - rewrite elem_of_app, list_elem_of_singleton, Hmem. set_solver.
  - rewrite elem_of_app, list_elem_of_singleton, Hmem. set_solver.
  - intros i x y Hi Hxy.
    destruct (decide (i < length (order w2))) as [Hlt|Hge].
    + rewrite lookup_app_l in Hi by done.
      destruct (Htopo i x y Hi Hxy) as (j & Hj & Hjy).
      exists j. split; [done |]. rewrite lookup_app_l by lia. done.
    + rewrite lookup_app_r in Hi by lia.
      apply list_lookup_singleton_Some in Hi as [Hi0 ->].
      destruct Hxy as (m & Hm & Hy).
      assert (y ∈ order w2) as Hyo by (apply Hmem; eauto).
      apply list_elem_of_lookup in Hyo as [j Hj].
      pose proof (lookup_lt_Some _ _ _ Hj).
      exists j. split; [lia |]. by rewrite lookup_app_l.
Qed.

Lemma visit_loop_ok fuel l w w' :
  for_each (visit mods fuel) l w = Return w' → walk_ok mods w → walk_ok mods w'.
Proof.
  intros Hl Hok.
  apply (for_each_invariant (visit mods fuel) (walk_ok mods) (λ _ _, True) _ w w') in Hl
    as [? _]; [done | | done | done].
  intros x s1 s2 _ Hs1 Hx. split; [by eapply visit_ok | done].
Qed.

(** Every id the walk adds to the order is reached from where the walk
    started. *)
Lemma visit_reach fuel depId w w' :
  visit mods fuel depId w = Return w' →
  ∀ x, x ∈ order w' → x ∈ order w ∨ rtc (depends_on mods) depId x.
Proof.
  revert depId w w'. induction fuel as [|fuel IH]; intros depId w w' Hrun;
    simpl in Hrun; [discriminate |].
  destruct (decide (depId ∈ visiting w)) as [|Hing]; [discriminate |].
  destruct (decide (depId ∈ visited w)) as [Hed|Hed].
  { injection Hrun as <-. auto. }
  set (w1 := Walk (visited w) ({[depId]} ∪ visiting w) (order w)) in Hrun.
  destruct (JMap.get depId mods) as [depModule|] eqn:Hget.
  - destruct (for_each _ _ w1) as [w2| |] eqn:Hl; try discriminate.
    injection Hrun as <-. simpl.
    apply (for_each_invariant (visit mods fuel)
             (λ s, ∀ x, x ∈ order s →
                        x ∈ order w ∨ rtc (depends_on mods) depId x)
             (λ _ _, True)) in Hl as [Hl _]; [| | done | by left].
    + intros x [Hx| ->%list_elem_of_singleton]%elem_of_app; [auto | by right].
    + intros y s1 s2 Hy Hs1 Hrun. split; [|done].
      intros x Hx. destruct (IH _ _ _ Hrun x Hx) as [Hx1|Hx1]; [auto |].
      right. eapply rtc_l; [|done]. by exists depModule.
  - injection Hrun as <-. simpl.
    intros x [Hx| ->%list_elem_of_singleton]%elem_of_app; [auto | by right].
Qed.

Lemma visit_loop_reach fuel l w w' :
  for_each (visit mods fuel) l w = Return w' →
  ∀ x, x ∈ order w' →
       x ∈ order w ∨ ∃ y, y ∈ l ∧ rtc (depends_on mods) y x.
Proof.
  intros Hl.
  apply (for_each_invariant (visit mods fuel)
           (λ s, ∀ x, x ∈ order s →
                      x ∈ order w ∨ ∃ y, y ∈ l ∧ rtc (depends_on mods) y x)
           (λ _ _, True)) in Hl as [Hl _]; [done | | done | by left].
  intros y s1 s2 Hy Hs1 Hrun. split; [|done].
  intros x Hx. destruct (visit_reach _ _ _ _ Hrun x Hx) as [Hx1|Hx1]; [auto |].
  right. by exists y.
Qed.

(** On an acyclic graph no walk meets an id that is being visited. *)
Lemma visit_no_throw fuel depId w e :
  acyclic mods →
  (∀ v, v ∈ visiting w → tc (depends_on mods) v depId) →
  visit mods fuel depId w ≠ Throw e.
Proof.
  intros Hacyc. revert depId w e.
  induction fuel as [|fuel IH]; intros depId w e Hpath; simpl; [done |].
  destruct (decide (depId ∈ visiting w)) as [Hing|Hing].
  { destruct (Hacyc depId). by apply Hpath. }
  destruct (decide (depId ∈ visited w)) as [Hed|Hed]; [done |].
  set (w1 := Walk (visited w) ({[depId]} ∪ visiting w) (order w)).
  destruct (JMap.get depId mods) as [depModule|] eqn:Hget; [|done].
  destruct (for_each_outcome (visit mods fuel)
              (λ s, visiting s = visiting w1) (dependencies depModule) w1)
    as [(w2 & -> & _)|(y & s1 & Hy & Hs1 & -> & Hne)]; [| done | done |].
  - intros x s1 s2 _ Hs1 Hx%visit_step. destruct Hx as [(-> & _) _]. done.
  - destruct (visit mods fuel y s1) as [s2| |] eqn:Hv; [by destruct (Hne s2) | | done].
    destruct (IH y s1 e0); [|done].
    rewrite Hs1. simpl. intros v [->%elem_of_singleton|Hv']%elem_of_union.
    + apply tc_once. by exists depModule.
    + eapply tc_r; [by apply Hpath |]. by exists depModule.
Qed.

Lemma size_list_to_set_le (l : list string) :
  size (list_to_set l : gset string) ≤ length l.
Proof.
  induction l as [|x l IH].
  - rewrite list_to_set_nil, size_empty. simpl. lia.
  - rewrite list_to_set_cons.
    rewrite size_union_alt, size_singleton.
    assert (size (list_to_set l ∖ {[x]} : gset string)
            ≤ size (list_to_set l : gset string))
      by (apply subseteq_size; set_solver).
    simpl. lia.
Qed.

(** The ids being visited are distinct registered modules: the walk
    never gets deeper than their number allows. *)
Lemma visit_fuel fuel depId w :
  visiting w ⊆ list_to_set (JMap.keys mods) →
  length mods + 2 ≤ fuel + size (visiting w) →
  visit mods fuel depId w ≠ OutOfFuel.
Proof.
  revert depId w.
  induction fuel as [|fuel IH]; intros depId w Hsub Hfuel; simpl.
  { apply subseteq_size in Hsub.
    pose proof (size_list_to_set_le (JMap.keys mods)) as Hk.
    unfold JMap.keys in *. rewrite length_fmap in Hk. simpl in *. lia. }
  destruct (decide (depId ∈ visiting w)) as [Hing|Hing]; [done |].
  destruct (decide (depId ∈ visited w)) as [Hed|Hed]; [done |].
  set (w1 := Walk (visited w) ({[depId]} ∪ visiting w) (order w)).
  destruct (JMap.get depId mods) as [depModule|] eqn:Hget; [|done].
  destruct (for_each_outcome (visit mods fuel)
              (λ s, visiting s = visiting w1) (dependencies depModule) w1)
    as [(w2 & -> & _)|(y & s1 & Hy & Hs1 & -> & Hne)]; [| done | done |].
  - intros x s1 s2 _ Hs1 Hx%visit_step. destruct Hx as [(-> & _) _]. done.
  - destruct (visit mods fuel y s1) as [s2| |] eqn:Hv; [by destruct (Hne s2) | done |].
    destruct (IH y s1); [| |done]; rewrite Hs1; simpl.
    + apply JMapFacts.get_Some_key in Hget.
      apply union_subseteq. split; [|done].
      apply singleton_subseteq_l, elem_of_list_to_set, Hget.
    + rewrite size_union by set_solver. rewrite size_singleton. lia.
Qed.
End VisitFacts.

Lemma for_each_visit_fuel mods l w :
  visiting w = ∅ →
  for_each (visit mods (walk_fuel mods)) l w ≠ OutOfFuel.
Proof.
  intros Hw.
  destruct (for_each_outcome (visit mods (walk_fuel mods))
              (λ s, visiting s = ∅) l w)
    as [(w2 & -> & _)|(y & s1 & Hy & Hs1 & -> & Hne)]; [| done | done |].
  - intros x s1 s2 _ Hs1 Hx%visit_step. destruct Hx as [(-> & _) _]. done.
  - apply visit_fuel; rewrite Hs1.
    + set_solver.
    + rewrite size_empty. unfold walk_fuel. lia.
Qed.

(** [getDependencyOrder] always ends: it returns an order or throws. *)
Lemma getDependencyOrder_fuel mods deps :
  getDependencyOrder mods deps ≠ OutOfFuel.
Proof.
  unfold getDependencyOrder.
  pose proof (for_each_visit_fuel mods deps (Walk ∅ ∅ []) eq_refl).
  by destruct (for_each _ _ _).
Qed.

(** What an order that [getDependencyOrder] returns is like, on any
    graph. *)
Lemma getDependencyOrder_Return mods deps dependencyOrder :
  getDependencyOrder mods deps = Return dependencyOrder →
  NoDup dependencyOrder ∧
  (∀ d, d ∈ deps → d ∈ dependencyOrder) ∧
  (∀ x y, x ∈ dependencyOrder → depends_on mods x y →
          strictly_before dependencyOrder y x) ∧
  (∀ x, x ∈ dependencyOrder →
        ∃ d, d ∈ deps ∧ rtc (depends_on mods) d x).
Proof.
  unfold getDependencyOrder.
  destruct (for_each _ _ _) as [w| |] eqn:Hl; try discriminate.
  intros [= <-].
  assert (walk_ok mods (Walk ∅ ∅ [])) as Hok0.
  { repeat split; simpl.
    - apply NoDup_nil_2.
    - by intros ?%elem_of_nil.
    - by intros ?%elem_of_empty.
    - by intros i x y ?. }
  destruct (visit_loop_ok _ _ _ _ _ Hl Hok0) as (Hnd & Hmem & Htopo).
  destruct (visit_loop_step _ _ _ _ _ Hl) as [_ Hin].
  repeat split.
  - done.
  - intros d Hd. apply Hmem, Hin, Hd.
  - intros x y [i Hi]%list_elem_of_lookup Hxy.
    destruct (Htopo i x y Hi Hxy) as (j & Hj & Hjy). by exists j, i.
  - intros x Hx. destruct (visit_loop_reach _ _ _ _ _ Hl x Hx) as [Hx0|Hx0];
      [by apply elem_of_nil in Hx0 | done].
Qed.

Lemma getDependencyOrder_acyclic mods deps :
  acyclic mods → ∃ dependencyOrder,
    getDependencyOrder mods deps = Return dependencyOrder.
Proof.
  intros Hacyc. unfold getDependencyOrder.
  destruct (for_each_outcome (visit mods (walk_fuel mods))
              (λ s, visiting s = ∅) deps (Walk ∅ ∅ []))
    as [(w2 & Hw2 & _)|(y & s1 & Hy & Hs1 & Heq & Hne)]; [| done | |].
  - intros x s1 s2 _ Hs1 Hx%visit_step. destruct Hx as [(-> & _) _]. done.
  - rewrite Hw2. by eexists.
  - rewrite Heq.
    destruct (visit mods (walk_fuel mods) y s1) as [s2|e|] eqn:Hv.
    + by destruct (Hne s2).
    + destruct (visit_no_throw mods (walk_fuel mods) y s1 e); [done | | done].
      rewrite Hs1. by intros v ?%elem_of_empty.
    + destruct (visit_fuel mods (walk_fuel mods) y s1); [| | done]; rewrite Hs1.
      * set_solver.
      * rewrite size_empty. unfold walk_fuel. lia.
Qed.

Lemma ranked_acyclic rank mods : ranked rank mods = true → acyclic mods.
Proof.
  intros Hr.
  assert (∀ x y, depends_on mods x y → rank y < rank x) as Hedge.
  { intros x y (m & Hm%JMapFacts.get_Some_elem & Hy).
    unfold ranked in Hr. rewrite forallb_forall in Hr.
    apply list_elem_of_In, Hr in Hm. simpl in Hm.
    rewrite forallb_forall in Hm. apply list_elem_of_In, Hm in Hy.
    by apply Nat.ltb_lt in Hy. }
  assert (∀ x y, tc (depends_on mods) x y → rank y < rank x) as Hpath.
  { intros x y Hxy. induction Hxy as [x y Hxy|x y z Hxy _ IH].
    - by apply Hedge.
    - apply Hedge in Hxy. lia. }
  intros x Hx. apply Hpath in Hx. lia.
Qed.

Example scenarioA_order :
  getDependencyOrder (modules scenarioA) ["audio"; "voice"]
  = Return ["audio"; "voice"].
Proof. vm_compute. reflexivity. Qed.

(** C2.  On an acyclic dependency graph, for every registered root,
    [getDependencyOrder] over the root's dependency list returns an order
    that holds every id at most once, holds every dependency of the
    root, and places every dependency of a module of the order strictly
    before that module. *)
Theorem getDependencyOrder_topological
    (mods : list (string * moduleObject)) (rootId : string)
    (root : moduleObject) :
  acyclic mods →
  JMap.get rootId mods = Some root →
  ∃ dependencyOrder,
    getDependencyOrder mods (dependencies root) = Return dependencyOrder ∧
    NoDup dependencyOrder ∧
    (∀ d, d ∈ dependencies root → d ∈ dependencyOrder) ∧
    (∀ x y, x ∈ dependencyOrder → depends_on mods x y →
            strictly_before dependencyOrder y x).
Proof.
  intros Hacyc _.
  destruct (getDependencyOrder_acyclic mods (dependencies root) Hacyc)
    as [dependencyOrder Hrun].
  exists dependencyOrder. split; [done |].
  apply getDependencyOrder_Return in Hrun as (Hnd & Hin & Htopo & _).
  done.
Qed.

Lemma getDependencyOrder_topological_witness :
  ∃ dependencyOrder,
    getDependencyOrder (modules scenarioA) ["audio"; "voice"]
    = Return dependencyOrder ∧
    NoDup dependencyOrder ∧
    (∀ d, d ∈ ["audio"; "voice"] → d ∈ dependencyOrder) ∧
    (∀ x y, x ∈ dependencyOrder → depends_on (modules scenarioA) x y →
            strictly_before dependencyOrder y x).
Proof.
  apply (getDependencyOrder_topological (modules scenarioA) "tts"
           (Module_ "tts" None None ["audio"; "voice"] []
                    (Some noop) (Some noop) (Some noop) [] registered 0)).
  - apply (ranked_acyclic rankA). vm_compute. reflexivity.
  - vm_compute. reflexivity.
Defined.

(** ** The cycle check *)

Section CheckFacts.
Variable mods : list (string * moduleObject).
Variable targetId : string.

(** The body of the loop of [checkCircular]. *)
Local Abbreviation check_dep fuel currentId :=
  (λ depId k',
     if decide (depId = targetId) then
       Throw (CircularDependency currentId (Some depId))
     else checkCircular mods fuel depId targetId k').

Lemma checkCircular_step fuel currentId k k' :
  checkCircular mods fuel currentId targetId k = Return k' →
  marks_step k k' ∧ currentId ∈ m_visited k'.
Proof.
  revert currentId k k'.
  induction fuel as [|fuel IH]; intros currentId k k' Hrun;
    simpl in Hrun; [discriminate |].
  destruct (decide (currentId ∈ m_visiting k)) as [|Hing]; [discriminate |].
  destruct (decide (currentId ∈ m_visited k)) as [Hed|Hed].
  { injection Hrun as <-. by split. }
  set (k1 := Marks (m_visited k) ({[currentId]} ∪ m_visiting k)) in Hrun.
  assert (∃ k2, marks_step k1 k2 ∧
            k' = Marks ({[currentId]} ∪ m_visited k2)
                       (m_visiting k2 ∖ {[currentId]})) as (k2 & Hk2 & ->).
  { destruct (JMap.get currentId mods) as [currentModule|].
    - destruct (for_each _ _ k1) as [k2| |] eqn:Hl; try discriminate.
      injection Hrun as <-. exists k2. split; [|done].
      apply (for_each_invariant (check_dep fuel currentId)
               (marks_step k1) (λ _ _, True)) in Hl as [Hl _];
        [done | | done | done].
      intros x s1 s2 _ [Hv Hs] Hx. split; [|done].
      destruct (decide (x = targetId)); [discriminate |].
      apply IH in Hx as [[Hv' Hs'] _]. split; [by rewrite Hv' | set_solver].
    - injection Hrun as <-. by exists k1. }
  destruct Hk2 as [Hv Hs]. simpl in *. split; [|set_solver].
  split; simpl; [rewrite Hv; set_solver | set_solver].
Qed.

Lemma checkCircular_closed fuel currentId k k' :
  checkCircular mods fuel currentId targetId k = Return k' →
  marks_closed mods targetId k → marks_closed mods targetId k'.
Proof.
  revert currentId k k'.
  induction fuel as [|fuel IH]; intros currentId k k' Hrun Hcl;
    simpl in Hrun; [discriminate |].
  destruct (decide (currentId ∈ m_visiting k)) as [|Hing]; [discriminate |].
  destruct (decide (currentId ∈ m_visited k)) as [Hed|Hed].
  { by injection Hrun as <-. }
  set (k1 := Marks (m_visited k) ({[currentId]} ∪ m_visiting k)) in Hrun.
  assert (∃ k2, marks_closed mods targetId k2 ∧
            (∀ y, depends_on mods currentId y →
                  y ≠ targetId ∧ y ∈ m_visited k2) ∧
            k' = Marks ({[currentId]} ∪ m_visited k2)
                       (m_visiting k2 ∖ {[currentId]}))
    as (k2 & Hcl2 & Hdeps & ->).
  { destruct (JMap.get currentId mods) as [currentModule|] eqn:Hget.
    - destruct (for_each _ _ k1) as [k2| |] eqn:Hl; try discriminate.
      injection Hrun as <-. exists k2.
      apply (for_each_invariant (check_dep fuel currentId)
               (marks_closed mods targetId) (λ y s, y ≠ targetId ∧ y ∈ m_visited s))
        in Hl as [Hl Hq]; [| | | done].
      + split; [done |]. split; [|done].
        intros y (m & Hm & Hy). rewrite Hget in Hm. injection Hm as <-.
        by apply Hq.
      + intros x s1 s2 _ Hs1 Hx.
        destruct (decide (x = targetId)); [discriminate |].
        split; [by eapply IH |].
        apply checkCircular_step in Hx as [_ Hx]. done.
      + intros x y s1 s2 _ Hy [Hne Hx]. split; [done |].
        destruct (decide (y = targetId)); [discriminate |].
        apply checkCircular_step in Hy as [[_ Hs] _]. by apply Hs.
    - injection Hrun as <-. exists k1. split; [done |]. split; [|done].
      intros y (m & Hm & _). by rewrite Hget in Hm. }
  intros v y [->%elem_of_singleton|Hv]%elem_of_union Hvy; simpl.
  - destruct (Hdeps y Hvy). split; [done | set_solver].
  - destruct (Hcl2 v y Hv Hvy). split; [done | set_solver].
Qed.

Lemma checkCircular_Throw fuel currentId k e :
  checkCircular mods fuel currentId targetId k = Throw e →
  ∃ a b, e = CircularDependency a (Some b).
Proof.
  revert currentId k.
  induction fuel as [|fuel IH]; intros currentId k Hrun;
    simpl in Hrun; [discriminate |].
  destruct (decide (currentId ∈ m_visiting k)) as [|Hing].
  { injection Hrun as <-. eauto. }
  destruct (decide (currentId ∈ m_visited k)) as [Hed|Hed]; [discriminate |].
  set (k1 := Marks (m_visited k) ({[currentId]} ∪ m_visiting k)) in Hrun.
  destruct (JMap.get currentId mods) as [currentModule|]; [|discriminate].
  destruct (for_each_outcome (check_dep fuel currentId) (λ _, True)
              (dependencies currentModule) k1)
    as [(k2 & Hl & _)|(y & s1 & Hy & _ & Hl & Hne)]; [done | done | |].
  - rewrite Hl in Hrun. discriminate.
  - rewrite Hl in Hrun. simpl in Hrun.
    destruct (decide (y = targetId)).
    + injection Hrun as <-. eauto.
    + destruct (checkCircular mods fuel y targetId s1) eqn:Hc;
        try discriminate.
      injection Hrun as <-. by eapply IH.
Qed.

Lemma checkCircular_fuel fuel currentId k :
  m_visiting k ⊆ list_to_set (JMap.keys mods) →
  length mods + 2 ≤ fuel + size (m_visiting k) →
  checkCircular mods fuel currentId targetId k ≠ OutOfFuel.
Proof.
  revert currentId k.
  induction fuel as [|fuel IH]; intros currentId k Hsub Hfuel; simpl.
  { apply subseteq_size in Hsub.
    pose proof (size_list_to_set_le (JMap.keys mods)) as Hk.
    unfold JMap.keys in *. rewrite length_fmap in Hk. simpl in *. lia. }
  destruct (decide (currentId ∈ m_visiting k)) as [Hing|Hing]; [done |].
  destruct (decide (currentId ∈ m_visited k)) as [Hed|Hed]; [done |].
  set (k1 := Marks (m_visited k) ({[currentId]} ∪ m_visiting k)).
  destruct (JMap.get currentId mods) as [currentModule|] eqn:Hget; [|done].
  destruct (for_each_outcome (check_dep fuel currentId)
              (λ s, m_visiting s = m_visiting k1)
              (dependencies currentModule) k1)
    as [(k2 & -> & _)|(y & s1 & Hy & Hs1 & -> & Hne)]; [| done | done |].
  - intros x s1 s2 _ Hs1 Hx.
    destruct (decide (x = targetId)); [discriminate |].
    apply checkCircular_step in Hx as [[-> _] _]. done.
  - destruct (decide (y = targetId)); [done |].
    destruct (checkCircular mods fuel y targetId s1) as [s2| |] eqn:Hv;
      [by destruct (Hne s2) | done |].
    destruct (IH y s1); [| |done]; rewrite Hs1; simpl.
    + apply JMapFacts.get_Some_key in Hget.
      apply union_subseteq. split; [|done].
      apply singleton_subseteq_l, elem_of_list_to_set, Hget.
    + rewrite size_union by set_solver. rewrite size_singleton. lia.
Qed.
End CheckFacts.

Lemma cycle_check_fuel mods moduleId : cycle_check mods moduleId ≠ OutOfFuel.
Proof.
  apply checkCircular_fuel.
  - simpl. set_solver.
  - cbn [m_visiting]. rewrite size_empty. unfold walk_fuel. lia.
Qed.

(** A check that returns has found no path from the module back to
    itself. *)
Lemma cycle_check_Return mods moduleId k :
  cycle_check mods moduleId = Return k →
  ¬ tc (depends_on mods) moduleId moduleId.
Proof.
  intros Hrun Hcyc.
  assert (marks_closed mods moduleId k) as Hcl.
  { eapply checkCircular_closed; [done |]. by intros v y ?%elem_of_empty. }
  apply checkCircular_step in Hrun as [_ Hin].
  assert (∀ x y, tc (depends_on mods) x y → x ∈ m_visited k →
                 y ≠ moduleId ∧ y ∈ m_visited k) as Hpath.
  { intros x y Hxy. induction Hxy as [x y Hxy|x y z Hxy _ IH]; intros Hx.
    - by apply (Hcl x).
    - apply IH. by apply (Hcl x y). }
  by destruct (Hpath _ _ Hcyc Hin).
Qed.

(** A module that depends on itself, directly or through others, fails
    the check with the circular-dependency error. *)
Lemma cycle_check_cyclic mods moduleId :
  tc (depends_on mods) moduleId moduleId →
  ∃ a b, cycle_check mods moduleId = Throw (CircularDependency a (Some b)).
Proof.
  intros Hcyc. destruct (cycle_check mods moduleId) as [k|e|] eqn:Hrun.
  - by destruct (cycle_check_Return _ _ _ Hrun).
  - apply checkCircular_Throw in Hrun as (a & b & ->). eauto.
  - by destruct (cycle_check_fuel mods moduleId).
Qed.

(** ** The lifecycle operations *)

Lemma JSet_has_true x s : JSet.has x s = true ↔ x ∈ s.
Proof. unfold JSet.has. apply bool_decide_eq_true. Qed.

Lemma JSet_has_false x s : JSet.has x s = false ↔ x ∉ s.
Proof. unfold JSet.has. apply bool_decide_eq_false. Qed.

Lemma JSet_elem_of_add x y s : x ∈ JSet.add y s ↔ x = y ∨ x ∈ s.
Proof.
  unfold JSet.add. case_bool_decide as Hy.
  - split; [auto |]. by intros [->|].
  - rewrite elem_of_app, list_elem_of_singleton. tauto.
Qed.

Lemma JSet_elem_of_delete x y s : x ∈ JSet.delete y s ↔ x ≠ y ∧ x ∈ s.
Proof. unfold JSet.delete. by rewrite list_elem_of_filter. Qed.

Lemma elem_of_getDependents d moduleId st :
  d ∈ getDependents moduleId st ↔
  ∃ md, (d, md) ∈ modules st ∧ moduleId ∈ dependencies md.
Proof.
  unfold getDependents. rewrite list_elem_of_fmap. split.
  - intros ([d' md] & -> & [Hdep Hin]%list_elem_of_filter). by exists md.
  - intros (md & Hin & Hdep). exists (d, md). split; [done |].
    by apply list_elem_of_filter.
Qed.

Example audioLoaded_state :
  loadedModules audioLoaded = ["audio"] ∧
  getDependents "audio" audioLoaded = ["voice"].
Proof. vm_compute. done. Qed.

(** C10.  On a registered module that is not loaded, [unloadModule]
    returns and leaves the whole system as it was: no hook is called and
    no event emitted (the trace is the same), and the statuses, the
    loaded set and every descriptor are unchanged. *)
Theorem unloadModule_not_loaded (st : system) (moduleId : string)
    (module : moduleObject) :
  JMap.get moduleId (modules st) = Some module →
  JSet.has moduleId (loadedModules st) = false →
  unloadModule moduleId st = (Return tt, st).
Proof.
  intros Hget Hload. unfold unloadModule, bind, gets. simpl.
  by rewrite Hget, Hload.
Qed.

Lemma unloadModule_not_loaded_witness :
  unloadModule "voice" audioLoaded = (Return tt, audioLoaded).
Proof.
  apply (unloadModule_not_loaded audioLoaded "voice"
           (Module_ "voice" None None ["audio"] []
                    (Some noop) (Some noop) (Some noop) [] registered 0)).
  - vm_compute. reflexivity.
  - vm_compute. reflexivity.
Defined.

Lemma getDependents_get d md moduleId st :
  JMap.get d (modules st) = Some md → moduleId ∈ dependencies md →
  d ∈ getDependents moduleId st.
Proof.
  intros Hget%JMapFacts.get_Some_elem Hdep.
  apply elem_of_getDependents. by exists md.
Qed.

(** C4, as the code has it.  For a loaded module, [unloadModule] throws
    the cannot-unload error, calling no hook and changing nothing, while
    any registered module lists the id among its dependencies, whether
    that module is loaded or not; once no registered module lists it and
    the [destroy] hook does not throw, [unloadModule] returns, and the
    module is [unloaded] and out of the loaded set. *)
Theorem unloadModule_dependents (st : system) (moduleId : string)
    (module : moduleObject) :
  JMap.get moduleId (modules st) = Some module →
  JSet.has moduleId (loadedModules st) = true →
  (∀ d md, JMap.get d (modules st) = Some md →
           moduleId ∈ dependencies md →
     ∃ dependents, d ∈ dependents ∧
       unloadModule moduleId st
       = (Throw (CannotUnload moduleId dependents), st)) ∧
  (getDependents moduleId st = [] →
   (∀ msg, destroy module ≠ Some (Throws msg)) →
     ∃ st', unloadModule moduleId st = (Return tt, st') ∧
       moduleStates st' !! moduleId = Some unloaded ∧
       state <$> JMap.get moduleId (modules st') = Some unloaded ∧
       JSet.has moduleId (loadedModules st') = false ∧
       trace st' =
         trace st
         ++ match destroy module with
            | Some _ => [DestroyCalled moduleId]
            | None => []
            end
         ++ [Emit "moduleUnloaded"
               (ModuleData moduleId (with_state unloaded module))]).
Proof.
  intros Hget Hload. split.
  - intros d md Hd Hdep.
    pose proof (getDependents_get d md moduleId st Hd Hdep) as Hin.
    exists (getDependents moduleId st). split; [done |].
    unfold unloadModule, bind, gets, throw. simpl. rewrite Hget, Hload. simpl.
    destruct (getDependents moduleId st); [by apply elem_of_nil in Hin | done].
  - intros Hnone Hhook.
    unfold unloadModule, bind, gets, throw. simpl.
    rewrite Hget, Hload. simpl. rewrite Hnone. simpl.
    destruct (destroy module) as [[|msg]|] eqn:Hd;
      [| by destruct (Hhook msg) |];
      unfold call_hook, emit, deref, update_state, bind, gets, ret; simpl;
      (eexists; split; [reflexivity |]); simpl;
      rewrite lookup_insert_eq, JMapFacts.get_modify, decide_True, Hget by done;
      rewrite JSet_has_false, JSet_elem_of_delete; simpl;
      (split; [done |]); (split; [done |]); (split; [naive_solver |]).
    + by rewrite <- app_assoc.
    + done.
Qed.

Lemma unloadModule_dependents_witness :
  ∃ st', unloadModule "voice" voiceLoaded = (Return tt, st') ∧
         moduleStates st' !! "voice" = Some unloaded.
Proof.
  destruct (unloadModule_dependents voiceLoaded "voice"
              (Module_ "voice" None None ["audio"] []
                       (Some noop) (Some noop) (Some noop) [] loaded 0))
    as [_ Hok].
  - vm_compute. reflexivity.
  - vm_compute. reflexivity.
  - destruct Hok as (st' & Hrun & Hst & _).
    + vm_compute. reflexivity.
    + intros msg. discriminate.
    + exists st'. split; [exact Hrun | exact Hst].
Defined.

(** C4, as stated, fails: [audio] is loaded and no loaded module depends
    on it, yet [voice], registered and not loaded, blocks its unload. *)
Lemma unloadModule_blocked_by_registered_dependent :
  JSet.has "audio" (loadedModules audioLoaded) = true ∧
  (∀ d md, JSet.has d (loadedModules audioLoaded) = true →
           JMap.get d (modules audioLoaded) = Some md →
           "audio" ∉ dependencies md) ∧
  unloadModule "audio" audioLoaded
  = (Throw (CannotUnload "audio" ["voice"]), audioLoaded).
Proof.
  split; [by vm_compute |]. split; [|by vm_compute].
  intros d md Hd%JSet_has_true Hmd.
  change (loadedModules audioLoaded) with ["audio"] in Hd.
  apply list_elem_of_singleton in Hd as ->.
  vm_compute in Hmd. injection Hmd as <-. simpl. by intros ?%elem_of_nil.
Qed.

(** *** Hot swap *)

Lemma JMap_set_set {V} (m : list (string * V)) k v v' :
  JMap.set k v' (JMap.set k v m) = JMap.set k v' m.
Proof.
  induction m as [|[k0 v0] m IH]; simpl.
  - by rewrite decide_True.
  - destruct (decide (k = k0)) as [->|Hne]; simpl.
    + by rewrite decide_True.
    + by rewrite decide_False, IH.
Qed.

Lemma JMap_keys_set_present {V} (m : list (string * V)) k v :
  is_Some (JMap.get k m) → JMap.keys (JMap.set k v m) = JMap.keys m.
Proof.
  unfold JMap.keys. induction m as [|[k0 v0] m IH]; simpl.
  - by intros [? [=]].
  - destruct (decide (k = k0)) as [->|Hne]; simpl; [done |].
    intros Hsome. f_equal. by apply IH.
Qed.

(** With a hook that writes nothing, this is [hotSwapModule] as above. *)
Lemma hotSwapModule_quiet moduleId newModuleConfig now st :
  Live.hotSwapModule Live.quiet moduleId newModuleConfig now st
  = hotSwapModule moduleId newModuleConfig now st.
Proof.
  unfold Live.hotSwapModule, hotSwapModule, Live.quiet, bind, gets, throw.
  simpl.
  destruct (JMap.get moduleId (modules st)) as [module|]; [|done].
  destruct (JSet.has moduleId (loadedModules st)); [|done]. simpl.
  destruct (default (update module) (cfg_update newModuleConfig))
    as [[|msg]|]; unfold call_hook, emit, update_state, bind, ret, throw;
    simpl; unfold record, set_modules; simpl; by rewrite ?JMap_set_set.
Qed.

(** C5, as the code has it.  [hotSwapModule] keeps the module under its
    key.  [Object.assign] copies the keys of the fragment, so that the
    [id] field of the merged descriptor is the old one unless the
    fragment has an [id] key.  On a loaded module the [update] hook of
    the merged descriptor, when it is set, is called once with the copy
    of the old descriptor and the live merged descriptor, and no other
    hook is called; the hook may write any field of the descriptor, the
    [id] too, and the descriptor as the hook leaves it is what is
    stored, published and returned.  With a hook that writes nothing
    the [id] field is the one that [Object.assign] left.  On a
    registered module that is not loaded the call throws the not-loaded
    error and changes nothing. *)
Theorem hotSwapModule_spec
    (update_writes : moduleObject → moduleObject → moduleObject * moduleObject)
    (st : system) (moduleId : string) (newModuleConfig : moduleConfig)
    (now : Z) (module : moduleObject) :
  JMap.get moduleId (modules st) = Some module →
  let merged := with_lastUpdated now (assign module newModuleConfig) in
  let left := Live.left_by update_writes module merged in
  (JSet.has moduleId (loadedModules st) = false →
     Live.hotSwapModule update_writes moduleId newModuleConfig now st
     = (Throw (ModuleNotLoaded moduleId), st)) ∧
  (JSet.has moduleId (loadedModules st) = true →
     ∃ st', Live.hotSwapModule update_writes moduleId newModuleConfig now st
            = (Live.swap_outcome update_writes module merged, st') ∧
       JMap.keys (modules st') = JMap.keys (modules st) ∧
       JMap.get moduleId (modules st') = Some left.2 ∧
       (∀ other, other ≠ moduleId →
                 JMap.get other (modules st') = JMap.get other (modules st)) ∧
       id merged = default (id module) (cfg_id newModuleConfig) ∧
       (update_writes module merged = (module, merged) →
        id <$> JMap.get moduleId (modules st')
        = Some (default (id module) (cfg_id newModuleConfig))) ∧
       trace st' = trace st
                   ++ Live.swap_trace update_writes moduleId module merged ∧
       moduleStates st' = moduleStates st ∧
       loadedModules st' = loadedModules st).
Proof.
  intros Hget merged left. split; intros Hload.
  - unfold Live.hotSwapModule, bind, gets, throw. simpl.
    by rewrite Hget, Hload.
  - assert (is_Some (JMap.get moduleId (modules st))) as Hsome
      by (by eexists).
    unfold Live.hotSwapModule, bind, gets, throw. simpl.
    rewrite Hget, Hload. simpl. fold merged.
    unfold Live.swap_outcome, Live.swap_trace. subst left.
    unfold Live.left_by.
    change (default (update module) (cfg_update newModuleConfig))
      with (update merged).
    destruct (update merged) as [[|msg]|];
      unfold emit, update_state, bind, ret, throw; simpl;
      (eexists; split; [reflexivity |]); unfold record, set_modules; simpl;
      rewrite ?JMap_set_set, JMapFacts.get_set_eq,
        JMap_keys_set_present by done;
      (split; [done |]); (split; [done |]);
      (split; [intros other Hne; by apply JMapFacts.get_set_ne |]);
      (split; [done |]);
      (split; [try (intros ->); done |]);
      (split; [|done]); by rewrite <- ?app_assoc.
Qed.

Lemma hotSwapModule_spec_witness :
  id <$> JMap.get "audio"
           (modules
              (state_after
                 (Live.hotSwapModule Live.tts_update "audio"
                    (configIdFragment "other") 7)
                 audioLoaded))
  = Some "other".
Proof.
  destruct (proj2 (hotSwapModule_spec Live.tts_update audioLoaded "audio"
                     (configIdFragment "other") 7
                     (with_state loaded
                        (new_module "audio" (depsConfig []) 0))
                     eq_refl) eq_refl)
    as (st' & Hrun & _ & Hstored & _).
  unfold state_after. rewrite Hrun. simpl. rewrite Hstored. reflexivity.
Defined.

(** C5, as stated, fails: [audio] is loaded, and a hot swap with a
    fragment that has an [id] key returns and changes the [id] of the
    module. *)
Lemma hotSwapModule_changes_id :
  JSet.has "audio" (loadedModules audioLoaded) = true ∧
  id <$> JMap.get "audio" (modules audioLoaded) = Some "audio" ∧
  id <$> JMap.get "audio"
           (modules (state_after (hotSwapModule "audio" (idConfig "other") 7)
                                 audioLoaded))
  = Some "other" ∧
  (∃ m, outcome_of (hotSwapModule "audio" (idConfig "other") 7) audioLoaded
        = Return m ∧ id m = "other").
Proof.
  split; [by vm_compute |]. split; [by vm_compute |]. split; [by vm_compute |].
  eexists. split; [by vm_compute | done].
Qed.

(** A fragment whose [update] key holds [null] clears the hook: the hot
    swap calls no hook. *)
Example hotSwapModule_no_update :
  List.filter is_hook_call
    (trace (state_after (hotSwapModule "audio" noUpdateConfig 7) audioLoaded))
  = List.filter is_hook_call (trace audioLoaded).
Proof. by vm_compute. Qed.

(** *** Loading *)

Lemma loadModule_unfold fuel moduleId options st :
  loadModule (S fuel) moduleId options st =
  match JMap.get moduleId (modules st) with
  | None => (Throw (ModuleNotFound moduleId), st)
  | Some module =>
      if JSet.has moduleId (loadedModules st) then (Return module, st)
      else
        match checkDependencies (λ depId, loadModule fuel depId [])
                moduleId st with
        | (Return _, st1) => finish_load moduleId options module st1
        | (Throw e, st1) => (Throw e, st1)
        | (OutOfFuel, st1) => (OutOfFuel, st1)
        end
  end.
Proof.
  unfold loadModule at 1. cbn beta iota fix. fold loadModule.
  unfold bind at 1. unfold gets at 1.
  destruct (JMap.get moduleId (modules st)) as [module|]; [|done].
  unfold bind at 1. unfold gets at 1.
  destruct (JSet.has moduleId (loadedModules st)); [done |].
  unfold bind at 1.
  destruct (checkDependencies _ moduleId st) as [[| |] st1]; done.
Qed.

Lemma checkDependencies_unfold load moduleId st :
  checkDependencies load moduleId st =
  match JMap.get moduleId (modules st) with
  | None => (Return tt, st)
  | Some module =>
      match cycle_check (modules st) moduleId with
      | Return _ =>
          match getDependencyOrder (modules st) (dependencies module) with
          | Return dependencyOrder =>
              for_of dependencyOrder (load_dependency load) st
          | Throw e => (Throw e, st)
          | OutOfFuel => (OutOfFuel, st)
          end
      | Throw e => (Throw e, st)
      | OutOfFuel => (OutOfFuel, st)
      end
  end.
Proof.
  unfold checkDependencies, cycle_check, bind, gets, lift.
  destruct (JMap.get moduleId (modules st)) as [module|]; [|done].
  destruct (checkCircular _ _ _ _ _); [|done|done].
  destruct (getDependencyOrder _ _); done.
Qed.

Lemma for_of_cons {A} (f : A → M unit) x l st :
  for_of (x :: l) f st =
  match f x st with
  | (Return _, st1) => for_of l f st1
  | (Throw e, st1) => (Throw e, st1)
  | (OutOfFuel, st1) => (OutOfFuel, st1)
  end.
Proof. done. Qed.

(** An invariant of the body of a loop holds when the loop ends, however
    it ends. *)
Lemma for_of_invariant {A} (f : A → M unit) (P : system → Prop) l st :
  (∀ x st1, x ∈ l → P st1 → P (f x st1).2) →
  P st → P (for_of l f st).2.
Proof.
  revert st. induction l as [|x l IH]; intros st Hstep HP; [done |].
  rewrite for_of_cons.
  pose proof (Hstep x st (list_elem_of_here x l) HP) as HP1.
  destruct (f x st) as [[[]| |] st1]; simpl in *; [|done|done].
  apply IH; [|done]. intros y st2 Hy. apply Hstep. by right.
Qed.

(** A loop that returns has also established [Q x] for every [x]. *)
Lemma for_of_Return {A} (f : A → M unit) (P : system → Prop)
    (Q : A → system → Prop) l st st' :
  (∀ x st1, x ∈ l → P st1 → P (f x st1).2) →
  (∀ x st1 st2, x ∈ l → P st1 → f x st1 = (Return tt, st2) → Q x st2) →
  (∀ x y st1, y ∈ l → P st1 → Q x st1 → Q x (f y st1).2) →
  for_of l f st = (Return tt, st') →
  P st → ∀ x, x ∈ l → Q x st'.
Proof.
  intros Hinv Hstep Hkeep.
  assert (∀ l' st (X : A → Prop),
            (∀ x, x ∈ l' → x ∈ l) →
            for_of l' f st = (Return tt, st') → P st →
            (∀ x, X x → Q x st) →
            ∀ x, X x ∨ x ∈ l' → Q x st') as Hgen.
  { clear st. induction l' as [|a l' IH]; intros st X Hsub Hrun HP HX.
    - injection Hrun as <-. intros x [Hx|Hx]; [auto | by apply elem_of_nil in Hx].
    - rewrite for_of_cons in Hrun.
      assert (a ∈ l) as Ha by (apply Hsub; left).
      pose proof (Hinv a st Ha HP) as HP1.
      pose proof (Hstep a st) as Hq.
      pose proof (λ x, Hkeep x a st Ha HP) as Hk.
      destruct (f a st) as [[[]| |] st1]; simpl in *; try discriminate.
      intros x Hx. apply (IH st1 (λ x, X x ∨ x = a)); [| done | done | |].
      + intros y Hy. apply Hsub. by right.
      + intros y [Hy| ->]; [apply Hk, HX, Hy | by apply Hq].
      + destruct Hx as [Hx|[->|Hx]%elem_of_cons]; auto. }
  intros Hrun HP x Hx. apply (Hgen l st (λ _, False)); auto. by intros ? [].
Qed.

Lemma load_step_refl st : load_step st st.
Proof. repeat split; auto. exists []. by rewrite app_nil_r. Qed.

Lemma load_step_is_Some st st' x :
  load_step st st' →
  is_Some (JMap.get x (modules st')) ↔ is_Some (JMap.get x (modules st)).
Proof.
  intros (Hm & _). specialize (Hm x).
  rewrite <- (fmap_is_Some (with_state registered) (JMap.get x (modules st'))).
  rewrite <- (fmap_is_Some (with_state registered) (JMap.get x (modules st))).
  by rewrite Hm.
Qed.

Lemma load_step_trans st1 st2 st3 :
  load_step st1 st2 → load_step st2 st3 → load_step st1 st3.
Proof.
  intros H12 H23.
  pose proof (λ x, load_step_is_Some _ _ x H12) as Hsome.
  destruct H12 as (Hm1 & Hl1 & Hn1 & [t1 Ht1]).
  destruct H23 as (Hm2 & Hl2 & Hn2 & [t2 Ht2]).
  repeat split.
  - intros x. by rewrite Hm2.
  - auto.
  - intros x Hx. destruct (Hn2 x Hx) as [Hx2|Hx2]; [auto |].
    right. by apply Hsome.
  - exists (t1 ++ t2). by rewrite Ht2, Ht1, app_assoc.
Qed.

Lemma load_step_depends_on st st' x y :
  load_step st st' →
  depends_on (modules st') x y ↔ depends_on (modules st) x y.
Proof.
  intros (Hm & _). specialize (Hm x). unfold depends_on.
  destruct (JMap.get x (modules st')) as [m'|],
           (JMap.get x (modules st)) as [m|]; simpl in Hm; try discriminate.
  - assert (dependencies m' = dependencies m) as Hd.
    { apply (f_equal (fmap dependencies)) in Hm. simpl in Hm. congruence. }
    split; intros (m0 & [= <-] & Hy); eexists; (split; [done |]); congruence.
  - split; intros (m0 & [=] & _).
Qed.

Lemma finish_load_step moduleId options module st :
  is_Some (JMap.get moduleId (modules st)) →
  load_step st (finish_load moduleId options module st).2.
Proof.
  intros Hsome.
  assert (∀ st1 e, load_step st st1 →
            load_step st
              (record e
                 (set_modules (JMap.modify (with_state loaded) moduleId)
                    (set_moduleStates <[moduleId := loaded]>
                       (set_loadedModules (JSet.add moduleId) st1)))))
    as Hfin.
  { intros st1 e H1. eapply load_step_trans; [exact H1 |].
    repeat split; simpl.
    - intros x. rewrite JMapFacts.get_modify. case_decide as Hx; [|done].
      subst x. by destruct (JMap.get moduleId (modules st1)).
    - intros x Hx. apply JSet_elem_of_add. auto.
    - intros x [->|Hx]%JSet_elem_of_add; [|auto].
      right. by apply (load_step_is_Some _ _ _ H1).
    - by eexists. }
  unfold finish_load, deref, bind, gets. simpl.
  destruct (init (default module (JMap.get moduleId (modules st))))
    as [[|msg]|]; unfold call_hook, emit, update_state, bind, ret, throw; simpl.
  - apply Hfin. repeat split; simpl; auto. by eexists.
  - repeat split; simpl; auto. by eexists.
  - apply Hfin, load_step_refl.
Qed.

Section LoadStep.
Variable fuel : nat.
Hypothesis IH : ∀ moduleId options st,
  load_step st (loadModule fuel moduleId options st).2.

Lemma checkDependencies_step moduleId st :
  load_step st
    (checkDependencies (λ depId, loadModule fuel depId []) moduleId st).2.
Proof.
  rewrite checkDependencies_unfold.
  destruct (JMap.get moduleId (modules st)) as [module|];
    [|apply load_step_refl].
  destruct (cycle_check _ _); [|apply load_step_refl..].
  destruct (getDependencyOrder _ _) as [dependencyOrder| |];
    [|apply load_step_refl..].
  apply for_of_invariant; [|apply load_step_refl].
  intros x st1 _ H1. eapply load_step_trans; [exact H1 |].
  unfold load_dependency, bind, gets. simpl.
  destruct (JSet.has x (loadedModules st1)); [apply load_step_refl |].
  specialize (IH x [] st1).
  by destruct (loadModule fuel x [] st1) as [[| |] st2].
Qed.
End LoadStep.

Lemma loadModule_step fuel moduleId options st :
  load_step st (loadModule fuel moduleId options st).2.
Proof.
  revert moduleId options st.
  induction fuel as [|fuel IH]; intros moduleId options st;
    [apply load_step_refl |].
  rewrite loadModule_unfold.
  destruct (JMap.get moduleId (modules st)) as [module|] eqn:Hget;
    [|apply load_step_refl].
  destruct (JSet.has moduleId (loadedModules st)); [apply load_step_refl |].
  pose proof (checkDependencies_step fuel IH moduleId st) as Hdeps.
  destruct (checkDependencies _ _ _) as [[[]| |] st1]; simpl in Hdeps;
    [|done|done].
  eapply load_step_trans; [exact Hdeps |].
  apply finish_load_step, (load_step_is_Some _ _ _ Hdeps). by rewrite Hget.
Qed.

Lemma loadModule_step_deps fuel moduleId st :
  load_step st
    (checkDependencies (λ depId, loadModule fuel depId []) moduleId st).2.
Proof. apply checkDependencies_step, loadModule_step. Qed.

Lemma init_calls_app moduleId t1 t2 :
  init_calls moduleId (t1 ++ t2)
  = init_calls moduleId t1 + init_calls moduleId t2.
Proof. unfold init_calls. by rewrite List.filter_app, length_app. Qed.

Lemma load_step_rtc st st' x y :
  load_step st st' →
  rtc (depends_on (modules st')) x y ↔ rtc (depends_on (modules st)) x y.
Proof.
  intros Hstep. split; intros Hxy; induction Hxy as [|a b c Hab _ IH];
    try apply rtc_refl; (eapply rtc_l; [|exact IH]);
    by apply (load_step_depends_on _ _ _ _ Hstep).
Qed.

Lemma tc_rtc_trans {A} (R : relation A) x y z : tc R x y → rtc R y z → tc R x z.
Proof. intros Hxy Hyz. eapply tc_rtc_r; eauto. Qed.

(** The dependencies that [checkDependencies] loads are reached from the
    module. *)
Lemma getDependencyOrder_reached mods moduleId module dependencyOrder d :
  JMap.get moduleId mods = Some module →
  getDependencyOrder mods (dependencies module) = Return dependencyOrder →
  d ∈ dependencyOrder → tc (depends_on mods) moduleId d.
Proof.
  intros Hget Hrun Hd.
  apply getDependencyOrder_Return in Hrun as (_ & _ & _ & Hreach).
  destruct (Hreach d Hd) as (d0 & Hd0 & Hpath).
  eapply tc_rtc_r; [|exact Hpath]. apply tc_once. by exists module.
Qed.

(** [finish_load] calls one hook at most, the [init] of the module. *)
Lemma finish_load_inits moduleId options module st y :
  y ≠ moduleId →
  init_calls y (trace (finish_load moduleId options module st).2)
  = init_calls y (trace st).
Proof.
  intros Hy. unfold finish_load, deref, bind, gets. simpl.
  destruct (init (default module (JMap.get moduleId (modules st))))
    as [[|msg]|]; unfold call_hook, emit, update_state, bind, ret, throw; simpl;
    rewrite ?init_calls_app; unfold init_calls; simpl;
    rewrite ?bool_decide_eq_false_2 by done; simpl; lia.
Qed.

Section LoadInits.
Variable fuel : nat.
Hypothesis IH : ∀ x options st y,
  ¬ rtc (depends_on (modules st)) x y →
  init_calls y (trace (loadModule fuel x options st).2)
  = init_calls y (trace st).

Lemma checkDependencies_inits x st y :
  (¬ tc (depends_on (modules st)) x x →
   ∀ d, tc (depends_on (modules st)) x d →
        ¬ rtc (depends_on (modules st)) d y) →
  init_calls y
    (trace (checkDependencies (λ d, loadModule fuel d []) x st).2)
  = init_calls y (trace st).
Proof.
  intros Hfar. rewrite checkDependencies_unfold.
  destruct (JMap.get x (modules st)) as [module|] eqn:Hget; [|done].
  destruct (cycle_check _ _) as [k| |] eqn:Hcheck; [|done|done].
  apply cycle_check_Return in Hcheck. specialize (Hfar Hcheck).
  destruct (getDependencyOrder _ _) as [dependencyOrder| |] eqn:Hord;
    [|done|done].
  apply (for_of_invariant _
           (λ st1, load_step st st1 ∧
                   init_calls y (trace st1) = init_calls y (trace st)));
    [|split; [apply load_step_refl | done]].
  intros d st1 Hd [Hstep Hcount].
  unfold load_dependency, bind, gets. simpl.
  destruct (JSet.has d (loadedModules st1)); [done |].
  pose proof (loadModule_step fuel d [] st1) as Hstep1.
  pose proof (IH d [] st1 y) as Hcount1.
  destruct (loadModule fuel d [] st1) as [[| |] st2]; simpl in *;
    (split; [by eapply load_step_trans |]);
    rewrite Hcount1; try done;
    rewrite (load_step_rtc _ _ _ _ Hstep);
    by eapply Hfar, getDependencyOrder_reached.
Qed.
End LoadInits.

(** A load calls the [init] hooks of modules that the module reaches
    through dependencies, and no other. *)
Lemma loadModule_inits fuel x options st y :
  ¬ rtc (depends_on (modules st)) x y →
  init_calls y (trace (loadModule fuel x options st).2)
  = init_calls y (trace st).
Proof.
  revert x options st y.
  induction fuel as [|fuel IH]; intros x options st y Hfar; [done |].
  rewrite loadModule_unfold.
  destruct (JMap.get x (modules st)) as [module|] eqn:Hget; [|done].
  destruct (JSet.has x (loadedModules st)); [done |].
  pose proof (checkDependencies_inits fuel IH x st y) as Hdeps.
  destruct (checkDependencies _ _ _) as [[[]| |] st1]; simpl in Hdeps.
  - rewrite finish_load_inits.
    + apply Hdeps. intros _ d Hd Hdy. apply Hfar.
      apply tc_rtc. by eapply tc_rtc_trans.
    + intros ->. by apply Hfar.
  - apply Hdeps. intros _ d Hd Hdy. apply Hfar.
    apply tc_rtc. by eapply tc_rtc_trans.
  - apply Hdeps. intros _ d Hd Hdy. apply Hfar.
    apply tc_rtc. by eapply tc_rtc_trans.
Qed.

Lemma finish_load_Return moduleId options module st m st' :
  finish_load moduleId options module st = (Return m, st') →
  is_Some (JMap.get moduleId (modules st)) →
  moduleId ∈ loadedModules st' ∧
  JMap.get moduleId (modules st') = Some m ∧
  state m = loaded ∧
  moduleStates st' !! moduleId = Some loaded ∧
  trace st' =
    trace st
    ++ match init m with
       | Some _ => [InitCalled moduleId options]
       | None => []
       end
    ++ [Emit "moduleLoaded" (ModuleData moduleId m)].
Proof.
  intros Hrun [m0 Hm0]. revert Hrun.
  unfold finish_load, deref, bind, gets. simpl. rewrite Hm0. simpl.
  destruct (init m0) as [[|msg]|] eqn:Hinit;
    unfold call_hook, emit, update_state, bind, ret, throw; simpl;
    rewrite ?JMapFacts.get_modify, ?decide_True, ?Hm0 by done; simpl;
    intros [= <- <-]; simpl;
    rewrite ?JMapFacts.get_modify, ?decide_True, ?Hm0, ?Hinit by done; simpl;
    rewrite lookup_insert_eq, JSet_elem_of_add, <- ?app_assoc; auto.
Qed.

(** C3, as the code has it.  When a first [loadModule(moduleId)]
    returns, a second one returns the same module at once and leaves the
    whole system as it was: no hook is called, no event emitted and no
    status changed.  If the module was not loaded before the first call
    and has an [init] hook, the two calls together call that hook
    exactly once. *)
Theorem loadModule_idempotent (fuel : nat) (moduleId : string)
    (options : list (string * string)) (st st1 : system)
    (module : moduleObject) :
  loadModule (S fuel) moduleId options st = (Return module, st1) →
  (∀ fuel' options',
     loadModule (S fuel') moduleId options' st1 = (Return module, st1)) ∧
  (JSet.has moduleId (loadedModules st) = false →
   is_Some (init module) →
   ∀ fuel' options',
     init_calls moduleId
       (trace (state_after (loadModule (S fuel') moduleId options') st1))
     = S (init_calls moduleId (trace st))).
Proof.
  intros Hrun.
  assert (∀ fuel' options',
            loadModule (S fuel') moduleId options' st1 = (Return module, st1))
    as Hsecond.
  { intros fuel' options'. rewrite loadModule_unfold in Hrun |- *.
    destruct (JMap.get moduleId (modules st)) as [module0|] eqn:Hget;
      [|discriminate].
    destruct (JSet.has moduleId (loadedModules st)) eqn:Hload.
    - injection Hrun as <- <-. by rewrite Hget, Hload.
    - pose proof (loadModule_step (S fuel) moduleId options st) as Hstep.
      rewrite loadModule_unfold, Hget, Hload in Hstep.
      pose proof (loadModule_step_deps fuel moduleId st) as Hdeps.
      destruct (checkDependencies _ _ _) as [[[]| |] st0]; try discriminate.
      apply finish_load_Return in Hrun as (Hin & Hm & _).
      + apply JSet_has_true in Hin. by rewrite Hm, Hin.
      + apply (load_step_is_Some _ _ _ Hdeps). by rewrite Hget. }
  split; [done |].
  intros Hload Hinit fuel' options'. unfold state_after.
  rewrite Hsecond. simpl.
  rewrite loadModule_unfold in Hrun.
  destruct (JMap.get moduleId (modules st)) as [module0|] eqn:Hget;
    [|discriminate].
  rewrite Hload in Hrun.
  pose proof (loadModule_step_deps fuel moduleId st) as Hdeps.
  pose proof (checkDependencies_inits fuel (loadModule_inits fuel)
                moduleId st moduleId) as Hcount.
  destruct (checkDependencies _ _ _) as [[[]| |] st0]; try discriminate.
  simpl in Hdeps, Hcount.
  apply finish_load_Return in Hrun as (_ & _ & _ & _ & Ht).
  - rewrite Ht. destruct Hinit as [h ->].
    rewrite !init_calls_app, Hcount.
    + unfold init_calls. simpl. rewrite bool_decide_eq_true_2 by done.
      simpl. lia.
    + intros Hacyc d Hd Hback. apply Hacyc. by eapply tc_rtc_trans.
  - apply (load_step_is_Some _ _ _ Hdeps). by rewrite Hget.
Qed.

Example scenarioA_load :
  outcome_of (loadModule load_fuel "tts" []) scenarioA
  = Return (Module_ "tts" None None ["audio"; "voice"] []
                    (Some noop) (Some noop) (Some noop) [] loaded 0) ∧
  loadedModules ttsLoaded = ["audio"; "voice"; "tts"] ∧
  List.filter is_hook_call (trace ttsLoaded)
  = [InitCalled "audio" []; InitCalled "voice" []; InitCalled "tts" []].
Proof. vm_compute. done. Qed.

Lemma loadModule_idempotent_witness :
  init_calls "tts"
    (trace (state_after (loadModule load_fuel "tts" []) ttsLoaded))
  = S (init_calls "tts" (trace scenarioA)).
Proof.
  refine (proj2 (loadModule_idempotent 1 "tts" [] scenarioA ttsLoaded
                   (Module_ "tts" None None ["audio"; "voice"] []
                            (Some noop) (Some noop) (Some noop) [] loaded 0)
                   _) _ _ 1 []).
  - vm_compute. reflexivity.
  - vm_compute. reflexivity.
  - eexists. reflexivity.
Defined.

(** C3, as stated, fails: the [init] hook of [jaw] throws, the first load
    fails, and the second load calls the hook again. *)
Lemma loadModule_retries_failed_init :
  is_Some (JMap.get "jaw" (modules failingInit)) ∧
  outcome_of (loadModule load_fuel "jaw" []) failingInit
  = Throw (HookError "boom") ∧
  outcome_of (loadModule load_fuel "jaw" [])
    (state_after (loadModule load_fuel "jaw" []) failingInit)
  = Throw (HookError "boom") ∧
  init_calls "jaw"
    (trace (state_after (loadModule load_fuel "jaw" [])
              (state_after (loadModule load_fuel "jaw" []) failingInit)))
  = 2.
Proof. vm_compute. repeat split. by eexists. Qed.

(** *** Registration *)

Lemma registerModule_eq moduleId moduleConfig now st :
  registerModule moduleId moduleConfig now st
  = (Return (new_module moduleId moduleConfig now),
     set_moduleStates <[moduleId := registered]>
       (set_modules (JMap.set moduleId (new_module moduleId moduleConfig now))
          st)).
Proof. reflexivity. Qed.

(** A module that is not loaded and depends on itself, directly or
    through others, is not loaded: the call throws the
    circular-dependency error and changes nothing. *)
Lemma loadModule_cyclic fuel moduleId options st :
  tc (depends_on (modules st)) moduleId moduleId →
  JSet.has moduleId (loadedModules st) = false →
  ∃ a b, loadModule (S fuel) moduleId options st
         = (Throw (CircularDependency a (Some b)), st).
Proof.
  intros Hcyc Hload.
  assert (is_Some (JMap.get moduleId (modules st))) as [module Hget].
  { inversion Hcyc as [? ? (m & Hm & _)|? ? ? (m & Hm & _) _]; eauto. }
  destruct (cycle_check_cyclic _ _ Hcyc) as (a & b & Hcheck).
  exists a, b.
  rewrite loadModule_unfold, Hget, Hload, checkDependencies_unfold, Hget.
  by rewrite Hcheck.
Qed.

(** C1, as the code has it.  [registerModule] checks nothing: on every
    system and every configuration it returns the module object and
    stores it under the id with status [registered], leaving the other
    modules, the loaded set and the trace as they were.  A cycle is
    rejected by [loadModule]: when the registered module is not loaded
    and its dependencies lead back to it, the load throws the
    circular-dependency error and changes nothing. *)
Theorem registerModule_accepts_then_load_rejects (st : system)
    (moduleId : string) (moduleConfig : moduleConfig) (now : Z) :
  ∃ module st',
    registerModule moduleId moduleConfig now st = (Return module, st') ∧
    JMap.get moduleId (modules st') = Some module ∧
    dependencies module = default [] (cfg_dependencies moduleConfig) ∧
    state module = registered ∧
    moduleStates st' !! moduleId = Some registered ∧
    (∀ other, other ≠ moduleId →
              JMap.get other (modules st') = JMap.get other (modules st)) ∧
    loadedModules st' = loadedModules st ∧
    trace st' = trace st ∧
    (tc (depends_on (modules st')) moduleId moduleId →
     JSet.has moduleId (loadedModules st') = false →
     ∀ fuel options, ∃ a b,
       loadModule (S fuel) moduleId options st'
       = (Throw (CircularDependency a (Some b)), st')).
Proof.
  eexists _, _. split; [apply registerModule_eq |]. simpl.
  rewrite JMapFacts.get_set_eq, lookup_insert_eq.
  repeat split.
  - intros other Hne. by apply JMapFacts.get_set_ne.
  - intros Hcyc Hload fuel options. by apply loadModule_cyclic.
Qed.

Lemma registerModule_accepts_then_load_rejects_witness :
  ∃ a b, loadModule load_fuel "b" []
           (state_after (registerModule "b" (depsConfig ["a"]) 0) halfCycle)
         = (Throw (CircularDependency a (Some b)),
            state_after (registerModule "b" (depsConfig ["a"]) 0) halfCycle).
Proof.
  destruct (registerModule_accepts_then_load_rejects
              halfCycle "b" (depsConfig ["a"]) 0)
    as (module & st' & Hreg & _ & _ & _ & _ & _ & _ & _ & Hload).
  rewrite registerModule_eq in Hreg. injection Hreg as _ <-.
  apply Hload.
  - apply (tc_l _ "b" "a" "b"); [|apply tc_once].
    + eexists. split; [by vm_compute | set_solver].
    + eexists. split; [by vm_compute | set_solver].
  - by vm_compute.
Defined.

(** C1, as stated, fails: [a] depends on [b]; registering [b] over [a]
    closes the cycle, and the call returns and adds [b] to the
    registry. *)
Lemma registerModule_closes_cycle :
  JMap.keys (modules halfCycle) = ["a"] ∧
  outcome_of (registerModule "b" (depsConfig ["a"]) 0) halfCycle
  = Return (new_module "b" (depsConfig ["a"]) 0) ∧
  JMap.keys
    (modules (state_after (registerModule "b" (depsConfig ["a"]) 0) halfCycle))
  = ["a"; "b"] ∧
  tc (depends_on
        (modules (state_after (registerModule "b" (depsConfig ["a"]) 0)
                              halfCycle)))
     "b" "b".
Proof.
  split; [by vm_compute |]. split; [by vm_compute |]. split; [by vm_compute |].
  apply (tc_l _ "b" "a" "b"); [|apply tc_once].
  - eexists. split; [by vm_compute | set_solver].
  - eexists. split; [by vm_compute | set_solver].
Qed.

(** *** Unloading, and the registry invariant *)

Lemma unloadModule_eq moduleId st :
  unloadModule moduleId st =
  match JMap.get moduleId (modules st) with
  | None => (Throw (ModuleNotFound moduleId), st)
  | Some module =>
      if JSet.has moduleId (loadedModules st) then
        match getDependents moduleId st with
        | [] =>
            match destroy module with
            | Some Returns =>
                (Return tt,
                 unloaded_from moduleId module
                   (record (DestroyCalled moduleId) st))
            | Some (Throws msg) =>
                (Throw (HookError msg), record (DestroyCalled moduleId) st)
            | None => (Return tt, unloaded_from moduleId module st)
            end
        | _ :: _ =>
            (Throw (CannotUnload moduleId (getDependents moduleId st)), st)
        end
      else (Return tt, st)
  end.
Proof.
  unfold unloadModule, bind, gets, throw. simpl.
  destruct (JMap.get moduleId (modules st)) as [module|]; [|done].
  destruct (JSet.has moduleId (loadedModules st)); [|done]. simpl.
  destruct (getDependents moduleId st); [|done]. simpl.
  by destruct (destroy module) as [[|msg]|].
Qed.







Lemma is_Some_get_modify {V} (f : V → V) k x (m : list (string * V)) :
  is_Some (JMap.get x (JMap.modify f k m)) ↔ is_Some (JMap.get x m).
Proof.
  rewrite JMapFacts.get_modify. case_decide as Hx; [|done].
  subst x. apply fmap_is_Some.
Qed.

Lemma is_Some_get_set {V} k v x (m : list (string * V)) :
  is_Some (JMap.get x m) → is_Some (JMap.get x (JMap.set k v m)).
Proof.
  intros Hx. destruct (decide (k = x)) as [->|Hne].
  - rewrite JMapFacts.get_set_eq. eauto.
  - by rewrite JMapFacts.get_set_ne.
Qed.

Lemma registerModule_loaded_registered moduleId moduleConfig now :
  preserves loaded_registered (registerModule moduleId moduleConfig now).
Proof.
  intros st Hinv x Hx. rewrite registerModule_eq. simpl in *.
  by apply is_Some_get_set, Hinv.
Qed.

Lemma loadModule_loaded_registered fuel moduleId options :
  preserves loaded_registered (loadModule fuel moduleId options).
Proof.
  intros st Hinv x Hx.
  pose proof (loadModule_step fuel moduleId options st) as Hstep.
  apply (load_step_is_Some _ _ _ Hstep).
  destruct Hstep as (_ & _ & Hnew & _). destruct (Hnew x Hx); auto.
Qed.

Lemma unloaded_from_loaded_registered moduleId module st :
  loaded_registered st → loaded_registered (unloaded_from moduleId module st).
Proof.
  intros Hinv x Hx. simpl in *. apply JSet_elem_of_delete in Hx as [_ Hx].
  by apply is_Some_get_modify, Hinv.
Qed.

Lemma unloadModule_loaded_registered moduleId :
  preserves loaded_registered (unloadModule moduleId).
Proof.
  intros st Hinv. rewrite unloadModule_eq.
  destruct (JMap.get moduleId (modules st)) as [module|]; [|done].
  destruct (JSet.has moduleId (loadedModules st)); [|done].
  destruct (getDependents moduleId st); [|done].
  destruct (destroy module) as [[|msg]|]; simpl;
    try apply unloaded_from_loaded_registered; done.
Qed.

(** When [unloadModule] returns, the module is not loaded. *)
Lemma unloadModule_Return moduleId st st' :
  unloadModule moduleId st = (Return tt, st') → moduleId ∉ loadedModules st'.
Proof.
  rewrite unloadModule_eq.
  destruct (JMap.get moduleId (modules st)) as [module|]; [|discriminate].
  destruct (JSet.has moduleId (loadedModules st)) eqn:Hload.
  - destruct (getDependents moduleId st); [|discriminate].
    destruct (destroy module) as [[|msg]|]; intros [= <-]; simpl;
      rewrite JSet_elem_of_delete; naive_solver.
  - intros [= <-]. by apply JSet_has_false.
Qed.

Lemma handleModuleUninstall_loaded_registered data :
  preserves loaded_registered (handleModuleUninstall data).
Proof.
  intros st Hinv. unfold handleModuleUninstall, bind.
  pose proof (unloadModule_loaded_registered (d_moduleId data) st Hinv) as H1.
  pose proof (unloadModule_Return (d_moduleId data) st) as Hout.
  destruct (unloadModule (d_moduleId data) st) as [[[]| |] st1];
    simpl in *; [|done|done].
  intros x Hx. simpl in *.
  rewrite JMapFacts.get_delete_ne; [by apply H1 |].
  intros <-. by apply (Hout st1).
Qed.






(** ** Calls that overlap *)


(** The same two calls, the first awaited before the second is made,
    leave what the methods run from call to end leave. *)
Example awaited_load_and_uninstall :
  let load := Async.loadModule load_fuel "x" [] Async.oneModule in
  let loaded := Async.alone 2 load.1 load.2 in
  let uninstall :=
    Async.handleModuleUninstall (MessageData "x" None None) loaded.2 in
  let final := Async.alone 2 uninstall.1 uninstall.2 in
  loaded.1 = Return 0 ∧ final.1 = Return tt ∧
  Async.snapshot final.2
  = state_after
      (loadModule load_fuel "x" [] ;;
       handleModuleUninstall (MessageData "x" None None))
      (Async.snapshot Async.oneModule) ∧
  loaded_registered (Async.snapshot final.2).
Proof.
  split; [by vm_compute |]. split; [by vm_compute |].
  split; [by vm_compute |].
  intros x Hx. by vm_compute in Hx; apply elem_of_nil in Hx.
Qed.

(** *** Restart *)

Lemma destroy_calls_app t1 t2 :
  destroy_calls (t1 ++ t2) = destroy_calls t1 ++ destroy_calls t2.
Proof. apply omap_app. Qed.

(** Writing the [state] field of a module changes no list of
    dependents. *)
Lemma dependents_with_state s moduleId x (m : list (string * moduleObject)) :
  (filter (λ kv : string * moduleObject, x ∈ dependencies kv.2)
          (JMap.modify (with_state s) moduleId m)).*1
  = (filter (λ kv : string * moduleObject, x ∈ dependencies kv.2) m).*1.
Proof.
  unfold JMap.modify.
  destruct (JMap.get moduleId m) as [v|] eqn:Hget; [|done].
  revert Hget. induction m as [|[k' v'] m IH]; simpl; [done |].
  destruct (decide (moduleId = k')) as [->|Hne].
  - intros [= ->]. rewrite !filter_cons. simpl.
    by destruct (decide (x ∈ dependencies v)).
  - intros Hget. rewrite !filter_cons. simpl.
    specialize (IH Hget).
    destruct (decide (x ∈ dependencies v')); [|exact IH].
    rewrite !fmap_cons. by f_equal.
Qed.

Lemma same_registry_unloaded_from moduleId module st0 st e :
  same_registry st0 st →
  same_registry st0 (unloaded_from moduleId module (record e st)) ∧
  same_registry st0 (unloaded_from moduleId module st).
Proof.
  intros [Hdep Hhook].
  assert (∀ x, destroy <$> JMap.get x
                 (JMap.modify (with_state unloaded) moduleId (modules st))
               = destroy <$> JMap.get x (modules st0)) as Hh.
  { intros x. rewrite JMapFacts.get_modify, <- Hhook.
    case_decide as Hx; [|done]. subst x.
    by destruct (JMap.get moduleId (modules st)). }
  unfold getDependents in Hdep.
  split; split; try done; intros x; unfold getDependents; simpl;
    rewrite dependents_with_state; apply Hdep.
Qed.

Lemma restart_loop (st0 : system) ids st :
  same_registry st0 st →
  ∃ t st',
    for_of ids (λ moduleId, try_catch_log (unloadModule moduleId)) st
    = (Return tt, st') ∧
    trace st' = trace st ++ t ∧
    same_registry st0 st' ∧
    destroy_calls t `sublist_of` ids ∧
    (∀ x, x ∈ destroy_calls t →
          x ∈ ids ∧ x ∈ loadedModules st ∧
          (∃ m, JMap.get x (modules st0) = Some m ∧ is_Some (destroy m)) ∧
          getDependents x st0 = []) ∧
    (∀ x, x ∈ ids → x ∈ loadedModules st →
          (∃ m, JMap.get x (modules st0) = Some m ∧ is_Some (destroy m)) →
          getDependents x st0 = [] →
          x ∈ destroy_calls t).
Proof.
  revert st. induction ids as [|a ids IH]; intros st Hsame.
  { exists [], st. rewrite app_nil_r.
    split; [done |]. split; [done |]. split; [done |].
    split; [apply sublist_nil_l |].
    split; [by intros x ?%elem_of_nil | by intros x ?%elem_of_nil]. }
  rewrite for_of_cons. unfold try_catch_log at 1. rewrite unloadModule_eq.
  pose proof Hsame as [Hdep Hhook].
  pose proof (Hhook a) as Hha. pose proof (Hdep a) as Hda.
  (* the turns that change nothing *)
  assert (∀ st1 t1,
            trace st1 = trace st ++ t1 → same_registry st0 st1 →
            (∀ x, x ∈ loadedModules st1 → x ∈ loadedModules st) →
            (∀ x, x ≠ a → x ∈ loadedModules st → x ∈ loadedModules st1) →
            destroy_calls t1 `sublist_of` [a] →
            (∀ x, x ∈ destroy_calls t1 →
                  x = a ∧ a ∈ loadedModules st ∧
                  (∃ m, JMap.get a (modules st0) = Some m ∧
                        is_Some (destroy m)) ∧
                  getDependents a st0 = []) →
            (a ∈ loadedModules st →
             (∃ m, JMap.get a (modules st0) = Some m ∧ is_Some (destroy m)) →
             getDependents a st0 = [] → a ∈ destroy_calls t1) →
            ∃ t st',
              for_of ids (λ moduleId, try_catch_log (unloadModule moduleId))
                st1 = (Return tt, st') ∧
              trace st' = trace st ++ t ∧
              same_registry st0 st' ∧
              destroy_calls t `sublist_of` a :: ids ∧
              (∀ x, x ∈ destroy_calls t →
                    x ∈ a :: ids ∧ x ∈ loadedModules st ∧
                    (∃ m, JMap.get x (modules st0) = Some m ∧
                          is_Some (destroy m)) ∧
                    getDependents x st0 = []) ∧
              (∀ x, x ∈ a :: ids → x ∈ loadedModules st →
                    (∃ m, JMap.get x (modules st0) = Some m ∧
                          is_Some (destroy m)) →
                    getDependents x st0 = [] →
                    x ∈ destroy_calls t)) as Hturn.
  { intros st1 t1 Ht1 Hsame1 Hsub Hsup Hsl Hin1 Hout1.
    destruct (IH st1 Hsame1) as (t & st' & Hrun & Ht & Hsame' & Hsl' & Hin & Hout).
    exists (t1 ++ t), st'. split; [done |].
    split; [by rewrite Ht, Ht1, app_assoc |]. split; [done |].
    rewrite destroy_calls_app. split; [|split].
    - by apply (sublist_app _ [a]).
    - intros x [Hx|Hx]%elem_of_app.
      + destruct (Hin1 x Hx) as (-> & ? & ? & ?). split; [left | done].
      + destruct (Hin x Hx) as (? & ? & ? & ?). split; [by right | auto].
    - intros x Hx Hl Hm Hd. apply elem_of_app.
      destruct (decide (x = a)) as [->|Hne]; [left; auto |].
      right. apply Hout; auto. by apply elem_of_cons in Hx as [|]. }
  assert (∀ t' : list event,
            t' = [] →
            (a ∈ loadedModules st →
             (∃ m, JMap.get a (modules st0) = Some m ∧ is_Some (destroy m)) →
             getDependents a st0 = [] → False) →
            trace st = trace st ++ t' ∧ same_registry st0 st ∧
            (∀ x, x ∈ loadedModules st → x ∈ loadedModules st) ∧
            (∀ x, x ≠ a → x ∈ loadedModules st → x ∈ loadedModules st) ∧
            destroy_calls t' `sublist_of` [a] ∧
            (∀ x, x ∈ destroy_calls t' →
                  x = a ∧ a ∈ loadedModules st ∧
                  (∃ m, JMap.get a (modules st0) = Some m ∧
                        is_Some (destroy m)) ∧
                  getDependents a st0 = []) ∧
            (a ∈ loadedModules st →
             (∃ m, JMap.get a (modules st0) = Some m ∧ is_Some (destroy m)) →
             getDependents a st0 = [] → a ∈ destroy_calls t')) as Hidle.
  { intros t' -> Habs. rewrite app_nil_r.
    split; [done |]. split; [done |]. split; [done |]. split; [done |].
    split; [apply sublist_nil_l |].
    split; [by intros x ?%elem_of_nil |].
    intros H1 H2 H3. destruct (Habs H1 H2 H3). }
  destruct (JMap.get a (modules st)) as [module|] eqn:Hget; simpl in Hha.
  2:{ destruct (Hidle [] eq_refl) as (H1 & H2 & H3 & H4 & H5 & H6 & H7).
      - intros _ (m & Hm & _) _. rewrite Hm in Hha. discriminate.
      - by apply (Hturn st []). }
  destruct (JSet.has a (loadedModules st)) eqn:Hload.
  2:{ destruct (Hidle [] eq_refl) as (H1 & H2 & H3 & H4 & H5 & H6 & H7).
      - intros Hl _ _. by apply JSet_has_false in Hload.
      - by apply (Hturn st []). }
  apply JSet_has_true in Hload.
  destruct (getDependents a st) as [|d ds] eqn:Hds.
  2:{ destruct (Hidle [] eq_refl) as (H1 & H2 & H3 & H4 & H5 & H6 & H7).
      - intros _ _ Hnone. rewrite Hnone in Hda. discriminate.
      - by apply (Hturn st []). }
  assert (∀ h, destroy module = Some h →
            ∃ m, JMap.get a (modules st0) = Some m ∧ is_Some (destroy m))
    as Hreg.
  { intros h Hh. destruct (JMap.get a (modules st0)) as [m|];
      simpl in Hha; [|discriminate].
    exists m. split; [done |]. injection Hha as Hha. rewrite <- Hha, Hh. eauto. }
  destruct (destroy module) as [[|msg]|] eqn:Hdestroy.
  - apply (Hturn _ [DestroyCalled a;
                    Emit "moduleUnloaded"
                      (ModuleData a
                         (default module
                            (JMap.get a
                               (JMap.modify (with_state unloaded) a
                                  (modules st)))))]).
    + simpl. by rewrite <- app_assoc.
    + exact (proj1 (same_registry_unloaded_from a module st0 st
                      (DestroyCalled a) Hsame)).
    + simpl. by intros x [_ ?]%JSet_elem_of_delete.
    + simpl. intros x Hne Hx. by apply JSet_elem_of_delete.
    + done.
    + simpl. intros x ->%list_elem_of_singleton. eauto.
    + simpl. intros _ _ _. left.
  - apply (Hturn _ [DestroyCalled a]); simpl; auto.
    + intros x ->%list_elem_of_singleton. eauto.
    + intros _ _ _. left.
  - apply (Hturn _ [Emit "moduleUnloaded"
                      (ModuleData a
                         (default module
                            (JMap.get a
                               (JMap.modify (with_state unloaded) a
                                  (modules st)))))]).
    + done.
    + exact (proj2 (same_registry_unloaded_from a module st0 st
                      (DestroyCalled a) Hsame)).
    + simpl. by intros x [_ ?]%JSet_elem_of_delete.
    + simpl. intros x Hne Hx. by apply JSet_elem_of_delete.
    + apply sublist_nil_l.
    + simpl. by intros x ?%elem_of_nil.
    + intros _ (m & Hm & Hsome) _. rewrite Hm in Hha. simpl in Hha.
      injection Hha as Hha. rewrite <- Hha in Hsome. by destruct Hsome.
Qed.

(** X27.  [restartSystem] goes through the loaded modules in
    the insertion order of the loaded set, computing no dependency
    order, and tries to unload each; a failure is logged and the loop
    goes on.  The [destroy] hooks are called in that order, for the
    loaded modules that are registered with a [destroy] hook and have no
    registered dependent.  The call returns, the module map, the status
    map and the loaded set are empty afterwards, and the last event is
    [systemRestart]. *)
Theorem restartSystem_spec (st : system) :
  ∃ t,
    restartSystem st
    = (Return tt,
       System [] ∅ [] (trace st ++ t ++ [Emit "systemRestart" NoData])) ∧
    destroy_calls t `sublist_of` loadedModules st ∧
    (∀ x, x ∈ destroy_calls t ↔ destroyed_at_restart st x).
Proof.
  destruct (restart_loop st (loadedModules st) st)
    as (t & st' & Hrun & Ht & _ & Hsl & Hin & Hout); [by split |].
  exists t. split; [|split; [done | split]].
  - unfold restartSystem. unfold bind at 1. unfold gets at 1.
    unfold bind at 1. rewrite Hrun.
    unfold emit, update_state, bind, record. simpl.
    by rewrite Ht, <- app_assoc.
  - intros Hx. destruct (Hin x Hx) as (_ & ? & ? & ?). by repeat split.
  - intros (Hl & Hm & Hd). by apply Hout.
Qed.

Example restartSystem_scenarioA :
  destroy_calls (trace (state_after restartSystem ttsLoaded)) = ["tts"].
Proof. vm_compute. reflexivity. Qed.

(** C6.  The loop that the source announces as unloading all modules
    misses one: [audio] and [voice] are loaded, [voice] depends on
    [audio]; the restart reaches [audio] first, cannot unload it while
    [voice] is registered, logs the failure, and [destroy] of [audio] is
    never called, while the registry is cleared all the same.  The
    claim asks for [voice] before [audio], both unloaded. *)
Lemma restartSystem_skips_dependency :
  loadedModules voiceLoaded = ["audio"; "voice"] ∧
  depends_on (modules voiceLoaded) "voice" "audio" ∧
  List.filter is_hook_call (trace voiceLoaded)
  = [InitCalled "audio" []; InitCalled "voice" []] ∧
  List.filter is_hook_call (trace (state_after restartSystem voiceLoaded))
  = [InitCalled "audio" []; InitCalled "voice" []; DestroyCalled "voice"].
Proof.
  split; [by vm_compute |]. split; [|split; by vm_compute].
  eexists. split; [by vm_compute | set_solver].
Qed.

(** *** The fuel of [loadModule] is enough *)

Lemma load_step_tc st st' x y :
  load_step st st' →
  tc (depends_on (modules st')) x y ↔ tc (depends_on (modules st)) x y.
Proof.
  intros Hstep.
  split; intros Hxy; induction Hxy as [a b Hab|a b c Hab _ IH].
  - apply tc_once. by apply (load_step_depends_on _ _ _ _ Hstep).
  - eapply tc_l; [|exact IH]. by apply (load_step_depends_on _ _ _ _ Hstep).
  - apply tc_once. by apply (load_step_depends_on _ _ _ _ Hstep).
  - eapply tc_l; [|exact IH]. by apply (load_step_depends_on _ _ _ _ Hstep).
Qed.

(** In a dependency order, whatever a module reaches comes before it. *)
Lemma dependencyOrder_closed mods deps dependencyOrder x y :
  getDependencyOrder mods deps = Return dependencyOrder →
  tc (depends_on mods) x y →
  ∀ l1 l2, dependencyOrder = l1 ++ x :: l2 → y ∈ l1.
Proof.
  intros (Hnd & _ & Htopo & _)%getDependencyOrder_Return Hxy.
  assert (∀ x y l1 l2, depends_on mods x y →
            dependencyOrder = l1 ++ x :: l2 → y ∈ l1) as Hedge.
  { clear x y Hxy. intros x y l1 l2 Hxy Hl.
    destruct (Htopo x y) as (i & j & Hij & Hi & Hj); [|done|].
    { rewrite Hl. set_solver. }
    assert (j = length l1) as ->.
    { eapply NoDup_lookup; [done | done |].
      rewrite Hl. by rewrite list_lookup_middle. }
    rewrite Hl, lookup_app_l in Hi by done.
    by eapply list_elem_of_lookup_2. }
  induction Hxy as [x y Hxy|x y z Hxy _ IH]; intros l1 l2 Hl.
  - by eapply Hedge.
  - pose proof (Hedge x y l1 l2 Hxy Hl) as Hy.
    apply list_elem_of_split in Hy as (a & b & ->).
    rewrite <- app_assoc in Hl. simpl in Hl.
    specialize (IH a _ Hl). set_solver.
Qed.

Lemma finish_load_fuel moduleId options module st :
  (finish_load moduleId options module st).1 ≠ OutOfFuel.
Proof.
  unfold finish_load, deref, bind, gets. simpl.
  by destruct (init (default module (JMap.get moduleId (modules st))))
    as [[|msg]|].
Qed.

Lemma loadModule_Return_loaded fuel moduleId options st m st' :
  loadModule fuel moduleId options st = (Return m, st') →
  moduleId ∈ loadedModules st'.
Proof.
  destruct fuel as [|fuel]; [discriminate |].
  rewrite loadModule_unfold.
  destruct (JMap.get moduleId (modules st)) as [module|] eqn:Hget;
    [|discriminate].
  destruct (JSet.has moduleId (loadedModules st)) eqn:Hload.
  - intros [= _ <-]. by apply JSet_has_true.
  - pose proof (loadModule_step_deps fuel moduleId st) as Hdeps.
    destruct (checkDependencies _ _ _) as [[[]| |] st1]; try discriminate.
    intros Hrun. apply finish_load_Return in Hrun as [Hin _]; [done |].
    apply (load_step_is_Some _ _ _ Hdeps). by rewrite Hget.
Qed.

(** When everything is loaded, the loop of [checkDependencies] loads
    nothing. *)
Lemma for_of_all_loaded load l st :
  (∀ y, y ∈ l → y ∈ loadedModules st) →
  for_of l (load_dependency load) st = (Return tt, st).
Proof.
  induction l as [|y l IH]; intros Hall; [done |].
  rewrite for_of_cons. unfold load_dependency at 1, bind, gets. simpl.
  assert (JSet.has y (loadedModules st) = true) as ->
    by (apply JSet_has_true, Hall; left).
  simpl. apply IH. intros z Hz. apply Hall. by right.
Qed.

(** A module whose dependencies are loaded, as far as they reach, is
    loaded without a nested load. *)
Lemma loadModule_ready fuel moduleId options st :
  (∀ y, tc (depends_on (modules st)) moduleId y → y ∈ loadedModules st) →
  (loadModule (S fuel) moduleId options st).1 ≠ OutOfFuel.
Proof.
  intros Hready. rewrite loadModule_unfold.
  destruct (JMap.get moduleId (modules st)) as [module|] eqn:Hget; [|done].
  destruct (JSet.has moduleId (loadedModules st)); [done |].
  rewrite checkDependencies_unfold, Hget.
  pose proof (cycle_check_fuel (modules st) moduleId) as Hcheck.
  destruct (cycle_check _ _); [|done|done].
  pose proof (getDependencyOrder_fuel (modules st) (dependencies module))
    as Hfuel.
  destruct (getDependencyOrder _ _) as [dependencyOrder| |] eqn:Hord;
    [|done|done].
  rewrite for_of_all_loaded; [apply finish_load_fuel |].
  intros y Hy. by eapply Hready, getDependencyOrder_reached.
Qed.

Lemma checkDependencies_fuel fuel moduleId st :
  (checkDependencies (λ depId, loadModule (S fuel) depId []) moduleId st).1
  ≠ OutOfFuel.
Proof.
  rewrite checkDependencies_unfold.
  destruct (JMap.get moduleId (modules st)) as [module|] eqn:Hget; [|done].
  pose proof (cycle_check_fuel (modules st) moduleId) as Hcheck.
  destruct (cycle_check _ _); [|done|done].
  pose proof (getDependencyOrder_fuel (modules st) (dependencies module))
    as Hfuel.
  destruct (getDependencyOrder _ _) as [dependencyOrder| |] eqn:Hord;
    [|done|done].
  assert (∀ l2 l1 st1,
            dependencyOrder = l1 ++ l2 → load_step st st1 →
            (∀ x, x ∈ l1 → x ∈ loadedModules st1) →
            (for_of l2
               (load_dependency (λ depId, loadModule (S fuel) depId []))
               st1).1 ≠ OutOfFuel) as Hloop.
  { induction l2 as [|d l2 IH]; intros l1 st1 Hl Hstep Hdone; [done |].
    rewrite for_of_cons. unfold load_dependency at 1, bind, gets. simpl.
    destruct (JSet.has d (loadedModules st1)) eqn:Hd; simpl.
    - apply (IH (l1 ++ [d])); [by rewrite <- app_assoc | done |].
      intros x [Hx| ->%list_elem_of_singleton]%elem_of_app; [auto |].
      by apply JSet_has_true.
    - pose proof (loadModule_ready fuel d [] st1) as Hready.
      pose proof (loadModule_step (S fuel) d [] st1) as Hstep1.
      pose proof (loadModule_Return_loaded (S fuel) d [] st1) as Hret.
      destruct (loadModule (S fuel) d [] st1) as [[m| |] st2];
        simpl in *; [|done|].
      + apply (IH (l1 ++ [d])); [by rewrite <- app_assoc | |].
        * by eapply load_step_trans.
        * destruct Hstep1 as (_ & Hmono & _).
          intros x [Hx| ->%list_elem_of_singleton]%elem_of_app; [auto |].
          by eapply Hret.
      + intros _. destruct Hready; [|done].
        intros y Hy%(load_step_tc _ _ _ _ Hstep).
        eapply Hdone, dependencyOrder_closed; done. }
  apply (Hloop dependencyOrder [] st); [done | apply load_step_refl |].
  by intros x ?%elem_of_nil.
Qed.

(** [loadModule] with two units of fuel or more ends: it returns or
    throws. *)
Lemma loadModule_fuel fuel moduleId options st :
  (loadModule (S (S fuel)) moduleId options st).1 ≠ OutOfFuel.
Proof.
  rewrite loadModule_unfold.
  destruct (JMap.get moduleId (modules st)) as [module|] eqn:Hget; [|done].
  destruct (JSet.has moduleId (loadedModules st)); [done |].
  pose proof (checkDependencies_fuel fuel moduleId st) as Hdeps.
  destruct (checkDependencies _ _ _) as [[[]| |] st1]; simpl in *;
    [apply finish_load_fuel | done | done].
Qed.

(** The handlers that load pass [load_fuel]: they end. *)
Lemma handleModuleInstall_fuel data now st :
  (handleModuleInstall data now st).1 ≠ OutOfFuel.
Proof.
  unfold handleModuleInstall, registerModule', bind.
  destruct (d_moduleConfig data) as [c|]; [|done].
  rewrite registerModule_eq.
  pose proof (loadModule_fuel 0 (d_moduleId data) []
                (set_moduleStates <[d_moduleId data := registered]>
                   (set_modules
                      (JMap.set (d_moduleId data)
                         (new_module (d_moduleId data) c now)) st))) as Hfuel.
  unfold load_fuel. by destruct (loadModule 2 _ _ _) as [[| |] st1].
Qed.

Lemma unloadModule_fuel moduleId st :
  (unloadModule moduleId st).1 ≠ OutOfFuel.
Proof.
  rewrite unloadModule_eq.
  destruct (JMap.get moduleId (modules st)) as [module|]; [|done].
  destruct (JSet.has moduleId (loadedModules st)); [|done].
  destruct (getDependents moduleId st); [|done].
  by destruct (destroy module) as [[|msg]|].
Qed.

Lemma handleModuleReload_fuel data now st :
  (handleModuleReload data now st).1 ≠ OutOfFuel.
Proof.
  unfold handleModuleReload, registerModule'.
  unfold bind at 1. unfold gets at 1.
  destruct (JSet.has (d_moduleId data) (loadedModules st)).
  - unfold bind at 1.
    pose proof (unloadModule_fuel (d_moduleId data) st) as Hunload.
    destruct (unloadModule _ st) as [[[]| |] st1]; simpl in *; [|done|done].
    unfold bind at 1.
    destruct (d_moduleConfig data) as [c|]; [|done].
    rewrite registerModule_eq. unfold bind, load_fuel.
    pose proof (loadModule_fuel 0 (d_moduleId data) []
                  (set_moduleStates <[d_moduleId data := registered]>
                     (set_modules
                        (JMap.set (d_moduleId data)
                           (new_module (d_moduleId data) c now)) st1)))
      as Hfuel.
    by destruct (loadModule 2 _ _ _) as [[| |] st2].
  - unfold bind, ret. simpl.
    by destruct (d_moduleConfig data) as [c|].
Qed.

(** ** The state store *)

Section StateStoreFacts.
Context {value text : Type}.
Variable JSON_stringify : value → option text.
Variable JSON_parse : text → option value.

Lemma length_insert_latest_first (x : historyData value) l :
  length (insert_latest_first x l) = S (length l).
Proof.
  induction l as [|y l IH]; simpl; [done |].
  destruct (h_timestamp y <=? h_timestamp x)%Z; simpl; by rewrite ?IH.
Qed.

Lemma length_sort_latest_first (l : list (historyData value)) :
  length (sort_latest_first l) = length l.
Proof.
  induction l as [|x l IH]; simpl; [done |].
  by rewrite length_insert_latest_first, IH.
Qed.

Lemma getModuleStateHistory_length moduleId limit (p : persistence value)
    (d : database value) :
  db p = Some d →
  ∃ history,
    getModuleStateHistory moduleId limit p = (Return history, p) ∧
    length history = limit `min` history_count moduleId p.
Proof.
  intros Hdb. unfold getModuleStateHistory, history_count. rewrite Hdb.
  eexists. split; [done |].
  by rewrite length_take, length_sort_latest_first.
Qed.

Lemma history_count_add other (p : persistence value) (d : database value)
    states (h : historyData value) next :
  db p = Some d →
  history_count other
    (set_db (Database states (db_stateHistory d ++ [h]) next) p)
  = history_count other p + (if decide (h_moduleId h = other) then 1 else 0).
Proof.
  intros Hdb. unfold history_count, history_of. rewrite Hdb. simpl.
  rewrite filter_app, length_app, filter_cons, filter_nil.
  by destruct (decide (h_moduleId h = other)).
Qed.

Lemma loadModuleState_snd moduleId version (p : persistence value) :
  (loadModuleState moduleId version p).2 = p.
Proof.
  unfold loadModuleState. destruct (db p) as [d|]; [|done].
  destruct (db_moduleStates d !! moduleId) as [result|]; [|done].
  destruct version as [v|]; [|done].
  destruct (decide (v = "")); [done |].
  by destruct (decide (sd_version result = v)).
Qed.

(** A save for another module keeps the current state and the history
    of [moduleId]. *)
Lemma saveModuleState_other (p : persistence value) (c : saveCall value)
    (moduleId : string) :
  sc_moduleId c ≠ moduleId →
  let p' := (saveModuleState JSON_stringify JSON_parse (sc_moduleId c)
               (sc_state c) (sc_options c) (sc_now c) p).2 in
  (is_Some (db p) → is_Some (db p')) ∧
  (∀ version, (loadModuleState moduleId version p').1
              = (loadModuleState moduleId version p).1) ∧
  history_count moduleId p' = history_count moduleId p.
Proof.
  intros Hne. unfold saveModuleState.
  destruct (db p) as [d|] eqn:Hdb; simpl; [|by rewrite Hdb].
  destruct (deep_clone JSON_stringify JSON_parse (sc_state c)) as [clone|];
    simpl; [|by rewrite Hdb].
  split; [by eexists |]. split.
  - intros version. unfold loadModuleState. rewrite Hdb. simpl.
    rewrite lookup_insert_ne by done.
    destruct (db_moduleStates d !! moduleId) as [result|]; [|done].
    destruct version as [v|]; [|done].
    destruct (decide (v = "")); [done |].
    by destruct (decide (sd_version result = v)).
  - rewrite (history_count_add _ _ d) by done. simpl.
    rewrite decide_False by done. lia.
Qed.

Lemma after_saves_others (calls : list (saveCall value))
    (p : persistence value) (moduleId : string) :
  Forall (λ c, sc_moduleId c ≠ moduleId) calls →
  let p' := after_saves JSON_stringify JSON_parse calls p in
  (is_Some (db p) → is_Some (db p')) ∧
  (∀ version, (loadModuleState moduleId version p').1
              = (loadModuleState moduleId version p).1) ∧
  history_count moduleId p' = history_count moduleId p.
Proof.
  revert p. induction calls as [|c calls IH]; intros p Hall; [done |].
  apply Forall_cons in Hall as [Hc Hall]. simpl.
  destruct (saveModuleState_other p c moduleId Hc) as (Hdb & Hload & Hcount).
  destruct (IH (saveModuleState JSON_stringify JSON_parse (sc_moduleId c)
                  (sc_state c) (sc_options c) (sc_now c) p).2 Hall)
    as (Hdb' & Hload' & Hcount').
  split; [auto |]. split.
  - intros version. by rewrite Hload', Hload.
  - by rewrite Hcount', Hcount.
Qed.

(** C7.  On an initialized store, for a state that JSON serializes to
    itself, [saveModuleState(moduleId, state)] returns, a following
    [loadModuleState(moduleId)] returns the state, and the history of
    [moduleId] has exactly one entry more: [getModuleStateHistory] with a
    limit above the old count returns one entry more than before.  The
    save leaves the current states and the histories of the other
    modules as they were, and the state comes back also after any
    number of later saves for other modules, whether these return or
    throw; the history of [moduleId] then still has the one entry
    more. *)
Theorem save_load_roundtrip (p : persistence value) (d : database value)
    (moduleId : string) (state : value) (options : saveOptions) (now : Z) :
  db p = Some d →
  json_serializable JSON_stringify JSON_parse state →
  ∃ stateData p',
    saveModuleState JSON_stringify JSON_parse moduleId state options now p
    = (Return stateData, p') ∧
    sd_state stateData = state ∧
    loadModuleState moduleId None p' = (Return (Some state), p') ∧
    history_count moduleId p' = S (history_count moduleId p) ∧
    (∀ other, other ≠ moduleId →
              history_count other p' = history_count other p) ∧
    (∀ limit, ∃ history,
       getModuleStateHistory moduleId limit p' = (Return history, p') ∧
       length history = limit `min` S (history_count moduleId p)) ∧
    (∀ other version, other ≠ moduleId →
       (loadModuleState other version p').1
       = (loadModuleState other version p).1) ∧
    (∀ calls : list (saveCall value),
       Forall (λ c, sc_moduleId c ≠ moduleId) calls →
       let p'' := after_saves JSON_stringify JSON_parse calls p' in
       loadModuleState moduleId None p'' = (Return (Some state), p'') ∧
       history_count moduleId p'' = S (history_count moduleId p)).
Proof.
  intros Hdb Hjson.
  set (sd := StateData moduleId state now
               (or_default (opt_version options) "1.0.0")
               (default [] (opt_metadata options))).
  set (p' := set_db
               (Database (<[moduleId := sd]> (db_moduleStates d))
                  (db_stateHistory d
                   ++ [HistoryData (db_nextId d) moduleId state now
                         (sd_version sd) (sd_metadata sd)])
                  (S (db_nextId d))) p).
  assert (saveModuleState JSON_stringify JSON_parse moduleId state options
            now p = (Return sd, p')) as Hsave.
  { unfold saveModuleState. rewrite Hdb.
    unfold json_serializable in Hjson. by rewrite Hjson. }
  assert (loadModuleState moduleId None p' = (Return (Some state), p'))
    as Hload.
  { unfold loadModuleState. simpl. by rewrite lookup_insert_eq. }
  assert (history_count moduleId p' = S (history_count moduleId p))
    as Hcount.
  { unfold p'. rewrite (history_count_add _ _ d) by done. simpl.
    rewrite decide_True by done. lia. }
  exists sd, p'. split; [done |]. split; [done |]. split; [done |].
  split; [done |]. split; [|split; [|split]].
  - intros other Hne. unfold p'.
    rewrite (history_count_add _ _ d) by done. simpl.
    rewrite decide_False by done. lia.
  - intros limit. unfold getModuleStateHistory. simpl.
    eexists. split; [reflexivity |].
    rewrite length_take, length_sort_latest_first.
    unfold history_count, history_of. rewrite Hdb. simpl.
    rewrite filter_app, length_app, filter_cons, filter_nil. simpl.
    rewrite decide_True by done. simpl. f_equal. lia.
  - intros other version Hne.
    pose proof (saveModuleState_other p
                  (SaveCall moduleId state options now) other
                  (λ H, Hne (eq_sym H)))
      as (_ & Hkeep & _).
    simpl in Hkeep. rewrite Hsave in Hkeep. apply Hkeep.
  - intros calls Hall p''. subst p''.
    destruct (after_saves_others calls p' moduleId Hall)
      as (_ & Hkeep & Hsame).
    split; [|by rewrite Hsame].
    specialize (Hkeep None). rewrite Hload in Hkeep. simpl in Hkeep.
    pose proof (loadModuleState_snd moduleId None
                  (after_saves JSON_stringify JSON_parse calls p')) as Hsnd.
    destruct (loadModuleState moduleId None
                (after_saves JSON_stringify JSON_parse calls p'))
      as [r p2].
    simpl in *. by subst.
Qed.
End StateStoreFacts.

Lemma save_load_roundtrip_witness :
  ∃ stateData p',
    saveModuleState toy_stringify toy_parse "tts" [("count", 1%Z)]
      (SaveOptions None None) 5 openedPersistence
    = (Return stateData, p') ∧
    loadModuleState "tts" None p' = (Return (Some [("count", 1%Z)]), p') ∧
    history_count "tts" p' = 1 ∧
    let p'' := after_saves toy_stringify toy_parse
                 [SaveCall "audio" [("gain", 3%Z)] (SaveOptions None None) 6]
                 p' in
    loadModuleState "tts" None p'' = (Return (Some [("count", 1%Z)]), p'').
Proof.
  destruct (save_load_roundtrip toy_stringify toy_parse openedPersistence
              emptyDatabase "tts" [("count", 1%Z)] (SaveOptions None None) 5)
    as (stateData & p' & Hsave & _ & Hload & Hcount & _ & _ & _ & Hlater).
  - reflexivity.
  - reflexivity.
  - exists stateData, p'. split; [exact Hsave |]. split; [exact Hload |].
    split; [exact Hcount |].
    apply (Hlater [SaveCall "audio" [("gain", 3%Z)]
                     (SaveOptions None None) 6]).
    apply Forall_cons. split; [done | apply Forall_nil_2].
Defined.

(** ** The WebSocket server *)

Section MessageHandlerFacts.
Variable JSON_parse : string → option json.
Variable handleMessage : string → json → server → option error * server.

(** C8.  When a frame that is not valid JSON arrives from a connected
    peer whose connection is open, the server sends one message, on that
    connection: the envelope of type [error] with the error text and the
    time.  The connection stays open, no other connection is sent
    anything or changed, and the clients, the peer among them, are as
    before. *)
Theorem malformed_frame_answered (srv : server) (clientId : string)
    (c : client) (s : socket) (message : string) (now : Z) :
  JMap.get clientId (clients srv) = Some c →
  sockets srv !! c_ws c = Some s →
  ws_readyState s = OPEN →
  JSON_parse message = None →
  let srv' := on_message JSON_parse handleMessage clientId (c_ws c)
                message now srv in
  sockets srv' !! c_ws c
  = Some (Socket OPEN
            (ws_sent s
             ++ [JObj [("type", JStr "error");
                       ("data", JObj [("error", JStr "Invalid JSON message");
                                      ("timestamp", JNum now)])]])) ∧
  (∀ other, other ≠ c_ws c → sockets srv' !! other = sockets srv !! other) ∧
  clients srv' = clients srv ∧
  JMap.get clientId (clients srv') = Some c ∧
  moduleRegistry srv' = moduleRegistry srv.
Proof.
  intros Hc Hs Hopen Hparse srv'. subst srv'.
  unfold on_message. rewrite Hparse.
  unfold sendError, sendMessage. rewrite Hs, Hopen. simpl.
  rewrite lookup_insert_eq. split; [done |].
  split; [|done]. intros other Hne. by rewrite lookup_insert_ne.
Qed.
End MessageHandlerFacts.

Lemma malformed_frame_answered_witness :
  sockets (on_message nullParser pingOnly "client_a" 1 "{oops" 9 twoPeers)
    !! 1
  = Some (Socket OPEN [error_envelope "Invalid JSON message" 9]).
Proof.
  refine (proj1 (malformed_frame_answered nullParser pingOnly twoPeers
                   "client_a" (Client 1 "client_a" "unknown" 0)
                   (Socket OPEN []) "{oops" 9 _ _ _ _)).
  - reflexivity.
  - reflexivity.
  - reflexivity.
  - reflexivity.
Defined.

(** * Further properties *)

(** ** The resolver on graphs with cycles *)

Section WalkFacts.
Variable mods : list (string * moduleObject).

(** In a well-formed walk state, what a visited id reaches is visited,
    and earlier in the order. *)
Lemma walk_ok_before w x y i :
  walk_ok mods w → tc (depends_on mods) x y → order w !! i = Some x →
  ∃ j, j < i ∧ order w !! j = Some y.
Proof.
  intros (_ & _ & Htopo) Hxy. revert i.
  induction Hxy as [x y Hxy|x y z Hxy _ IH]; intros i Hi.
  - by eapply Htopo.
  - destruct (Htopo i x y Hi Hxy) as (j & Hj & Hjy).
    destruct (IH j Hjy) as (k & Hk & Hkz). exists k. split; [lia | done].
Qed.

Lemma walk_ok_no_cycle w x :
  walk_ok mods w → x ∈ order w → ¬ on_cycle mods x.
Proof.
  intros Hok [i Hi]%list_elem_of_lookup Hcyc.
  destruct (walk_ok_before w x x i Hok Hcyc Hi) as (j & Hj & Hjx).
  destruct Hok as (Hnd & _).
  pose proof (NoDup_lookup _ _ _ _ Hnd Hi Hjx). lia.
Qed.

Lemma walk_ok_closed w x y :
  walk_ok mods w → x ∈ order w → reaches mods x y → y ∈ order w.
Proof.
  intros Hok Hx Hxy. induction Hxy as [|x y z Hxy _ IH]; [done |].
  apply IH. apply list_elem_of_lookup in Hx as [i Hi].
  destruct Hok as (_ & _ & Htopo).
  destruct (Htopo i x y Hi Hxy) as (j & _ & Hj).
  by eapply list_elem_of_lookup_2.
Qed.

(** The walk does not throw from an id that reaches no cycle. *)
Lemma visit_no_throw_local fuel depId w e :
  (∀ x, reaches mods depId x → ¬ on_cycle mods x) →
  (∀ v, v ∈ visiting w → tc (depends_on mods) v depId) →
  visit mods fuel depId w ≠ Throw e.
Proof.
  revert depId w e.
  induction fuel as [|fuel IH]; intros depId w e Hfree Hpath; simpl; [done |].
  destruct (decide (depId ∈ visiting w)) as [Hing|Hing].
  { destruct (Hfree depId); [apply rtc_refl | by apply Hpath]. }
  destruct (decide (depId ∈ visited w)) as [Hed|Hed]; [done |].
  set (w1 := Walk (visited w) ({[depId]} ∪ visiting w) (order w)).
  destruct (JMap.get depId mods) as [depModule|] eqn:Hget; [|done].
  destruct (for_each_outcome (visit mods fuel)
              (λ s, visiting s = visiting w1) (dependencies depModule) w1)
    as [(w2 & -> & _)|(y & s1 & Hy & Hs1 & -> & Hne)]; [| done | done |].
  - intros x s1 s2 _ Hs1 Hx%visit_step. destruct Hx as [(-> & _) _]. done.
  - destruct (visit mods fuel y s1) as [s2| |] eqn:Hv;
      [by destruct (Hne s2) | | done].
    assert (depends_on mods depId y) as Hedge by (by exists depModule).
    destruct (IH y s1 e0); [| |done].
    + intros x Hx. apply Hfree. by eapply rtc_l.
    + rewrite Hs1. simpl.
      intros v [->%elem_of_singleton|Hv']%elem_of_union.
      * by apply tc_once.
      * eapply tc_r; [by apply Hpath | done].
Qed.
End WalkFacts.

(** On a part of the graph without cycles the walk returns. *)
Lemma getDependencyOrder_free_Return mods deps :
  (∀ d x, d ∈ deps → reaches mods d x → ¬ on_cycle mods x) →
  ∃ dependencyOrder, getDependencyOrder mods deps = Return dependencyOrder.
Proof.
  intros Hfree. unfold getDependencyOrder.
  destruct (for_each_outcome (visit mods (walk_fuel mods))
              (λ s, visiting s = ∅) deps (Walk ∅ ∅ []))
    as [(w2 & Hw2 & _)|(y & s1 & Hy & Hs1 & Heq & Hne)]; [| done | |].
  - intros x s1 s2 _ Hs1 Hx%visit_step. destruct Hx as [(-> & _) _]. done.
  - rewrite Hw2. by eexists.
  - rewrite Heq.
    destruct (visit mods (walk_fuel mods) y s1) as [s2|e|] eqn:Hv.
    + by destruct (Hne s2).
    + destruct (visit_no_throw_local mods (walk_fuel mods) y s1 e);
        [intros x; by apply (Hfree y) | | done].
      rewrite Hs1. by intros v ?%elem_of_empty.
    + destruct (visit_fuel mods (walk_fuel mods) y s1); [| | done];
        rewrite Hs1.
      * set_solver.
      * rewrite size_empty. unfold walk_fuel. lia.
Qed.

(** A returned order holds whatever the given dependencies reach. *)
Lemma getDependencyOrder_complete mods deps dependencyOrder d x :
  getDependencyOrder mods deps = Return dependencyOrder →
  d ∈ deps → reaches mods d x → x ∈ dependencyOrder.
Proof.
  intros (_ & Hin & Htopo & _)%getDependencyOrder_Return Hd Hdx.
  specialize (Hin d Hd). clear Hd.
  induction Hdx as [|a b c Hab _ IH]; [done |].
  apply IH. destruct (Htopo a b Hin Hab) as (i & j & _ & Hi & _).
  by eapply list_elem_of_lookup_2.
Qed.

(** X1.  [getDependencyOrder] returns an order exactly when no id
    reached from the given dependencies lies on a cycle; when one does,
    it throws the circular-dependency error.  It always ends. *)
Theorem getDependencyOrder_returns_iff
    (mods : list (string * moduleObject)) (deps : list string) :
  ((∀ d x, d ∈ deps → reaches mods d x → ¬ on_cycle mods x) →
   ∃ dependencyOrder, getDependencyOrder mods deps = Return dependencyOrder) ∧
  (∀ d x, d ∈ deps → reaches mods d x → on_cycle mods x →
   ∃ y, getDependencyOrder mods deps = Throw (CircularDependency y None)).
Proof.
  assert (∀ e, getDependencyOrder mods deps = Throw e →
               ∃ y, e = CircularDependency y None) as Hthrow.
  { intros e. unfold getDependencyOrder.
    destruct (for_each _ _ _) as [w|e'|] eqn:Hl; try discriminate.
    intros [= ->]. clear -Hl. revert Hl.
    generalize (Walk ∅ ∅ []). generalize (walk_fuel mods) as fuel.
    intros fuel. revert deps e.
    induction fuel as [|fuel IH]; intros deps e w Hl.
    - induction deps as [|d deps IHd]; simpl in Hl; discriminate.
    - revert w Hl. induction deps as [|d deps IHd]; intros w Hl;
        simpl in Hl; [discriminate |].
      destruct (decide (d ∈ visiting w)); [injection Hl as <-; eauto |].
      destruct (decide (d ∈ visited w)); [by eapply IHd |].
      destruct (JMap.get d mods) as [depModule|].
      + destruct (for_each (visit mods fuel) (dependencies depModule) _)
          as [w2|e2|] eqn:Hin; simpl in Hl.
        * by eapply IHd.
        * injection Hl as <-. by eapply IH.
        * discriminate.
      + by eapply IHd. }
  split.
  - apply getDependencyOrder_free_Return.
  - intros d x Hd Hdx Hcyc.
    destruct (getDependencyOrder mods deps) as [dependencyOrder|e|] eqn:Hrun.
    + exfalso. revert Hrun. unfold getDependencyOrder.
      destruct (for_each _ _ _) as [w| |] eqn:Hl; try discriminate.
      intros [= <-].
      assert (walk_ok mods w) as Hok.
      { eapply visit_loop_ok; [done |]. repeat split; simpl.
        - apply NoDup_nil_2.
        - by intros ?%elem_of_nil.
        - by intros ?%elem_of_empty.
        - by intros i a b ?. }
      destruct (visit_loop_step _ _ _ _ _ Hl) as [_ Hin].
      eapply walk_ok_no_cycle; [done | | done].
      eapply walk_ok_closed; [done | | done].
      destruct Hok as (_ & Hmem & _). by apply Hmem, Hin.
    + destruct (Hthrow e eq_refl) as [y ->]. eauto.
    + by destruct (getDependencyOrder_fuel mods deps).
Qed.

Lemma fullCycle_on_cycle : on_cycle (modules fullCycle) "a".
Proof.
  apply (tc_l _ "a" "b" "a"); [|apply tc_once].
  - eexists. split; [by vm_compute | set_solver].
  - eexists. split; [by vm_compute | set_solver].
Qed.

Lemma getDependencyOrder_returns_iff_witness :
  ∃ y, getDependencyOrder (modules fullCycle) ["a"]
       = Throw (CircularDependency y None).
Proof.
  apply (proj2 (getDependencyOrder_returns_iff (modules fullCycle) ["a"])
           "a" "a").
  - set_solver.
  - apply rtc_refl.
  - apply fullCycle_on_cycle.
Defined.

(** X2.  An order that [getDependencyOrder] returns lists exactly the
    ids reached from the given dependencies, registered or not. *)
Theorem getDependencyOrder_exact (mods : list (string * moduleObject))
    (deps dependencyOrder : list string) :
  getDependencyOrder mods deps = Return dependencyOrder →
  ∀ x, x ∈ dependencyOrder ↔ ∃ d, d ∈ deps ∧ reaches mods d x.
Proof.
  intros Hrun x. split.
  - apply getDependencyOrder_Return in Hrun as (_ & _ & _ & Hreach).
    apply Hreach.
  - intros (d & Hd & Hdx). by eapply getDependencyOrder_complete.
Qed.

Lemma getDependencyOrder_exact_witness :
  ∃ d, d ∈ ["tts"] ∧ reaches (modules scenarioA) d "audio".
Proof.
  apply (getDependencyOrder_exact (modules scenarioA) ["tts"]
           ["audio"; "voice"; "tts"]).
  - vm_compute. reflexivity.
  - set_solver.
Defined.

(** ** The cycle check *)

Section CheckVisit.
Variable mods : list (string * moduleObject).
Variable targetId : string.

Local Abbreviation check_dep fuel currentId :=
  (λ depId k',
     if decide (depId = targetId) then
       Throw (CircularDependency currentId (Some depId))
     else checkCircular mods fuel depId targetId k').

(** Where [checkCircular] returns, the walk of [getDependencyOrder]
    returns too, with the same marks. *)
Lemma checkCircular_visit fuel currentId k k' l :
  checkCircular mods fuel currentId targetId k = Return k' →
  ∃ l', visit mods fuel currentId (Walk (m_visited k) (m_visiting k) l)
        = Return (Walk (m_visited k') (m_visiting k') l').
Proof.
  revert currentId k k' l.
  induction fuel as [|fuel IH]; intros currentId k k' l Hrun;
    simpl in Hrun; [discriminate |]. simpl.
  destruct (decide (currentId ∈ m_visiting k)) as [|Hing]; [discriminate |].
  destruct (decide (currentId ∈ m_visited k)) as [Hed|Hed].
  { injection Hrun as <-. eauto. }
  assert (∀ deps k1 k2 l1,
            for_each (check_dep fuel currentId) deps k1 = Return k2 →
            ∃ l2, for_each (visit mods fuel) deps
                    (Walk (m_visited k1) (m_visiting k1) l1)
                  = Return (Walk (m_visited k2) (m_visiting k2) l2))
    as Hloop.
  { induction deps as [|d deps IHd]; intros k1 k2 l1 Hl; simpl in Hl |- *.
    - injection Hl as <-. eauto.
    - destruct (decide (d = targetId)); [discriminate |].
      destruct (checkCircular mods fuel d targetId k1) as [k3| |] eqn:Hd;
        try discriminate.
      destruct (IH _ _ _ l1 Hd) as [l3 ->]. by apply IHd. }
  destruct (JMap.get currentId mods) as [currentModule|].
  - destruct (for_each _ _ _) as [k2| |] eqn:Hl; try discriminate.
    injection Hrun as <-.
    destruct (Hloop _ _ _ l Hl) as [l2 Hl2]. simpl in Hl2. rewrite Hl2.
    simpl. eauto.
  - injection Hrun as <-. simpl. eauto.
Qed.

(** [checkCircular] does not throw from an id that the target reaches,
    when the target reaches no cycle. *)
Lemma checkCircular_no_throw fuel currentId k e :
  (∀ x, reaches mods targetId x → ¬ on_cycle mods x) →
  reaches mods targetId currentId →
  (∀ v, v ∈ m_visiting k → tc (depends_on mods) v currentId) →
  checkCircular mods fuel currentId targetId k ≠ Throw e.
Proof.
  intros Hfree. revert currentId k e.
  induction fuel as [|fuel IH]; intros currentId k e Hreach Hpath; simpl;
    [done |].
  destruct (decide (currentId ∈ m_visiting k)) as [Hing|Hing].
  { destruct (Hfree currentId Hreach). by apply Hpath. }
  destruct (decide (currentId ∈ m_visited k)) as [Hed|Hed]; [done |].
  set (k1 := Marks (m_visited k) ({[currentId]} ∪ m_visiting k)).
  destruct (JMap.get currentId mods) as [currentModule|] eqn:Hget; [|done].
  destruct (for_each_outcome (check_dep fuel currentId)
              (λ s, m_visiting s = m_visiting k1)
              (dependencies currentModule) k1)
    as [(k2 & -> & _)|(y & s1 & Hy & Hs1 & -> & Hne)]; [| done | done |].
  - intros x s1 s2 _ Hs1 Hx.
    destruct (decide (x = targetId)); [discriminate |].
    apply checkCircular_step in Hx as [[-> _] _]. done.
  - assert (depends_on mods currentId y) as Hedge by (by exists currentModule).
    destruct (decide (y = targetId)) as [->|Hne'].
    { destruct (Hfree targetId); [apply rtc_refl |].
      unfold on_cycle. eapply tc_rtc_l; [exact Hreach | by apply tc_once]. }
    destruct (checkCircular mods fuel y targetId s1) as [s2| |] eqn:Hv;
      [by destruct (Hne s2) | | done].
    destruct (IH y s1 e0); [| |done].
    + eapply rtc_r; [exact Hreach | done].
    + rewrite Hs1. simpl.
      intros v [->%elem_of_singleton|Hv']%elem_of_union.
      * by apply tc_once.
      * eapply tc_r; [by apply Hpath | done].
Qed.
End CheckVisit.

(** The cycle check of a module that reaches no cycle returns. *)
Lemma cycle_check_free_Return mods moduleId :
  (∀ x, reaches mods moduleId x → ¬ on_cycle mods x) →
  ∃ k, cycle_check mods moduleId = Return k.
Proof.
  intros Hfree. destruct (cycle_check mods moduleId) as [k|e|] eqn:Hrun.
  - eauto.
  - destruct (checkCircular_no_throw mods moduleId (walk_fuel mods)
                moduleId (Marks ∅ ∅) e); [done | apply rtc_refl | | done].
    by intros v ?%elem_of_empty.
  - by destruct (cycle_check_fuel mods moduleId).
Qed.

(** X3.  The cycle check that [checkDependencies] runs for a module
    passes exactly when no id that the module reaches lies on a cycle;
    when one does, the check throws the circular-dependency error. *)
Theorem cycle_check_returns_iff (mods : list (string * moduleObject))
    (moduleId : string) :
  ((∀ x, reaches mods moduleId x → ¬ on_cycle mods x) →
   ∃ k, cycle_check mods moduleId = Return k) ∧
  (∀ x, reaches mods moduleId x → on_cycle mods x →
   ∃ a b, cycle_check mods moduleId = Throw (CircularDependency a (Some b))).
Proof.
  split.
  - apply cycle_check_free_Return.
  - intros x Hx Hcyc. destruct (cycle_check mods moduleId) as [k|e|] eqn:Hrun.
    + exfalso.
      destruct (checkCircular_visit mods moduleId _ _ _ _ [] Hrun)
        as [l' Hvisit].
      assert (walk_ok mods (Walk (m_visited k) (m_visiting k) l')) as Hok.
      { eapply visit_ok; [exact Hvisit |]. repeat split; simpl.
        - apply NoDup_nil_2.
        - by intros ?%elem_of_nil.
        - by intros ?%elem_of_empty.
        - by intros i a b ?. }
      apply visit_step in Hvisit as [_ Hin]. simpl in Hin.
      eapply (walk_ok_no_cycle mods _ x Hok); [|done].
      eapply walk_ok_closed; [done | | done].
      destruct Hok as (_ & Hmem & _). by apply Hmem.
    + apply checkCircular_Throw in Hrun as (a & b & ->). eauto.
    + by destruct (cycle_check_fuel mods moduleId).
Qed.

Lemma cycle_check_returns_iff_witness :
  ∃ a b, cycle_check (modules fullCycle) "a"
         = Throw (CircularDependency a (Some b)).
Proof.
  apply (proj2 (cycle_check_returns_iff (modules fullCycle) "a") "a").
  - apply rtc_refl.
  - apply fullCycle_on_cycle.
Defined.

(** ** Loading: frame, success and failure *)

Lemma untouched_refl y st : untouched y st st.
Proof. by repeat split. Qed.

Lemma untouched_trans y st1 st2 st3 :
  untouched y st1 st2 → untouched y st2 st3 → untouched y st1 st3.
Proof.
  intros (Hl1 & Hs1 & Hm1 & Hi1) (Hl2 & Hs2 & Hm2 & Hi2).
  repeat split; try congruence; rewrite ?Hl2, ?Hl1; tauto.
Qed.

Lemma finish_load_untouched moduleId options module st y :
  y ≠ moduleId →
  untouched y st (finish_load moduleId options module st).2.
Proof.
  intros Hy.
  pose proof (finish_load_inits moduleId options module st y Hy) as Hinit.
  revert Hinit. unfold finish_load, deref, bind, gets. simpl.
  destruct (init (default module (JMap.get moduleId (modules st))))
    as [[|msg]|]; unfold call_hook, emit, update_state, bind, ret, throw; simpl;
    intros Hinit; repeat split; simpl; try done;
    rewrite ?JSet_elem_of_add, ?lookup_insert_ne, ?JMapFacts.get_modify,
      ?decide_False by done; naive_solver.
Qed.

Section LoadFrame.
Variable fuel : nat.
Hypothesis IH : ∀ x options st y,
  ¬ reaches (modules st) x y →
  untouched y st (loadModule fuel x options st).2.

Lemma checkDependencies_frame x st y :
  (¬ on_cycle (modules st) x →
   ∀ d, tc (depends_on (modules st)) x d → ¬ reaches (modules st) d y) →
  untouched y st
    (checkDependencies (λ d, loadModule fuel d []) x st).2.
Proof.
  intros Hfar. rewrite checkDependencies_unfold.
  destruct (JMap.get x (modules st)) as [module|] eqn:Hget;
    [|apply untouched_refl].
  destruct (cycle_check _ _) as [k| |] eqn:Hcheck; [|apply untouched_refl..].
  apply cycle_check_Return in Hcheck. specialize (Hfar Hcheck).
  destruct (getDependencyOrder _ _) as [dependencyOrder| |] eqn:Hord;
    [|apply untouched_refl..].
  apply (for_of_invariant _ (λ st1, load_step st st1 ∧ untouched y st st1));
    [|split; [apply load_step_refl | apply untouched_refl]].
  intros d st1 Hd [Hstep Hsame].
  unfold load_dependency, bind, gets. simpl.
  destruct (JSet.has d (loadedModules st1)); [done |].
  pose proof (loadModule_step fuel d [] st1) as Hstep1.
  pose proof (IH d [] st1 y) as Hsame1.
  assert (¬ reaches (modules st1) d y) as Hfar1.
  { unfold reaches. rewrite (load_step_rtc _ _ _ _ Hstep).
    by eapply Hfar, getDependencyOrder_reached. }
  destruct (loadModule fuel d [] st1) as [[| |] st2]; simpl in *;
    (split; [by eapply load_step_trans |]);
    eapply untouched_trans; eauto.
Qed.
End LoadFrame.

Lemma loadModule_frame fuel x options st y :
  ¬ reaches (modules st) x y →
  untouched y st (loadModule fuel x options st).2.
Proof.
  revert x options st y.
  induction fuel as [|fuel IH]; intros x options st y Hfar;
    [apply untouched_refl |].
  rewrite loadModule_unfold.
  destruct (JMap.get x (modules st)) as [module|] eqn:Hget;
    [|apply untouched_refl].
  destruct (JSet.has x (loadedModules st)); [apply untouched_refl |].
  pose proof (checkDependencies_frame fuel IH x st y) as Hdeps.
  assert (untouched y st
            (checkDependencies (λ d, loadModule fuel d []) x st).2) as Hd.
  { apply Hdeps. intros _ d Hd Hdy. apply Hfar.
    apply tc_rtc. by eapply tc_rtc_trans. }
  clear Hdeps.
  destruct (checkDependencies _ _ _) as [[[]| |] st1]; simpl in Hd;
    [|done|done].
  eapply untouched_trans; [exact Hd |].
  apply finish_load_untouched. intros ->. apply Hfar, rtc_refl.
Qed.

(** X4.  [loadModule] leaves alone every module that the loaded module
    does not reach through dependencies: such a module keeps its place
    in or out of the loaded set, its status and its descriptor, and its
    [init] hook is not called.  This holds however the load ends. *)
Theorem loadModule_leaves_unrelated (fuel : nat) (moduleId : string)
    (options : list (string * string)) (st : system) (y : string) :
  ¬ reaches (modules st) moduleId y →
  let st' := state_after (loadModule fuel moduleId options) st in
  (y ∈ loadedModules st' ↔ y ∈ loadedModules st) ∧
  moduleStates st' !! y = moduleStates st !! y ∧
  JMap.get y (modules st') = JMap.get y (modules st) ∧
  init_calls y (trace st') = init_calls y (trace st).
Proof. intros Hfar. by apply loadModule_frame. Qed.

Lemma scenarioA_voice_unreached : ¬ reaches (modules scenarioA) "voice" "tts".
Proof.
  assert (∀ x y, reaches (modules scenarioA) x y → rankA y ≤ rankA x) as Hle.
  { intros x y Hxy. induction Hxy as [|a b c Hab _ IH]; [done |].
    etrans; [exact IH |].
    assert (acyclic (modules scenarioA)) as _
      by (apply (ranked_acyclic rankA); by vm_compute).
    destruct Hab as (m & Hm%JMapFacts.get_Some_elem & Hb).
    assert (ranked rankA (modules scenarioA) = true) as Hr by (by vm_compute).
    unfold ranked in Hr. rewrite forallb_forall in Hr.
    apply list_elem_of_In, Hr in Hm. simpl in Hm.
    rewrite forallb_forall in Hm. apply list_elem_of_In, Hm in Hb.
    apply Nat.ltb_lt in Hb. lia. }
  intros H%Hle. vm_compute in H. lia.
Qed.

Lemma loadModule_leaves_unrelated_witness :
  JMap.get "tts"
    (modules (state_after (loadModule load_fuel "voice" []) scenarioA))
  = JMap.get "tts" (modules scenarioA).
Proof.
  apply (loadModule_leaves_unrelated load_fuel "voice" [] scenarioA "tts").
  apply scenarioA_voice_unreached.
Defined.

(** When [checkDependencies] returns, everything the module reaches is
    loaded. *)
Lemma checkDependencies_Return_loaded fuel moduleId st st1 y :
  checkDependencies (λ d, loadModule fuel d []) moduleId st
  = (Return tt, st1) →
  tc (depends_on (modules st)) moduleId y →
  y ∈ loadedModules st1.
Proof.
  rewrite checkDependencies_unfold. intros Hrun Hy.
  assert (is_Some (JMap.get moduleId (modules st))) as [module Hget].
  { inversion Hy as [? ? (m & Hm & _)|? ? ? (m & Hm & _) _]; eauto. }
  rewrite Hget in Hrun.
  destruct (cycle_check _ _) as [k| |]; try discriminate.
  destruct (getDependencyOrder _ _) as [dependencyOrder| |] eqn:Hord;
    try discriminate.
  apply (for_of_Return (load_dependency (λ d, loadModule fuel d []))
           (load_step st) (λ x s, x ∈ loadedModules s)
           dependencyOrder st st1);
    [| | | exact Hrun | apply load_step_refl |].
  - intros x s1 _ Hs1. eapply load_step_trans; [exact Hs1 |].
    unfold load_dependency, bind, gets. simpl.
    destruct (JSet.has x (loadedModules s1)); [apply load_step_refl |].
    pose proof (loadModule_step fuel x [] s1) as H1.
    by destruct (loadModule fuel x [] s1) as [[| |] s2].
  - intros x s1 s2 _ _. unfold load_dependency, bind, gets. simpl.
    destruct (JSet.has x (loadedModules s1)) eqn:Hx.
    + intros [= <-]. by apply JSet_has_true.
    + pose proof (loadModule_Return_loaded fuel x [] s1) as Hret.
      destruct (loadModule fuel x [] s1) as [[m| |] s3]; try discriminate.
      intros [= <-]. by eapply Hret.
  - intros x z s1 _ _ Hx. unfold load_dependency, bind, gets. simpl.
    destruct (JSet.has z (loadedModules s1)); [done |].
    pose proof (loadModule_step fuel z [] s1) as (_ & Hmono & _).
    destruct (loadModule fuel z [] s1) as [[| |] s2]; simpl in *; auto.
  - inversion Hy as [a b (m & Hm & Hb)|a b c (m & Hm & Hb) Hrest]; subst.
    + rewrite Hget in Hm. injection Hm as <-.
      eapply getDependencyOrder_complete; [exact Hord | exact Hb |].
      apply rtc_refl.
    + rewrite Hget in Hm. injection Hm as <-.
      eapply getDependencyOrder_complete; [exact Hord | exact Hb |].
      by apply tc_rtc.
Qed.

(** X5.  When [loadModule] returns for a module that was not loaded, the
    module and everything it reaches through dependencies are loaded,
    and the module has status [loaded] in the status map and in its
    descriptor. *)
Theorem loadModule_loads_dependencies (fuel : nat) (moduleId : string)
    (options : list (string * string)) (st st' : system)
    (module : moduleObject) :
  loadModule (S fuel) moduleId options st = (Return module, st') →
  JSet.has moduleId (loadedModules st) = false →
  (∀ y, reaches (modules st) moduleId y → y ∈ loadedModules st') ∧
  moduleStates st' !! moduleId = Some loaded ∧
  JMap.get moduleId (modules st') = Some module ∧
  state module = loaded.
Proof.
  intros Hrun Hload. rewrite loadModule_unfold in Hrun.
  destruct (JMap.get moduleId (modules st)) as [module0|] eqn:Hget;
    [|discriminate].
  rewrite Hload in Hrun.
  pose proof (loadModule_step_deps fuel moduleId st) as Hdeps.
  pose proof (checkDependencies_Return_loaded fuel moduleId st) as Hall.
  destruct (checkDependencies _ _ _) as [[[]| |] st1]; try discriminate.
  simpl in Hdeps.
  pose proof (finish_load_step moduleId options module0 st1) as Hfin.
  rewrite Hrun in Hfin. simpl in Hfin.
  assert (is_Some (JMap.get moduleId (modules st1))) as Hsome.
  { apply (load_step_is_Some _ _ _ Hdeps). by rewrite Hget. }
  specialize (Hfin Hsome).
  apply finish_load_Return in Hrun as (Hin & Hm & Hstate & Hstatus & _);
    [|done].
  split; [|done].
  intros y Hy. apply rtc_tc in Hy as [->|Hy]; [done |].
  destruct Hfin as (_ & Hmono & _). by eapply Hmono, Hall.
Qed.

Lemma loadModule_loads_dependencies_witness :
  "audio" ∈ loadedModules ttsLoaded.
Proof.
  refine (proj1 (loadModule_loads_dependencies 1 "tts" [] scenarioA ttsLoaded
                   (Module_ "tts" None None ["audio"; "voice"] []
                            (Some noop) (Some noop) (Some noop) [] loaded 0)
                   _ _) "audio" _).
  - vm_compute. reflexivity.
  - vm_compute. reflexivity.
  - apply rtc_once. eexists. split; [by vm_compute |]. apply list_elem_of_here.
Defined.

Lemma finish_load_loaded moduleId options module st m st' y :
  finish_load moduleId options module st = (Return m, st') →
  y ∈ loadedModules st' → y = moduleId ∨ y ∈ loadedModules st.
Proof.
  unfold finish_load, deref, bind, gets. simpl.
  destruct (init (default module (JMap.get moduleId (modules st))))
    as [[|msg]|]; unfold call_hook, emit, update_state, bind, ret, throw;
    simpl; intros [= _ <-]; simpl; try done; by rewrite JSet_elem_of_add.
Qed.

Lemma finish_load_Throw moduleId options module st e st' :
  finish_load moduleId options module st = (Throw e, st') →
  st' = record (InitCalled moduleId options) st.
Proof.
  unfold finish_load, deref, bind, gets. simpl.
  destruct (init (default module (JMap.get moduleId (modules st))))
    as [[|msg]|]; unfold call_hook, emit, update_state, bind, ret, throw;
    simpl; by intros [= _ <-].
Qed.

Lemma kept_loaded_refl st : kept_loaded st st.
Proof.
  exists []. rewrite app_nil_r. split; [done |].
  split; [apply load_step_refl |]. by intros y m ?%elem_of_nil.
Qed.

Lemma kept_loaded_trans st1 st2 st3 :
  kept_loaded st1 st2 → kept_loaded st2 st3 → kept_loaded st1 st3.
Proof.
  intros (t1 & Ht1 & Hs1 & Hk1) (t2 & Ht2 & Hs2 & Hk2).
  exists (t1 ++ t2). split; [by rewrite Ht2, Ht1, app_assoc |].
  split; [by eapply load_step_trans |].
  intros y m [Hy|Hy]%elem_of_app; [|by eapply Hk2].
  destruct Hs2 as (_ & Hmono & _). by eapply Hmono, Hk1.
Qed.

Lemma finish_load_kept moduleId options module st :
  is_Some (JMap.get moduleId (modules st)) →
  kept_loaded st (finish_load moduleId options module st).2.
Proof.
  intros Hreg.
  pose proof (finish_load_step moduleId options module st Hreg) as Hstep.
  pose proof (finish_load_fuel moduleId options module st) as Hfuel.
  destruct (finish_load moduleId options module st) as [[m|e|] st'] eqn:Hrun;
    simpl in *; [| |done].
  - destruct (finish_load_Return _ _ _ _ _ _ Hrun Hreg)
      as (Hin & _ & _ & _ & Ht).
    eexists. split; [exact Ht |]. split; [done |].
    intros y m' Hy. destruct (init m); simpl in Hy.
    + apply elem_of_cons in Hy as [[=]|Hy].
      apply list_elem_of_singleton in Hy as [= -> _]. done.
    + apply list_elem_of_singleton in Hy as [= -> _]. done.
  - apply finish_load_Throw in Hrun as ->.
    exists [InitCalled moduleId options]. split; [done |].
    split; [done |].
    intros y m' Hy. by apply list_elem_of_singleton in Hy.
Qed.

(** A load takes nothing back, however it ends. *)
Lemma loadModule_kept fuel moduleId options st :
  kept_loaded st (loadModule fuel moduleId options st).2.
Proof.
  revert moduleId options st.
  induction fuel as [|fuel IH]; intros moduleId options st;
    [apply kept_loaded_refl |].
  rewrite loadModule_unfold.
  destruct (JMap.get moduleId (modules st)) as [module|] eqn:Hget;
    [|apply kept_loaded_refl].
  destruct (JSet.has moduleId (loadedModules st)); [apply kept_loaded_refl |].
  assert (kept_loaded st
            (checkDependencies (λ d, loadModule fuel d []) moduleId st).2)
    as Hdeps.
  { rewrite checkDependencies_unfold, Hget.
    destruct (cycle_check _ _); [|apply kept_loaded_refl..].
    destruct (getDependencyOrder _ _) as [dependencyOrder| |];
      [|apply kept_loaded_refl..].
    apply for_of_invariant; [|apply kept_loaded_refl].
    intros d st1 _ H1. eapply kept_loaded_trans; [exact H1 |].
    unfold load_dependency, bind, gets. simpl.
    destruct (JSet.has d (loadedModules st1)); [apply kept_loaded_refl |].
    specialize (IH d [] st1).
    by destruct (loadModule fuel d [] st1) as [[| |] st2]. }
  destruct (checkDependencies _ _ _) as [[[]| |] st1]; simpl in *;
    [|done|done].
  eapply kept_loaded_trans; [exact Hdeps |].
  destruct Hdeps as (_ & _ & Hstep & _).
  apply finish_load_kept, (load_step_is_Some _ _ _ Hstep). by eexists.
Qed.

(** X6.  A [loadModule] that throws does not mark the module loaded and
    does not change its status, and it rolls nothing back: what was
    loaded before stays loaded, every dependency that was loaded on the
    way, announced by its [moduleLoaded] event, is loaded at the end,
    and when the call got as far as the [init] hook of the module
    itself, the last event being the call of that hook, every module
    that the module reaches through dependencies is loaded at the
    end. *)
Theorem loadModule_failure (fuel : nat) (moduleId : string)
    (options : list (string * string)) (st st' : system) (e : error) :
  loadModule (S fuel) moduleId options st = (Throw e, st') →
  JSet.has moduleId (loadedModules st) = false →
  (moduleId ∉ loadedModules st') ∧
  moduleStates st' !! moduleId = moduleStates st !! moduleId ∧
  JMap.get moduleId (modules st') = JMap.get moduleId (modules st) ∧
  (∀ x, x ∈ loadedModules st → x ∈ loadedModules st') ∧
  ∃ t, trace st' = trace st ++ t ∧
       (∀ y m, Emit "moduleLoaded" (ModuleData y m) ∈ t →
               y ∈ loadedModules st') ∧
       (∀ t0, t = t0 ++ [InitCalled moduleId options] →
              ∀ y, tc (depends_on (modules st)) moduleId y →
                   y ∈ loadedModules st').
Proof.
  intros Hrun Hload.
  pose proof (loadModule_step (S fuel) moduleId options st) as Hstep.
  pose proof (loadModule_kept (S fuel) moduleId options st) as Hkept.
  rewrite Hrun in Hstep, Hkept. simpl in Hstep, Hkept.
  destruct Hstep as (_ & Hmono & _).
  destruct Hkept as (t & Ht & _ & Hkept).
  apply JSet_has_false in Hload as Hout.
  assert (∀ t0, t = t0 ++ [InitCalled moduleId options] →
                init_calls moduleId (trace st')
                ≠ init_calls moduleId (trace st)) as Hcalled.
  { intros t0 ->. rewrite Ht, !init_calls_app. unfold init_calls at 3.
    simpl. rewrite bool_decide_eq_true_2 by done. simpl. lia. }
  rewrite loadModule_unfold in Hrun.
  destruct (JMap.get moduleId (modules st)) as [module0|] eqn:Hget.
  2:{ injection Hrun as _ <-. rewrite Hget.
      split; [done |]. split; [done |]. split; [done |]. split; [done |].
      exists t. split; [done |]. split; [done |].
      intros t0 Ht0. by destruct (Hcalled t0). }
  rewrite Hload in Hrun.
  pose proof (checkDependencies_frame fuel (loadModule_frame fuel)
                moduleId st moduleId) as Hframe.
  pose proof (checkDependencies_Return_loaded fuel moduleId st) as Hall.
  assert (untouched moduleId st
            (checkDependencies (λ d, loadModule fuel d []) moduleId st).2)
    as (Hl & Hs & Hm & Hinits).
  { apply Hframe. intros Hacyc d Hd Hback. apply Hacyc.
    by eapply tc_rtc_trans. }
  clear Hframe.
  destruct (checkDependencies _ _ _) as [[[]| |] st1]; simpl in *;
    try discriminate.
  - apply finish_load_Throw in Hrun as Hst'. subst st'. simpl in *.
    rewrite Hl, Hs, Hm, Hget.
    split; [done |]. split; [done |]. split; [done |]. split; [done |].
    exists t. split; [done |]. split; [done |].
    intros t0 _ y Hy. by apply (Hall st1 y eq_refl).
  - injection Hrun as _ <-. rewrite Hl, Hs, Hm, Hget.
    split; [done |]. split; [done |]. split; [done |]. split; [done |].
    exists t. split; [done |]. split; [done |].
    intros t0 Ht0. by destruct (Hcalled t0).
Qed.

Lemma loadModule_failure_witness :
  "audio" ∈ loadedModules
              (state_after (loadModule load_fuel "jaw" []) failingOverAudio).
Proof.
  destruct (loadModule_failure 1 "jaw" [] failingOverAudio
              (state_after (loadModule load_fuel "jaw" []) failingOverAudio)
              (HookError "boom"))
    as (_ & _ & _ & _ & t & Ht & _ & Hown).
  - vm_compute. reflexivity.
  - vm_compute. reflexivity.
  - eapply (Hown [InitCalled "audio" []; _]).
    + eapply app_inv_head. rewrite <- Ht. vm_compute. reflexivity.
    + apply tc_once. eexists. split; [by vm_compute |].
      apply list_elem_of_here.
Defined.

(** ** The loaded set is closed under dependencies *)

Lemma depends_on_with_state s k (m : list (string * moduleObject)) x y :
  depends_on (JMap.modify (with_state s) k m) x y ↔ depends_on m x y.
Proof.
  unfold depends_on. rewrite JMapFacts.get_modify.
  case_decide as Hx; [|done]. subst x.
  destruct (JMap.get k m) as [v|]; simpl.
  - split; intros (m0 & [= <-] & Hy); eexists; (split; [done |]); done.
  - split; intros (m0 & [=] & _).
Qed.

Lemma deps_loaded_ext st st' :
  modules st' = modules st → loadedModules st' = loadedModules st →
  deps_loaded st → deps_loaded st'.
Proof. unfold deps_loaded. intros -> ->. done. Qed.

Lemma finish_load_deps_loaded moduleId options module st :
  deps_loaded st →
  (∀ y, depends_on (modules st) moduleId y → y ∈ loadedModules st) →
  deps_loaded (finish_load moduleId options module st).2.
Proof.
  intros Hinv Hdeps.
  assert (∀ st1 : system,
            modules st1 = modules st → loadedModules st1 = loadedModules st →
            ∀ e, deps_loaded
                   (record e
                      (set_modules (JMap.modify (with_state loaded) moduleId)
                         (set_moduleStates <[moduleId := loaded]>
                            (set_loadedModules (JSet.add moduleId) st1)))))
    as Hfin.
  { intros st1 Hm Hl e x y. simpl. rewrite Hm, Hl.
    rewrite depends_on_with_state, !JSet_elem_of_add.
    intros [->|Hx] Hxy; right; [by apply Hdeps | by eapply Hinv]. }
  unfold finish_load, deref, bind, gets. simpl.
  destruct (init (default module (JMap.get moduleId (modules st))))
    as [[|msg]|]; unfold call_hook, emit, update_state, bind, ret, throw; simpl.
  - by apply Hfin.
  - by apply (deps_loaded_ext st).
  - by apply Hfin.
Qed.

Section LoadClosed.
Variable fuel : nat.
Hypothesis IH : ∀ x options st,
  deps_loaded st → deps_loaded (loadModule fuel x options st).2.

Lemma checkDependencies_deps_loaded x st :
  deps_loaded st →
  deps_loaded (checkDependencies (λ d, loadModule fuel d []) x st).2.
Proof.
  intros Hinv. rewrite checkDependencies_unfold.
  destruct (JMap.get x (modules st)) as [module|]; [|done].
  destruct (cycle_check _ _); [|done|done].
  destruct (getDependencyOrder _ _) as [dependencyOrder| |]; [|done|done].
  apply for_of_invariant; [|done].
  intros d st1 _ H1. unfold load_dependency, bind, gets. simpl.
  destruct (JSet.has d (loadedModules st1)); [done |].
  specialize (IH d [] st1 H1).
  by destruct (loadModule fuel d [] st1) as [[| |] st2].
Qed.
End LoadClosed.

Lemma loadModule_deps_loaded fuel moduleId options st :
  deps_loaded st → deps_loaded (loadModule fuel moduleId options st).2.
Proof.
  revert moduleId options st.
  induction fuel as [|fuel IH]; intros moduleId options st Hinv; [done |].
  rewrite loadModule_unfold.
  destruct (JMap.get moduleId (modules st)) as [module|] eqn:Hget; [|done].
  destruct (JSet.has moduleId (loadedModules st)); [done |].
  pose proof (checkDependencies_deps_loaded fuel IH moduleId st Hinv) as H1.
  pose proof (checkDependencies_Return_loaded fuel moduleId st) as Hall.
  pose proof (loadModule_step_deps fuel moduleId st) as Hstep.
  destruct (checkDependencies _ _ _) as [[[]| |] st1]; simpl in *;
    [|done|done].
  apply finish_load_deps_loaded; [done |].
  intros y Hy. apply (Hall st1 y eq_refl), tc_once.
  by apply (load_step_depends_on _ _ _ _ Hstep).
Qed.

Lemma unloadModule_deps_loaded moduleId st :
  deps_loaded st → deps_loaded (unloadModule moduleId st).2.
Proof.
  intros Hinv. rewrite unloadModule_eq.
  destruct (JMap.get moduleId (modules st)) as [module|] eqn:Hget; [|done].
  destruct (JSet.has moduleId (loadedModules st)); [|done].
  destruct (getDependents moduleId st) as [|d ds] eqn:Hnone; [|done].
  assert (∀ st1 : system,
            modules st1 = modules st → loadedModules st1 = loadedModules st →
            deps_loaded (unloaded_from moduleId module st1)) as Hfin.
  { intros st1 Hm Hl x y. simpl. rewrite Hm, Hl.
    rewrite depends_on_with_state, !JSet_elem_of_delete.
    intros [Hne Hx] Hxy. split; [|by eapply Hinv].
    intros ->. destruct Hxy as (mx & Hmx & Hdep).
    pose proof (getDependents_get x mx moduleId st Hmx Hdep) as Hin.
    rewrite Hnone in Hin. by apply elem_of_nil in Hin. }
  destruct (destroy module) as [[|msg]|]; simpl.
  - by apply Hfin.
  - by apply (deps_loaded_ext st).
  - by apply Hfin.
Qed.

(** X7.  If every dependency of a loaded module is loaded, this is still
    so after [loadModule], after [unloadModule] and after
    [handleModuleUninstall], whether they return or throw: a load adds a
    module after its dependencies, and an unload removes no module that
    a registered module depends on. *)
Theorem deps_loaded_preserved (st : system) :
  deps_loaded st →
  (∀ fuel moduleId options,
     deps_loaded (state_after (loadModule fuel moduleId options) st)) ∧
  (∀ moduleId, deps_loaded (state_after (unloadModule moduleId) st)) ∧
  (∀ data, deps_loaded (state_after (handleModuleUninstall data) st)).
Proof.
  intros Hinv. unfold state_after. split; [|split].
  - intros. by apply loadModule_deps_loaded.
  - intros. by apply unloadModule_deps_loaded.
  - intros data. unfold handleModuleUninstall, bind.
    pose proof (unloadModule_deps_loaded (d_moduleId data) st Hinv) as H1.
    pose proof (unloadModule_Return (d_moduleId data) st) as Hout.
    destruct (unloadModule (d_moduleId data) st) as [[[]| |] st1];
      simpl in *; [|done|done].
    specialize (Hout st1 eq_refl).
    intros x y Hx (m & Hm & Hy). simpl in *.
    assert (x ≠ d_moduleId data) as Hne by (by intros ->).
    rewrite JMapFacts.get_delete_ne in Hm by done.
    apply (H1 x y Hx). by exists m.
Qed.

Lemma deps_loaded_preserved_witness :
  deps_loaded (state_after (unloadModule "tts") ttsLoaded).
Proof.
  refine (proj1 (proj2 (deps_loaded_preserved ttsLoaded _)) "tts").
  intros x y Hx Hxy.
  change (loadedModules ttsLoaded) with ["audio"; "voice"; "tts"] in *.
  destruct Hxy as (m & Hm & Hy).
  repeat (apply elem_of_cons in Hx as [->|Hx];
          [vm_compute in Hm; injection Hm as <-; simpl in Hy; set_solver |]).
  by apply elem_of_nil in Hx.
Defined.

(** ** Registering a loaded module, and uninstalling *)

(** X8.  [registerModule] on a loaded id replaces the descriptor and
    sets the status to [registered], and the id stays in the loaded set:
    a following [loadModule] returns the new descriptor at once and
    calls no hook, so the new [init] never runs, and
    [handleModuleInstall] of a loaded id returns without a hook call. *)
Theorem registerModule_on_loaded (st : system) (moduleId : string)
    (moduleConfig : moduleConfig) (now : Z) :
  moduleId ∈ loadedModules st →
  let st1 := state_after (registerModule moduleId moduleConfig now) st in
  moduleId ∈ loadedModules st1 ∧
  moduleStates st1 !! moduleId = Some registered ∧
  state <$> JMap.get moduleId (modules st1) = Some registered ∧
  (∀ fuel options,
     loadModule (S fuel) moduleId options st1
     = (Return (new_module moduleId moduleConfig now), st1)) ∧
  (∀ action,
     handleModuleInstall (MessageData moduleId (Some moduleConfig) action)
       now st
     = (Return tt, st1)).
Proof.
  intros Hin st1. subst st1. unfold state_after.
  rewrite registerModule_eq. simpl.
  rewrite lookup_insert_eq, JMapFacts.get_set_eq. simpl.
  assert (∀ fuel options,
            loadModule (S fuel) moduleId options
              (set_moduleStates <[moduleId := registered]>
                 (set_modules
                    (JMap.set moduleId (new_module moduleId moduleConfig now))
                    st))
            = (Return (new_module moduleId moduleConfig now),
               set_moduleStates <[moduleId := registered]>
                 (set_modules
                    (JMap.set moduleId (new_module moduleId moduleConfig now))
                    st))) as Hload.
  { intros fuel options. rewrite loadModule_unfold. simpl.
    rewrite JMapFacts.get_set_eq.
    by rewrite (proj2 (JSet_has_true moduleId (loadedModules st)) Hin). }
  repeat split; try done.
  intros action. unfold handleModuleInstall, registerModule', bind.
  cbn [d_moduleId d_moduleConfig].
  rewrite registerModule_eq. unfold load_fuel. by rewrite Hload.
Qed.

Lemma registerModule_on_loaded_witness :
  moduleStates
    (state_after (registerModule "audio" (depsConfig ["tts"]) 3) ttsLoaded)
    !! "audio"
  = Some registered.
Proof.
  refine (proj1 (proj2 (registerModule_on_loaded ttsLoaded "audio"
                          (depsConfig ["tts"]) 3 _))).
  change (loadedModules ttsLoaded) with ["audio"; "voice"; "tts"].
  set_solver.
Defined.

(** X9.  When [handleModuleUninstall] returns, the module is gone from
    the module map, the status map and the loaded set, and the entries
    of the other modules are as before; when it throws, nothing is
    removed: the module map, the status map and the loaded set are
    unchanged. *)
Theorem handleModuleUninstall_outcome (data : messageData) (st st' : system) :
  (handleModuleUninstall data st = (Return tt, st') →
     JMap.get (d_moduleId data) (modules st') = None ∧
     moduleStates st' !! d_moduleId data = None ∧
     (d_moduleId data ∉ loadedModules st') ∧
     (∀ other, other ≠ d_moduleId data →
        JMap.get other (modules st') = JMap.get other (modules st) ∧
        moduleStates st' !! other = moduleStates st !! other ∧
        (other ∈ loadedModules st' ↔ other ∈ loadedModules st))) ∧
  (∀ e, handleModuleUninstall data st = (Throw e, st') →
     modules st' = modules st ∧
     moduleStates st' = moduleStates st ∧
     loadedModules st' = loadedModules st).
Proof.
  unfold handleModuleUninstall, bind. rewrite unloadModule_eq.
  set (moduleId := d_moduleId data).
  destruct (JMap.get moduleId (modules st)) as [module|] eqn:Hget.
  2:{ split; [discriminate |]. by intros e [= _ <-]. }
  assert (∀ st1 : system,
            modules st1 = modules st → moduleStates st1 = moduleStates st →
            loadedModules st1 = loadedModules st →
            let st2 := unloaded_from moduleId module st1 in
            ∀ st3, st3 = set_moduleStates (delete moduleId)
                           (set_modules (JMap.delete moduleId) st2) →
            JMap.get moduleId (modules st3) = None ∧
            moduleStates st3 !! moduleId = None ∧
            (moduleId ∉ loadedModules st3) ∧
            (∀ other, other ≠ moduleId →
               JMap.get other (modules st3) = JMap.get other (modules st) ∧
               moduleStates st3 !! other = moduleStates st !! other ∧
               (other ∈ loadedModules st3 ↔ other ∈ loadedModules st)))
    as Hgone.
  { intros st1 Hm Hs Hl st2 st3 ->. simpl. rewrite Hm, Hs, Hl.
    rewrite JMapFacts.get_delete_eq, lookup_delete_eq.
    split; [done |]. split; [done |].
    split; [rewrite JSet_elem_of_delete; naive_solver |].
    intros other Hne.
    rewrite JMapFacts.get_delete_ne, JMapFacts.get_modify,
      decide_False by done.
    rewrite lookup_delete_ne, lookup_insert_ne by done.
    rewrite JSet_elem_of_delete. naive_solver. }
  destruct (JSet.has moduleId (loadedModules st)) eqn:Hload.
  - destruct (getDependents moduleId st) as [|d ds].
    + destruct (destroy module) as [[|msg]|]; simpl.
      * split; [|discriminate]. intros [= <-].
        exact (Hgone (record (DestroyCalled moduleId) st)
                 eq_refl eq_refl eq_refl _ eq_refl).
      * split; [discriminate |]. by intros e [= _ <-].
      * split; [|discriminate]. intros [= <-].
        exact (Hgone st eq_refl eq_refl eq_refl _ eq_refl).
    + split; [discriminate |]. by intros e [= _ <-].
  - simpl. split; [|discriminate]. intros [= <-]. simpl.
    rewrite JMapFacts.get_delete_eq, lookup_delete_eq.
    apply JSet_has_false in Hload.
    split; [done |]. split; [done |]. split; [done |].
    intros other Hne.
    by rewrite JMapFacts.get_delete_ne, lookup_delete_ne.
Qed.

Lemma handleModuleUninstall_outcome_witness :
  JMap.get "tts"
    (modules (state_after
                (handleModuleUninstall (MessageData "tts" None None))
                ttsLoaded))
  = None.
Proof.
  refine (proj1 (proj1 (handleModuleUninstall_outcome
                          (MessageData "tts" None None) ttsLoaded
                          (state_after
                             (handleModuleUninstall
                                (MessageData "tts" None None))
                             ttsLoaded)) _)).
  vm_compute. reflexivity.
Defined.

(** X11.  [handleModuleReload] on a module that is not loaded only
    registers it again.  On a loaded module that a registered module
    depends on, it throws the error of [unloadModule] and changes
    nothing, the new configuration is dropped.  On a loaded module
    without dependents and a message without [moduleConfig], the module
    is unloaded first and the registration then fails: the module is
    left unloaded. *)
Theorem handleModuleReload_cases (st : system) (moduleId : string)
    (action : option string) (now : Z) :
  (∀ moduleConfig,
     moduleId ∉ loadedModules st →
     handleModuleReload (MessageData moduleId (Some moduleConfig) action)
       now st
     = (Return tt, state_after (registerModule moduleId moduleConfig now) st))
  ∧
  (∀ moduleConfig d,
     moduleId ∈ loadedModules st →
     is_Some (JMap.get moduleId (modules st)) →
     depends_on (modules st) d moduleId →
     handleModuleReload (MessageData moduleId moduleConfig action) now st
     = (Throw (CannotUnload moduleId (getDependents moduleId st)), st))
  ∧
  (∀ module,
     moduleId ∈ loadedModules st →
     JMap.get moduleId (modules st) = Some module →
     getDependents moduleId st = [] →
     (∀ msg, destroy module ≠ Some (Throws msg)) →
     ∃ st',
       handleModuleReload (MessageData moduleId None action) now st
       = (Throw (TypeError "Cannot read properties of undefined"), st') ∧
       (moduleId ∉ loadedModules st') ∧
       moduleStates st' !! moduleId = Some unloaded ∧
       state <$> JMap.get moduleId (modules st') = Some unloaded).
Proof.
  unfold handleModuleReload, registerModule', bind, gets.
  cbn [d_moduleId d_moduleConfig fst snd].
  split; [|split].
  - intros moduleConfig Hload%JSet_has_false. by rewrite Hload.
  - intros moduleConfig d Hload%JSet_has_true [module Hget] (md & Hmd & Hdep).
    rewrite Hload, unloadModule_eq, Hget, Hload.
    pose proof (getDependents_get d md moduleId st Hmd Hdep) as Hin.
    destruct (getDependents moduleId st) as [|d0 ds]; [|done].
    by apply elem_of_nil in Hin.
  - intros module Hload%JSet_has_true Hget Hnone Hdestroy.
    rewrite Hload, unloadModule_eq, Hget, Hload, Hnone.
    assert (∀ st1 : system,
              modules st1 = modules st → loadedModules st1 = loadedModules st →
              let st2 := unloaded_from moduleId module st1 in
              (moduleId ∉ loadedModules st2) ∧
              moduleStates st2 !! moduleId = Some unloaded ∧
              state <$> JMap.get moduleId (modules st2) = Some unloaded)
      as Hfin.
    { intros st1 Hm Hl. simpl. rewrite Hm, Hl.
      rewrite JSet_elem_of_delete, lookup_insert_eq, JMapFacts.get_modify,
        decide_True, Hget by done.
      split; [naive_solver | done]. }
    destruct (destroy module) as [[|msg]|]; simpl.
    + eexists. split; [done |].
      exact (Hfin (record (DestroyCalled moduleId) st) eq_refl eq_refl).
    + by destruct (Hdestroy msg).
    + eexists. split; [done |]. exact (Hfin st eq_refl eq_refl).
Qed.

Lemma handleModuleReload_cases_witness :
  handleModuleReload (MessageData "audio" None None) 9 ttsLoaded
  = (Throw (CannotUnload "audio" (getDependents "audio" ttsLoaded)),
     ttsLoaded).
Proof.
  refine (proj1 (proj2 (handleModuleReload_cases ttsLoaded "audio" None 9))
            None "voice" _ _ _).
  - change (loadedModules ttsLoaded) with ["audio"; "voice"; "tts"].
    apply list_elem_of_here.
  - eexists. by vm_compute.
  - eexists. split; [by vm_compute |]. apply list_elem_of_here.
Defined.



(** ** When a load succeeds *)

Lemma loadable_step st st' moduleId :
  load_step st st' → loadable st moduleId → loadable st' moduleId.
Proof.
  intros Hstep Hok y Hy.
  apply (load_step_rtc _ _ _ _ Hstep) in Hy.
  destruct (Hok y Hy) as ((m & Hm & Hinit) & Hfree). split.
  - destruct Hstep as (Hmods & _). specialize (Hmods y).
    rewrite Hm in Hmods.
    destruct (JMap.get y (modules st')) as [m'|]; [|done].
    exists m'. split; [done |].
    apply (f_equal (fmap init)) in Hmods. simpl in Hmods.
    injection Hmods as Hmods. by rewrite Hmods.
  - unfold on_cycle. by rewrite (load_step_tc _ _ _ _ Hstep).
Qed.

Lemma loadable_reaches st x y :
  loadable st x → reaches (modules st) x y → loadable st y.
Proof.
  intros Hok Hxy z Hz. apply Hok. unfold reaches in *.
  by eapply (transitivity (R := rtc _)).
Qed.

Lemma finish_load_returns moduleId options module st m :
  JMap.get moduleId (modules st) = Some m →
  (∀ msg, init m ≠ Some (Throws msg)) →
  ∃ m' st', finish_load moduleId options module st = (Return m', st').
Proof.
  intros Hget Hinit. unfold finish_load, deref, bind, gets. simpl.
  rewrite Hget. simpl.
  destruct (init m) as [[|msg]|]; simpl; eauto. by destruct (Hinit msg).
Qed.

(** A module whose dependencies are all loaded is loaded by one level
    of the recursion. *)
Lemma loadModule_ready_Return fuel moduleId options st :
  loadable st moduleId →
  (∀ y, tc (depends_on (modules st)) moduleId y → y ∈ loadedModules st) →
  ∃ m st', loadModule (S fuel) moduleId options st = (Return m, st').
Proof.
  intros Hok Hall. rewrite loadModule_unfold.
  destruct (Hok moduleId (rtc_refl _ _)) as ((m & Hm & Hinit) & _).
  rewrite Hm. destruct (JSet.has moduleId (loadedModules st)); [eauto |].
  rewrite checkDependencies_unfold, Hm.
  destruct (cycle_check_free_Return (modules st) moduleId) as [k ->].
  { intros x Hx. by apply Hok. }
  destruct (getDependencyOrder_free_Return (modules st) (dependencies m))
    as [dependencyOrder Hord].
  { intros d x Hd Hx. apply Hok. eapply rtc_l; [|exact Hx]. by exists m. }
  rewrite Hord, for_of_all_loaded.
  - by eapply finish_load_returns.
  - intros x Hx. by eapply Hall, getDependencyOrder_reached.
Qed.

(** X10.  [loadModule] returns for a module when everything the module
    reaches through dependencies is registered, lies on no dependency
    cycle, and has no [init] hook that throws. *)
Theorem loadModule_succeeds (fuel : nat) (moduleId : string)
    (options : list (string * string)) (st : system) :
  loadable st moduleId →
  ∃ m st', loadModule (S (S fuel)) moduleId options st = (Return m, st').
Proof.
  intros Hok. rewrite loadModule_unfold.
  destruct (Hok moduleId (rtc_refl _ _)) as ((m & Hm & Hinit) & _).
  rewrite Hm. destruct (JSet.has moduleId (loadedModules st)); [eauto |].
  pose proof (loadModule_step_deps (S fuel) moduleId st) as Hstep.
  assert (∃ st1, checkDependencies (λ d, loadModule (S fuel) d []) moduleId st
                 = (Return tt, st1)) as [st1 Hdeps].
  { rewrite checkDependencies_unfold, Hm.
    destruct (cycle_check_free_Return (modules st) moduleId) as [k ->].
    { intros x Hx. by apply Hok. }
    destruct (getDependencyOrder_free_Return (modules st) (dependencies m))
      as [dependencyOrder Hord].
    { intros d x Hd Hx. apply Hok. eapply rtc_l; [|exact Hx]. by exists m. }
    rewrite Hord.
    assert (∀ l2 l1 s,
              dependencyOrder = l1 ++ l2 → load_step st s →
              (∀ x, x ∈ l1 → x ∈ loadedModules s) →
              ∃ s', for_of l2
                      (load_dependency (λ d, loadModule (S fuel) d [])) s
                    = (Return tt, s')) as Hloop.
    { induction l2 as [|d l2 IH]; intros l1 s Hl Hs Hdone; [by eexists |].
      rewrite for_of_cons. unfold load_dependency at 1. unfold bind, gets.
      simpl.
      destruct (JSet.has d (loadedModules s)) eqn:Hd.
      - apply (IH (l1 ++ [d])); [by rewrite <- app_assoc | done |].
        intros x [Hx| ->%list_elem_of_singleton]%elem_of_app; [auto |].
        by apply JSet_has_true.
      - assert (tc (depends_on (modules st)) moduleId d) as Hreach.
        { eapply getDependencyOrder_reached; [exact Hm | exact Hord |].
          rewrite Hl. set_solver. }
        destruct (loadModule_ready_Return fuel d [] s) as (m' & s2 & Hrun).
        + eapply loadable_step; [exact Hs |].
          eapply loadable_reaches; [exact Hok | by apply tc_rtc].
        + intros y Hy. apply Hdone.
          apply (load_step_tc _ _ _ _ Hs) in Hy.
          by eapply dependencyOrder_closed.
        + pose proof (loadModule_step (S fuel) d [] s) as Hs2.
          pose proof (loadModule_Return_loaded _ _ _ _ _ _ Hrun) as Hd2.
          rewrite Hrun in Hs2 |- *. simpl in Hs2.
          apply (IH (l1 ++ [d])); [by rewrite <- app_assoc | |].
          * by eapply load_step_trans.
          * destruct Hs2 as (_ & Hmono & _).
            intros x [Hx| ->%list_elem_of_singleton]%elem_of_app; auto. }
    apply (Hloop dependencyOrder []); [done | apply load_step_refl |].
    by intros x ?%elem_of_nil. }
  rewrite Hdeps in Hstep |- *. simpl in Hstep.
  destruct (loadable_step _ _ _ Hstep Hok moduleId (rtc_refl _ _))
    as ((m1 & Hm1 & Hinit1) & _).
  by eapply finish_load_returns.
Qed.

Lemma scenarioA_loadable : loadable scenarioA "tts".
Proof.
  assert (∀ y, reaches (modules scenarioA) "tts" y →
               y = "tts" ∨ y = "voice" ∨ y = "audio") as Hset.
  { intros y Hy.
    assert (∀ a b, depends_on (modules scenarioA) a b →
                   (a = "tts" ∨ a = "voice" ∨ a = "audio") →
                   (b = "tts" ∨ b = "voice" ∨ b = "audio")) as Hedge.
    { intros a b (ma & Hma & Hb) [->|[->| ->]]; vm_compute in Hma;
        injection Hma as <-; simpl in Hb; set_solver. }
    assert (∀ a, reaches (modules scenarioA) a y →
                 (a = "tts" ∨ a = "voice" ∨ a = "audio") →
                 (y = "tts" ∨ y = "voice" ∨ y = "audio")) as Hpath.
    { intros a Ha. induction Ha as [|a b c Hab _ IH]; [auto |].
      intros Hin. by eapply IH, Hedge. }
    eapply Hpath; [exact Hy | auto]. }
  intros y Hy. split.
  - destruct (Hset y Hy) as [->|[->| ->]]; eexists;
      (split; [by vm_compute | done]).
  - intros Hcyc.
    destruct (getDependencyOrder (modules scenarioA) ["tts"])
      as [dependencyOrder| |] eqn:Hrun; [|by vm_compute in Hrun..].
    assert (y ∈ dependencyOrder) as Hmem.
    { apply (getDependencyOrder_complete _ _ _ "tts" y Hrun); [|done].
      apply list_elem_of_here. }
    apply list_elem_of_split in Hmem as (l1 & l2 & Hl).
    pose proof (dependencyOrder_closed _ _ _ _ _ Hrun Hcyc l1 l2 Hl) as Hin.
    apply getDependencyOrder_Return in Hrun as (Hnd & _).
    rewrite Hl in Hnd. apply NoDup_app in Hnd as (_ & Hdisj & _).
    apply (Hdisj y Hin). left.
Qed.

Lemma loadModule_succeeds_witness :
  ∃ m st', loadModule 2 "tts" [] scenarioA = (Return m, st').
Proof. exact (loadModule_succeeds 0 "tts" [] scenarioA scenarioA_loadable). Defined.

(** ** Validation of the dependency graph *)

Section ValidateFacts.
Variable mods : list (string * moduleObject).

Lemma has_true_is_Some (k : string) :
  JMap.has k mods = true ↔ is_Some (JMap.get k mods).
Proof. unfold JMap.has. apply bool_decide_eq_true. Qed.

Lemma has_false_None (k : string) :
  JMap.has k mods = false ↔ JMap.get k mods = None.
Proof.
  unfold JMap.has. rewrite bool_decide_eq_false.
  rewrite <- eq_None_not_Some. done.
Qed.

Lemma validation_step_refl s : validation_step s s.
Proof. repeat split; auto. exists []. by rewrite app_nil_r. Qed.

Lemma validation_step_trans s1 s2 s3 :
  validation_step s1 s2 → validation_step s2 s3 → validation_step s1 s3.
Proof.
  intros (Hv1 & Hs1 & [l1 Ho1] & Hn1) (Hv2 & Hs2 & [l2 Ho2] & Hn2).
  repeat split.
  - by rewrite Hv2.
  - set_solver.
  - exists (l1 ++ l2). by rewrite Ho2, Ho1, app_assoc.
  - intros x Hx Hx3. apply Hn1; [done |]. apply Hn2; [|done]. by rewrite Hv1.
Qed.

Lemma validation_step_errors s s' e :
  validation_step s s' → e ∈ v_errors s → e ∈ v_errors s'.
Proof. intros (_ & _ & [l ->] & _) He. apply elem_of_app. by left. Qed.

Lemma validation_step_circular_free s s' :
  validation_step s s' → circular_free (v_errors s') →
  circular_free (v_errors s).
Proof. intros Hstep Hfree x Hx. eapply Hfree, validation_step_errors; eauto. Qed.

(** A call ends with the id visited, or with the id reported. *)
Lemma validate_visit_step fuel moduleId s s' :
  validate_visit mods fuel moduleId s = Return s' →
  validation_step s s' ∧
  (moduleId ∈ v_visited s' ∨
   moduleId ∈ v_visiting s ∧ CircularDetected moduleId ∈ v_errors s').
Proof.
  revert moduleId s s'.
  induction fuel as [|fuel IH]; intros moduleId s s' Hrun; simpl in Hrun;
    [discriminate |].
  destruct (decide (moduleId ∈ v_visiting s)) as [Hing|Hing].
  { injection Hrun as <-. split.
    - repeat split; simpl; auto. by eexists.
    - right. split; [done |]. simpl. set_solver. }
  destruct (decide (moduleId ∈ v_visited s)) as [Hed|Hed].
  { injection Hrun as <-. split; [apply validation_step_refl | by left]. }
  set (s1 := Validation (v_visited s) ({[moduleId]} ∪ v_visiting s)
               (v_errors s)) in Hrun.
  assert (∃ s2, validation_step s1 s2 ∧
            s' = Validation ({[moduleId]} ∪ v_visited s2)
                   (v_visiting s2 ∖ {[moduleId]}) (v_errors s2))
    as (s2 & Hs2 & ->).
  { destruct (JMap.get moduleId mods) as [module|].
    - destruct (for_each _ _ s1) as [s2| |] eqn:Hl; try discriminate.
      injection Hrun as <-. exists s2. split; [|done].
      apply (for_each_invariant _ (validation_step s1) (λ _ _, True)
               _ s1 s2) in Hl as [? _];
        [done | | done | apply validation_step_refl].
      intros d sa sb _ Hsa Hd. split; [|done].
      eapply validation_step_trans; [exact Hsa |].
      unfold validate_dependency in Hd.
      destruct (JMap.has d mods); [by apply (IH d) |].
      injection Hd as <-. repeat split; simpl; auto. by eexists.
    - injection Hrun as <-. exists s1.
      split; [apply validation_step_refl | done]. }
  destruct Hs2 as (Hv & Hs & [l Ho] & Hn). simpl in *.
  split; [|left; set_solver]. repeat split; simpl.
  - rewrite Hv. set_solver.
  - set_solver.
  - by exists l.
  - intros x Hx [->%elem_of_singleton|Hx2]%elem_of_union; [done |].
    apply Hn; [set_solver | done].
Qed.

Lemma validate_dependency_step fuel moduleId d s s' :
  validate_dependency mods (validate_visit mods fuel) moduleId d s
  = Return s' →
  validation_step s s' ∧
  (is_Some (JMap.get d mods) →
   d ∈ v_visited s' ∨ CircularDetected d ∈ v_errors s').
Proof.
  unfold validate_dependency.
  destruct (JMap.has d mods) eqn:Hhas.
  - intros Hrun%validate_visit_step. naive_solver.
  - intros [= <-]. split.
    + repeat split; simpl; auto. by eexists.
    + apply has_false_None in Hhas. rewrite Hhas. by intros [? [=]].
Qed.

Lemma validate_loop_step fuel moduleId l s s' :
  for_each (validate_dependency mods (validate_visit mods fuel) moduleId) l s
  = Return s' →
  validation_step s s'.
Proof.
  intros Hl.
  apply (for_each_invariant _ (validation_step s) (λ _ _, True) _ s s')
    in Hl as [? _]; [done | | done | apply validation_step_refl].
  intros d sa sb _ Hsa [Hd _]%validate_dependency_step. split; [|done].
  by eapply validation_step_trans.
Qed.

(** The closure throws nothing. *)
Lemma validate_visit_no_throw fuel moduleId s e :
  validate_visit mods fuel moduleId s ≠ Throw e.
Proof.
  revert moduleId s e.
  induction fuel as [|fuel IH]; intros moduleId s e; simpl; [done |].
  destruct (decide (moduleId ∈ v_visiting s)); [done |].
  destruct (decide (moduleId ∈ v_visited s)); [done |].
  destruct (JMap.get moduleId mods) as [module|]; [|done].
  match goal with
  | |- context [for_each ?f ?l ?s0] =>
      destruct (for_each_outcome f (λ _, True) l s0)
        as [(s2 & -> & _)|(y & sa & _ & _ & -> & Hne)]; [done | done | done |]
  end.
  unfold validate_dependency in *.
  destruct (JMap.has y mods); [|by destruct (Hne _ eq_refl)].
  destruct (validate_visit mods fuel y sa) as [sb|e0|] eqn:Hv;
    [by destruct (Hne sb) | by destruct (IH y sa e0) | done].
Qed.

(** The ids being visited are distinct registered modules. *)
Lemma validate_visit_fuel fuel moduleId s :
  v_visiting s ⊆ list_to_set (JMap.keys mods) →
  length mods + 2 ≤ fuel + size (v_visiting s) →
  validate_visit mods fuel moduleId s ≠ OutOfFuel.
Proof.
  revert moduleId s.
  induction fuel as [|fuel IH]; intros moduleId s Hsub Hfuel; simpl.
  { apply subseteq_size in Hsub.
    pose proof (size_list_to_set_le (JMap.keys mods)) as Hk.
    unfold JMap.keys in *. rewrite length_fmap in Hk. simpl in *. lia. }
  destruct (decide (moduleId ∈ v_visiting s)) as [Hing|Hing]; [done |].
  destruct (decide (moduleId ∈ v_visited s)) as [Hed|Hed]; [done |].
  set (s1 := Validation (v_visited s) ({[moduleId]} ∪ v_visiting s)
               (v_errors s)).
  destruct (JMap.get moduleId mods) as [module|] eqn:Hget; [|done].
  destruct (for_each_outcome
              (validate_dependency mods (validate_visit mods fuel) moduleId)
              (λ sa, v_visiting sa = v_visiting s1) (dependencies module) s1)
    as [(s2 & -> & _)|(y & sa & Hy & Hsa & -> & Hne)]; [| done | done |].
  - intros x sa sb _ Hsa [(-> & _) _]%validate_dependency_step. done.
  - unfold validate_dependency in *.
    destruct (JMap.has y mods); [|by destruct (Hne _ eq_refl)].
    destruct (validate_visit mods fuel y sa) as [sb| |] eqn:Hv;
      [by destruct (Hne sb) | done |].
    destruct (IH y sa); [| |done]; rewrite Hsa; simpl.
    + apply JMapFacts.get_Some_key in Hget.
      apply union_subseteq. split; [|done].
      apply singleton_subseteq_l, elem_of_list_to_set, Hget.
    + rewrite size_union by set_solver. rewrite size_singleton. lia.
Qed.

(** The missing dependencies reported are missing, and those of the
    modules visited are reported. *)
Lemma validate_visit_missing fuel moduleId s s' :
  validate_visit mods fuel moduleId s = Return s' →
  (∀ a b, MissingDependency a b ∈ v_errors s' →
          MissingDependency a b ∈ v_errors s ∨ missing_dependency mods a b) ∧
  (∀ a b, a ∈ v_visited s' → a ∉ v_visited s →
          missing_dependency mods a b →
          MissingDependency a b ∈ v_errors s').
Proof.
  revert moduleId s s'.
  induction fuel as [|fuel IH]; intros moduleId s s' Hrun; simpl in Hrun;
    [discriminate |].
  destruct (decide (moduleId ∈ v_visiting s)) as [Hing|Hing].
  { injection Hrun as <-. simpl. split; [|done].
    intros a b [Hin|Hin%list_elem_of_singleton]%elem_of_app;
      [by left | discriminate]. }
  destruct (decide (moduleId ∈ v_visited s)) as [Hed|Hed].
  { injection Hrun as <-. split; [by left | done]. }
  set (s1 := Validation (v_visited s) ({[moduleId]} ∪ v_visiting s)
               (v_errors s)) in Hrun.
  destruct (JMap.get moduleId mods) as [module|] eqn:Hget.
  - destruct (for_each _ _ s1) as [s2| |] eqn:Hl; try discriminate.
    injection Hrun as <-. simpl.
    apply (for_each_invariant _
             (λ sa, validation_step s1 sa ∧
                (∀ a b, MissingDependency a b ∈ v_errors sa →
                        MissingDependency a b ∈ v_errors s
                        ∨ missing_dependency mods a b) ∧
                (∀ a b, a ∈ v_visited sa → a ∉ v_visited s →
                        missing_dependency mods a b →
                        MissingDependency a b ∈ v_errors sa))
             (λ d sa, JMap.get d mods = None →
                      MissingDependency moduleId d ∈ v_errors sa))
      in Hl as [(Hstep & Hsound & Hall) Hown].
    + split; [done |].
      intros a b [->%elem_of_singleton|Ha]%elem_of_union Hnew Hmiss;
        [|by apply Hall].
      destruct Hmiss as [(m & Hm & Hb) Hnone].
      rewrite Hget in Hm. injection Hm as <-. by apply Hown.
    + intros d sa sb Hd (Hsa & Hsound & Hall) Hrun.
      pose proof (validate_dependency_step _ _ _ _ _ Hrun) as [Hab _].
      unfold validate_dependency in Hrun.
      destruct (JMap.has d mods) eqn:Hhas.
      * destruct (IH _ _ _ Hrun) as [Hsound' Hall'].
        split; [split; [by eapply validation_step_trans | split] |].
        -- intros a b Hin. destruct (Hsound' a b Hin); auto.
        -- intros a b Ha Hnew Hmiss.
           destruct (decide (a ∈ v_visited sa)) as [Hold|Hold];
             [|by apply Hall'].
           eapply validation_step_errors; [exact Hab |]. by apply Hall.
        -- apply has_true_is_Some in Hhas as [? Hsome]. by rewrite Hsome.
      * injection Hrun as <-. simpl.
        split; [split; [by eapply validation_step_trans | split] |].
        -- intros a b [Hin|[= -> ->]%list_elem_of_singleton]%elem_of_app;
             [auto |].
           right. split; [by exists module | by apply has_false_None].
        -- intros a b Ha Hnew Hmiss. apply elem_of_app. left. by apply Hall.
        -- intros _. apply elem_of_app. right. apply list_elem_of_here.
    + intros d y sa sb _ [Hab _]%validate_dependency_step Hq Hnone.
      eapply validation_step_errors; [exact Hab | by apply Hq].
    + split; [apply validation_step_refl | split; [by left |]].
      simpl. done.
  - injection Hrun as <-. simpl. split; [by left |].
    intros a b [->%elem_of_singleton|Ha]%elem_of_union Hnew Hmiss; [|done].
    destruct Hmiss as [(m & Hm & _) _]. by rewrite Hget in Hm.
Qed.

(** A cycle reported is a cycle. *)
Lemma validate_visit_circular fuel moduleId s s' :
  validate_visit mods fuel moduleId s = Return s' →
  (∀ v, v ∈ v_visiting s → tc (depends_on mods) v moduleId) →
  ∀ a, CircularDetected a ∈ v_errors s' →
       CircularDetected a ∈ v_errors s ∨ on_cycle mods a.
Proof.
  revert moduleId s s'.
  induction fuel as [|fuel IH]; intros moduleId s s' Hrun Hpath;
    simpl in Hrun; [discriminate |].
  destruct (decide (moduleId ∈ v_visiting s)) as [Hing|Hing].
  { injection Hrun as <-. simpl.
    intros a [Hin|[= ->]%list_elem_of_singleton]%elem_of_app; [by left |].
    right. by apply Hpath. }
  destruct (decide (moduleId ∈ v_visited s)) as [Hed|Hed].
  { injection Hrun as <-. by left. }
  set (s1 := Validation (v_visited s) ({[moduleId]} ∪ v_visiting s)
               (v_errors s)) in Hrun.
  destruct (JMap.get moduleId mods) as [module|] eqn:Hget.
  - destruct (for_each _ _ s1) as [s2| |] eqn:Hl; try discriminate.
    injection Hrun as <-. simpl.
    apply (for_each_invariant _
             (λ sa, v_visiting sa = v_visiting s1 ∧
                ∀ a, CircularDetected a ∈ v_errors sa →
                     CircularDetected a ∈ v_errors s ∨ on_cycle mods a)
             (λ _ _, True)) in Hl as [[_ Hl] _]; [done | | done |].
    + intros d sa sb Hd [Hsa Hsound] Hrun. split; [|done].
      pose proof (validate_dependency_step _ _ _ _ _ Hrun) as [(Hv & _) _].
      split; [by rewrite Hv |].
      unfold validate_dependency in Hrun.
      destruct (JMap.has d mods).
      * intros a Ha. destruct (IH _ _ _ Hrun) with (a := a) as [Hold|Hcyc];
          [| done | by apply Hsound | by right].
        rewrite Hsa. simpl.
        intros v [->%elem_of_singleton|Hv']%elem_of_union.
        -- apply tc_once. by exists module.
        -- eapply tc_r; [by apply Hpath |]. by exists module.
      * injection Hrun as <-. simpl.
        intros a [Hin|Hin%list_elem_of_singleton]%elem_of_app;
          [by apply Hsound | discriminate].
    + split; [done | by left].
  - injection Hrun as <-. by left.
Qed.

(** Where no cycle is reported, the visited ids are in a topological
    order. *)
Lemma validate_visit_ok fuel moduleId s s' l :
  validate_visit mods fuel moduleId s = Return s' →
  circular_free (v_errors s') →
  validation_ok mods s l → ∃ l', validation_ok mods s' l'.
Proof.
  revert moduleId s s' l.
  induction fuel as [|fuel IH]; intros moduleId s s' l Hrun Hfree Hok;
    simpl in Hrun; [discriminate |].
  destruct (decide (moduleId ∈ v_visiting s)) as [Hing|Hing].
  { injection Hrun as <-. by exists l. }
  destruct (decide (moduleId ∈ v_visited s)) as [Hed|Hed].
  { injection Hrun as <-. by exists l. }
  set (s1 := Validation (v_visited s) ({[moduleId]} ∪ v_visiting s)
               (v_errors s)) in Hrun.
  assert (validation_ok mods s1 l) as Hok1 by done.
  assert (∃ s2 l2, validation_ok mods s2 l2 ∧ validation_step s1 s2 ∧
            (∀ m y, JMap.get moduleId mods = Some m → y ∈ dependencies m →
                    is_Some (JMap.get y mods) → y ∈ v_visited s2) ∧
            s' = Validation ({[moduleId]} ∪ v_visited s2)
                   (v_visiting s2 ∖ {[moduleId]}) (v_errors s2))
    as (s2 & l2 & Hok2 & Hs2 & Hdeps & ->).
  { destruct (JMap.get moduleId mods) as [module|].
    - destruct (for_each _ _ s1) as [s2| |] eqn:Hl; try discriminate.
      injection Hrun as <-. simpl in Hfree.
      pose proof (validate_loop_step _ _ _ _ _ Hl) as Hst.
      apply (for_each_invariant _
               (λ sa, circular_free (v_errors sa) →
                      ∃ la, validation_ok mods sa la)
               (λ d sa, circular_free (v_errors sa) →
                        is_Some (JMap.get d mods) → d ∈ v_visited sa))
        in Hl as [Hl Hin].
      + destruct (Hl Hfree) as [l2 Hl2]. exists s2, l2.
        split; [done | split; [done | split; [|done]]].
        intros m y [= <-] Hy Hreg. by apply Hin.
      + intros d sa sb Hd Hsa Hrun.
        pose proof (validate_dependency_step _ _ _ _ _ Hrun) as [Hab Hvis].
        split.
        * intros Hfb.
          destruct Hsa as [la Hla];
            [by eapply validation_step_circular_free |].
          unfold validate_dependency in Hrun.
          destruct (JMap.has d mods); [by eapply IH |].
          injection Hrun as <-. by exists la.
        * intros Hfb Hreg. destruct (Hvis Hreg) as [?|Hc]; [done |].
          by destruct (Hfb d).
      + intros d y sa sb _ [Hab _]%validate_dependency_step Hq Hfb Hreg.
        pose proof (validation_step_circular_free _ _ Hab Hfb) as Hfa.
        destruct Hab as (_ & Hsub & _). by apply Hsub, Hq.
      + intros _. by exists l.
    - injection Hrun as <-. exists s1, l.
      split; [done | split; [apply validation_step_refl | split; done]]. }
  destruct Hok2 as (Hnd & Hmem & Htopo).
  destruct Hs2 as (Hv & Hs & _ & Hn). simpl in *.
  assert (moduleId ∉ l2) as Hfresh.
  { rewrite Hmem. intros Hin. apply Hed, Hn; [set_solver | done]. }
  exists (l2 ++ [moduleId]). repeat split; simpl.
  - apply NoDup_app. split; [done |]. split; [|apply NoDup_singleton].
    intros x Hx ->%list_elem_of_singleton. done.
  - rewrite elem_of_app, list_elem_of_singleton, Hmem. set_solver.
  - rewrite elem_of_app, list_elem_of_singleton, Hmem. set_solver.
  - intros i x y Hi Hxy Hreg.
    destruct (decide (i < length l2)) as [Hlt|Hge].
    + rewrite lookup_app_l in Hi by done.
      destruct (Htopo i x y Hi Hxy Hreg) as (j & Hj & Hjy).
      exists j. split; [done |]. rewrite lookup_app_l by lia. done.
    + rewrite lookup_app_r in Hi by lia.
      apply list_lookup_singleton_Some in Hi as [Hi0 ->].
      destruct Hxy as (m & Hm & Hy).
      assert (y ∈ l2) as Hyo by (apply Hmem; eauto).
      apply list_elem_of_lookup in Hyo as [j Hj].
      pose proof (lookup_lt_Some _ _ _ Hj).
      exists j. split; [lia |]. by rewrite lookup_app_l.
Qed.

(** In such an order a module comes after the registered modules it
    reaches. *)
Lemma validation_ok_before s l x y i :
  validation_ok mods s l → tc (depends_on mods) x y →
  is_Some (JMap.get y mods) → l !! i = Some x →
  ∃ j, j < i ∧ l !! j = Some y.
Proof.
  intros (_ & _ & Htopo) Hxy. revert i.
  induction Hxy as [x y Hxy|x y z Hxy Hyz IH]; intros i Hreg Hi.
  - by eapply Htopo.
  - assert (is_Some (JMap.get y mods)) as Hy.
    { inversion Hyz as [? ? (m & Hm & _)|? ? ? (m & Hm & _) _]; eauto. }
    destruct (Htopo i x y Hi Hxy Hy) as (j & Hj & Hjy).
    destruct (IH j Hreg Hjy) as (k & Hk & Hkz).
    exists k. split; [lia | done].
Qed.

Lemma circular_free_dec (errs : list graphError) :
  (∃ a, CircularDetected a ∈ errs) ∨ circular_free errs.
Proof.
  induction errs as [|e errs [[a Ha]|IH]].
  - right. by intros x ?%elem_of_nil.
  - left. exists a. by right.
  - destruct e as [a|a b].
    + left. exists a. left.
    + right. intros x [[=]|Hx]%elem_of_cons. by apply (IH x).
Qed.

(** The loop over the registered ids ends. *)
Lemma validate_keys_Return l s0 :
  v_visiting s0 = ∅ →
  ∃ s, for_each (validate_visit mods (walk_fuel mods)) l s0 = Return s.
Proof.
  intros Hs0.
  destruct (for_each_outcome (validate_visit mods (walk_fuel mods))
              (λ sa, v_visiting sa = ∅) l s0)
    as [(s & Hs & _)|(y & sa & _ & Hsa & -> & Hne)]; [| done | by eexists |].
  - intros x sa sb _ Hsa [(-> & _) _]%validate_visit_step. done.
  - destruct (validate_visit mods (walk_fuel mods) y sa) as [sb|e|] eqn:Hv.
    + by destruct (Hne sb).
    + by destruct (validate_visit_no_throw _ _ _ _ Hv).
    + destruct (validate_visit_fuel (walk_fuel mods) y sa); [| | done];
        rewrite Hsa.
      * set_solver.
      * rewrite size_empty. unfold walk_fuel. lia.
Qed.

(** What [validateDependencyGraph] returns. *)
Lemma validateDependencyGraph_Return :
  ∃ r, validateDependencyGraph mods = Return r ∧
       (isValid r = true ↔ errors r = []) ∧
       (∀ a b, MissingDependency a b ∈ errors r ↔
               missing_dependency mods a b) ∧
       (∀ a, CircularDetected a ∈ errors r → on_cycle mods a) ∧
       (circular_free (errors r) → acyclic mods).
Proof.
  unfold validateDependencyGraph.
  set (s0 := Validation ∅ ∅ []).
  destruct (validate_keys_Return (JMap.keys mods) s0 eq_refl) as [s Hl].
  rewrite Hl. eexists. split; [done |]. simpl.
  apply (for_each_invariant _
           (λ sa, v_visiting sa = ∅ ∧
              (∀ a b, MissingDependency a b ∈ v_errors sa →
                      missing_dependency mods a b) ∧
              (∀ a b, a ∈ v_visited sa → missing_dependency mods a b →
                      MissingDependency a b ∈ v_errors sa) ∧
              (∀ a, CircularDetected a ∈ v_errors sa → on_cycle mods a) ∧
              (circular_free (v_errors sa) →
               ∃ la, validation_ok mods sa la))
           (λ d sa, d ∈ v_visited sa))
    in Hl as [(_ & Hsound & Hall & Hcirc & Hok) Hkeys].
  - split; [|split; [|split]].
    + rewrite Nat.eqb_eq. by destruct (v_errors s).
    + intros a b. split; [apply Hsound |]. intros Hmiss.
      apply Hall; [|done]. apply Hkeys.
      destruct Hmiss as [(m & Hm & _) _]. by eapply JMapFacts.get_Some_key.
    + done.
    + intros Hfree x Hcyc. destruct (Hok Hfree) as [la Hla].
      assert (is_Some (JMap.get x mods)) as [m Hm].
      { inversion Hcyc as [? ? (m & Hm & _)|? ? ? (m & Hm & _) _]; eauto. }
      assert (x ∈ la) as [i Hi]%list_elem_of_lookup.
      { destruct Hla as (_ & Hmem & _). apply Hmem, Hkeys.
        by eapply JMapFacts.get_Some_key. }
      destruct (validation_ok_before s la x x i Hla Hcyc) as (j & Hj & Hjx);
        [by eexists | done |].
      destruct Hla as (Hnd & _).
      pose proof (NoDup_lookup _ _ _ _ Hnd Hi Hjx). lia.
  - intros d sa sb _ (Hv & Hsound & Hall & Hcirc & Hok) Hrun.
    pose proof (validate_visit_step _ _ _ _ Hrun) as [Hab Hd].
    pose proof (validate_visit_missing _ _ _ _ Hrun) as [Hsound' Hall'].
    split; [split; [|split; [|split; [|split]]] |].
    + destruct Hab as (-> & _). done.
    + intros a b Hin. destruct (Hsound' a b Hin); auto.
    + intros a b Ha Hmiss.
      destruct (decide (a ∈ v_visited sa)) as [Hold|Hold];
        [|by apply Hall'].
      eapply validation_step_errors; [exact Hab |]. by apply Hall.
    + intros a Ha.
      destruct (validate_visit_circular _ _ _ _ Hrun) with (a := a);
        [| done | by apply Hcirc | done].
      rewrite Hv. by intros v ?%elem_of_empty.
    + intros Hfb. destruct Hok as [la Hla];
        [by eapply validation_step_circular_free |].
      by eapply validate_visit_ok.
    + destruct Hd as [?|[Hd _]]; [done |]. rewrite Hv in Hd. set_solver.
  - intros d y sa sb _ [(_ & Hsub & _) _]%validate_visit_step Hd.
    by apply Hsub.
  - split; [done |]. split; [by intros a b ?%elem_of_nil |].
    split; [by intros a b ?%elem_of_empty |].
    split; [by intros a ?%elem_of_nil |].
    intros _. exists []. repeat split.
    + apply NoDup_nil_2.
    + by intros ?%elem_of_nil.
    + by intros ?%elem_of_empty.
    + by intros i a b ?.
Qed.
End ValidateFacts.

(** X12.  [validateDependencyGraph] always returns, and it reports the
    graph valid exactly when no module lies on a dependency cycle and
    every dependency listed is registered. *)
Theorem validateDependencyGraph_isValid (mods : list (string * moduleObject)) :
  ∃ r, validateDependencyGraph mods = Return r ∧
       (isValid r = true ↔
        acyclic mods ∧
        ∀ x y, depends_on mods x y → is_Some (JMap.get y mods)).
Proof.
  destruct (validateDependencyGraph_Return mods)
    as (r & Hr & Hvalid & Hmiss & Hcirc & Hfree).
  exists r. split; [done |]. rewrite Hvalid. split.
  - intros Hnil. split.
    + apply Hfree. rewrite Hnil. by intros x ?%elem_of_nil.
    + intros x y Hxy. destruct (JMap.get y mods) eqn:Hy; [by eexists |].
      assert (MissingDependency x y ∈ errors r) as Hin by (by apply Hmiss).
      rewrite Hnil in Hin. by apply elem_of_nil in Hin.
  - intros [Hacyc Hreg]. destruct (errors r) as [|[a|a b] errs] eqn:He;
      [done | |].
    + destruct (Hacyc a). apply Hcirc. left.
    + assert (missing_dependency mods a b) as [Hab Hnone]
        by (apply Hmiss; left).
      destruct (Hreg a b Hab) as [m Hm]. by rewrite Hnone in Hm.
Qed.

(** X13.  The errors of [validateDependencyGraph]: a missing dependency
    is reported exactly for the pairs of a registered module and an
    unregistered id it lists; every id reported as circular lies on a
    cycle, and when the graph has a cycle some id is reported. *)
Theorem validateDependencyGraph_errors (mods : list (string * moduleObject))
    (r : validationResult) :
  validateDependencyGraph mods = Return r →
  (∀ a b, MissingDependency a b ∈ errors r ↔ missing_dependency mods a b) ∧
  (∀ a, CircularDetected a ∈ errors r → on_cycle mods a) ∧
  (∀ x, on_cycle mods x → ∃ a, CircularDetected a ∈ errors r).
Proof.
  destruct (validateDependencyGraph_Return mods)
    as (r' & -> & _ & Hmiss & Hcirc & Hfree).
  intros [= <-]. split; [done |]. split; [done |].
  intros x Hx. destruct (circular_free_dec (errors r')) as [?|Hcf]; [done |].
  by destruct (Hfree Hcf x).
Qed.

Lemma validateDependencyGraph_errors_witness :
  ∃ a, CircularDetected a
       ∈ [CircularDetected "a"; MissingDependency "c" "ghost"].
Proof.
  refine (proj2 (proj2 (validateDependencyGraph_errors (modules brokenGraph)
                          (ValidationResult false _) _)) "a" _).
  - vm_compute. reflexivity.
  - apply (tc_l _ "a" "b" "a"); [|apply tc_once].
    + eexists. split; [by vm_compute | set_solver].
    + eexists. split; [by vm_compute | set_solver].
Defined.

(** ** More of the state store *)

Lemma length_filter_split {A} (P : A → Prop) `{∀ x, Decision (P x)}
    (l : list A) :
  length (filter P l) + length (filter (λ x, ¬ P x) l) = length l.
Proof.
  induction l as [|x l IH]; [done |].
  rewrite !filter_cons. destruct (decide (P x)), (decide (¬ P x));
    simpl; try lia; done.
Qed.

Lemma filter_none {A} (P : A → Prop) `{∀ x, Decision (P x)} (l : list A) :
  (∀ x, x ∈ l → ¬ P x) → filter P l = [].
Proof.
  induction l as [|x l IH]; intros Hall; [done |].
  rewrite filter_cons, decide_False by (apply Hall; left).
  apply IH. intros y Hy. apply Hall. by right.
Qed.

Lemma filter_all {A} (P : A → Prop) `{∀ x, Decision (P x)} (l : list A) :
  (∀ x, x ∈ l → P x) → filter P l = l.
Proof.
  induction l as [|x l IH]; intros Hall; [done |].
  rewrite filter_cons, decide_True by (apply Hall; left).
  f_equal. apply IH. intros y Hy. apply Hall. by right.
Qed.

Section StateStoreMoreFacts.
Context {value text : Type}.
Variable JSON_stringify : value → option text.
Variable JSON_parse : text → option value.
Implicit Types (l : list (historyData value)) (x y : historyData value).

Lemma latest_first_cons x l :
  latest_first (x :: l) ↔
  (∀ y, y ∈ l → (h_timestamp y ≤ h_timestamp x)%Z) ∧ latest_first l.
Proof.
  unfold latest_first. split.
  - intros Hs. split.
    + intros y [j Hj]%list_elem_of_lookup.
      apply (Hs 0 (S j) x y); [lia | done | done].
    + intros i j a b Hij Hi Hj. apply (Hs (S i) (S j) a b); [lia | done | done].
  - intros [Hhd Htl] i j a b Hij Hi Hj.
    destruct j as [|j]; [lia |]. simpl in Hj.
    destruct i as [|i]; simpl in Hi.
    + injection Hi as <-. apply Hhd. by eapply list_elem_of_lookup_2.
    + apply (Htl i j a b); [lia | done | done].
Qed.

Lemma insert_latest_first_perm x l : insert_latest_first x l ≡ₚ x :: l.
Proof.
  induction l as [|y l IH]; simpl; [done |].
  destruct (h_timestamp y <=? h_timestamp x)%Z; [done |].
  rewrite IH. apply Permutation_swap.
Qed.

Lemma sort_latest_first_perm l : sort_latest_first l ≡ₚ l.
Proof.
  induction l as [|x l IH]; simpl; [done |].
  by rewrite insert_latest_first_perm, IH.
Qed.

Lemma insert_latest_first_sorted x l :
  latest_first l → latest_first (insert_latest_first x l).
Proof.
  induction l as [|y l IH]; simpl; intros Hl.
  - apply latest_first_cons. split; [by intros y ?%elem_of_nil | done].
  - destruct (h_timestamp y <=? h_timestamp x)%Z eqn:Hle.
    + apply Z.leb_le in Hle. apply latest_first_cons. split; [|done].
      apply latest_first_cons in Hl as [Hhd _].
      intros z [->|Hz]%elem_of_cons; [done |].
      specialize (Hhd z Hz). lia.
    + apply Z.leb_gt in Hle.
      apply latest_first_cons in Hl as [Hhd Htl].
      apply latest_first_cons. split; [|by apply IH].
      intros z Hz. rewrite insert_latest_first_perm in Hz.
      apply elem_of_cons in Hz as [->|Hz]; [lia | by apply Hhd].
Qed.

Lemma sort_latest_first_sorted l : latest_first (sort_latest_first l).
Proof.
  induction l as [|x l IH]; simpl.
  - by intros i j a b _ ?.
  - by apply insert_latest_first_sorted.
Qed.

(** A record later than all the others goes first. *)
Lemma sort_latest_first_snoc l x :
  (∀ y, y ∈ l → (h_timestamp y < h_timestamp x)%Z) →
  sort_latest_first (l ++ [x]) = x :: sort_latest_first l.
Proof.
  induction l as [|y l IH]; intros Hlt; simpl; [done |].
  rewrite IH by (intros z Hz; apply Hlt; by right). simpl.
  assert (h_timestamp y < h_timestamp x)%Z as Hy by (apply Hlt; left).
  apply Z.leb_gt in Hy. by rewrite Hy.
Qed.

(** X14.  On an initialized store, [getModuleStateHistory] returns
    records of the module asked for, latest first, as many as the limit
    allows, and the records left out are not later than those
    returned. *)
Theorem getModuleStateHistory_latest_first (p : persistence value)
    (d : database value) (moduleId : string) (limit : nat) :
  db p = Some d →
  ∃ history,
    getModuleStateHistory moduleId limit p = (Return history, p) ∧
    latest_first history ∧
    length history = limit `min` history_count moduleId p ∧
    (∀ h, h ∈ history → h ∈ db_stateHistory d ∧ h_moduleId h = moduleId) ∧
    (∀ h h', h ∈ db_stateHistory d → h_moduleId h = moduleId →
             h ∉ history → h' ∈ history →
             (h_timestamp h ≤ h_timestamp h')%Z).
Proof.
  intros Hdb. unfold getModuleStateHistory, history_count. rewrite Hdb.
  eexists. split; [done |].
  pose proof (sort_latest_first_sorted (history_of moduleId d)) as Hsorted.
  pose proof (sort_latest_first_perm (history_of moduleId d)) as Hperm.
  set (sorted := sort_latest_first (history_of moduleId d)) in *.
  split; [|split; [|split]].
  - intros i j a b Hij Hi Hj.
    apply lookup_take_Some in Hi as [Hi _].
    apply lookup_take_Some in Hj as [Hj _].
    by apply (Hsorted i j).
  - rewrite length_take. unfold sorted.
    by rewrite length_sort_latest_first.
  - intros h (i & Hh%list_elem_of_lookup_2 & _)%elem_of_take.
    rewrite Hperm in Hh.
    unfold history_of in Hh. by apply list_elem_of_filter in Hh as [? ?].
  - intros h h' Hh Hid Hout [i Hi]%list_elem_of_lookup.
    apply lookup_take_Some in Hi as [Hi Hlim].
    assert (h ∈ sorted) as [j Hj]%list_elem_of_lookup.
    { rewrite Hperm. unfold history_of. by apply list_elem_of_filter. }
    destruct (decide (j < limit)) as [Hlt|Hge].
    { destruct Hout. eapply list_elem_of_lookup_2.
      by rewrite lookup_take_lt. }
    apply (Hsorted i j h' h); [lia | done | done].
Qed.

(** X15.  The version filter of [loadModuleState]: after a save, the
    clone of the state comes back when no version or the empty version
    is asked for, or the version under which it was saved, which is
    [1.0.0] when the options give none; any other version yields
    [null]. *)
Theorem saveModuleState_version (p : persistence value) (d : database value)
    (moduleId : string) (state clone : value) (options : saveOptions)
    (now : Z) :
  db p = Some d →
  deep_clone JSON_stringify JSON_parse state = Some clone →
  ∃ stateData p',
    saveModuleState JSON_stringify JSON_parse moduleId state options now p
    = (Return stateData, p') ∧
    sd_version stateData = or_default (opt_version options) "1.0.0" ∧
    sd_version stateData ≠ "" ∧
    loadModuleState moduleId None p' = (Return (Some clone), p') ∧
    loadModuleState moduleId (Some "") p' = (Return (Some clone), p') ∧
    loadModuleState moduleId (Some (sd_version stateData)) p'
    = (Return (Some clone), p') ∧
    (∀ version, version ≠ "" → version ≠ sd_version stateData →
                loadModuleState moduleId (Some version) p'
                = (Return None, p')).
Proof.
  intros Hdb Hclone. unfold saveModuleState. rewrite Hdb, Hclone. cbv zeta.
  eexists _, _. split; [reflexivity |]. simpl.
  assert (or_default (opt_version options) "1.0.0" ≠ "") as Hne.
  { unfold or_default. destruct (opt_version options) as [v|]; [|done].
    by destruct (decide (v = "")). }
  split; [done |]. split; [done |].
  unfold loadModuleState. simpl. rewrite lookup_insert_eq. simpl.
  split; [done |]. split; [done |]. split.
  - rewrite decide_False by done. by rewrite decide_True.
  - intros version Hv Hother. rewrite decide_False by done.
    by rewrite decide_False.
Qed.

(** X16.  A save later than every record of the module puts its record
    at the head of the history that [getModuleStateHistory] returns, and
    the records that follow are those returned before, one fewer. *)
Theorem saveModuleState_history_head (p : persistence value)
    (d : database value) (moduleId : string) (state clone : value)
    (options : saveOptions) (now : Z) (limit : nat) :
  db p = Some d →
  deep_clone JSON_stringify JSON_parse state = Some clone →
  (∀ h, h ∈ db_stateHistory d → h_moduleId h = moduleId →
        (h_timestamp h < now)%Z) →
  ∃ stateData p' before,
    saveModuleState JSON_stringify JSON_parse moduleId state options now p
    = (Return stateData, p') ∧
    getModuleStateHistory moduleId limit p = (Return before, p) ∧
    getModuleStateHistory moduleId (S limit) p'
    = (Return (HistoryData (db_nextId d) moduleId clone now
                 (sd_version stateData) (sd_metadata stateData) :: before),
       p').
Proof.
  intros Hdb Hclone Hnew. unfold saveModuleState. rewrite Hdb, Hclone.
  cbv zeta. eexists _, _, _. split; [reflexivity |].
  unfold getModuleStateHistory. rewrite Hdb. split; [reflexivity |].
  simpl. unfold history_of. simpl.
  rewrite filter_app, filter_cons, filter_nil. simpl.
  rewrite decide_True by done.
  rewrite sort_latest_first_snoc; [done |].
  intros y [Hid Hy]%list_elem_of_filter. simpl. by apply Hnew.
Qed.

(** X17.  [deleteModuleState] removes the current state of the module
    and nothing else: a load of the module yields [null] under any
    version, the other modules load as before, and the history of every
    module, the deleted one too, is as before. *)
Theorem deleteModuleState_keeps_history (p : persistence value)
    (d : database value) (moduleId : string) :
  db p = Some d →
  ∃ p',
    deleteModuleState moduleId p = (Return tt, p') ∧
    (∀ version, loadModuleState moduleId version p' = (Return None, p')) ∧
    (∀ other version, other ≠ moduleId →
       (loadModuleState other version p').1
       = (loadModuleState other version p).1) ∧
    (∀ other limit,
       (getModuleStateHistory other limit p').1
       = (getModuleStateHistory other limit p).1) ∧
    history_records p' = history_records p.
Proof.
  intros Hdb. unfold deleteModuleState. rewrite Hdb.
  eexists. split; [reflexivity |].
  unfold loadModuleState, getModuleStateHistory, history_records.
  rewrite Hdb. simpl. split; [|split; [|done]].
  - intros version. by rewrite lookup_delete_eq.
  - intros other version Hne. rewrite lookup_delete_ne by done.
    destruct (db_moduleStates d !! other) as [result|]; [|done].
    destruct version as [v|]; [|done].
    destruct (decide (v = "")); [done |].
    by destruct (decide (sd_version result = v)).
Qed.

(** X18.  At a time and on records whose timestamps are time values,
    and for any number of days, [cleanupOldHistory] deletes the history
    records whose timestamp is at most the cutoff that the doubles of
    the source give, of all modules, and returns their number: the
    records left are those not at most the cutoff, in their order; the
    current states still load, however old; a second run at the same
    time deletes nothing.  On a cutoff that is [NaN] the key range
    throws and nothing is deleted. *)
Theorem cleanupOldHistory_spec (p : persistence value) (d : database value)
    (daysToKeep : float) (now : Z) :
  db p = Some d →
  time_value now →
  (∀ h, h ∈ history_records p → time_value (h_timestamp h)) →
  let cutoffTime := cutoff_time daysToKeep now in
  (is_nan cutoffTime = true → cleanupOldHistory daysToKeep now p = None) ∧
  (is_nan cutoffTime = false →
   ∃ deletedCount p',
     cleanupOldHistory daysToKeep now p = Some (Return deletedCount, p') ∧
     deletedCount
     = length (filter (λ h, upperBound cutoffTime (h_timestamp h))
                 (history_records p)) ∧
     deletedCount + length (history_records p')
     = length (history_records p) ∧
     (∀ h, h ∈ history_records p' ↔
           h ∈ history_records p ∧ ¬ upperBound cutoffTime (h_timestamp h)) ∧
     history_records p' `sublist_of` history_records p ∧
     (∀ moduleId version,
        (loadModuleState moduleId version p').1
        = (loadModuleState moduleId version p).1) ∧
     cleanupOldHistory daysToKeep now p' = Some (Return 0, p')).
Proof.
  intros Hdb _ _ cutoffTime. unfold cleanupOldHistory. rewrite Hdb. simpl.
  fold cutoffTime. split; intros Hnan; rewrite Hnan; [done |].
  eexists _, _. split; [reflexivity |].
  unfold history_records, loadModuleState. rewrite Hdb. simpl.
  split; [done |]. split; [|split; [|split; [|split]]].
  - apply length_filter_split.
  - intros h. rewrite list_elem_of_filter. by split; intros [? ?].
  - apply sublist_filter.
  - intros moduleId version.
    destruct (db_moduleStates d !! moduleId) as [result|]; [|done].
    destruct version as [v|]; [|done].
    destruct (decide (v = "")); [done |].
    by destruct (decide (sd_version result = v)).
  - rewrite filter_none, filter_all; [done | |];
      by intros h [? ?]%list_elem_of_filter.
Qed.
End StateStoreMoreFacts.

(** The cutoff thirty days and half a day before a time of this century,
    and a cutoff that the doubles round: the integers give
    [-86399999999999991], and a key between the two is in the range. *)
Example cutoff_time_days :
  cutoff_time 30 1700000000000 = number 1697408000000 ∧
  cutoff_time 0.5 1700000000000 = number 1699956800000 ∧
  cutoff_time 1e9 9 = number (-86399999999999984) ∧
  upperBound (cutoff_time 1e9 9) (-86399999999999984) ∧
  ¬ (-86399999999999984 ≤ 9 - 1000000000 * 86400000)%Z.
Proof.
  split; [reflexivity |]. split; [reflexivity |]. split; [reflexivity |].
  split; [reflexivity | lia].
Qed.

Lemma getModuleStateHistory_latest_first_witness :
  ∃ history,
    getModuleStateHistory "tts" 3 savedOnce = (Return history, savedOnce) ∧
    length history = 1.
Proof.
  destruct (getModuleStateHistory_latest_first savedOnce
              (default emptyDatabase (db savedOnce)) "tts" 3)
    as (history & Hrun & _ & Hlen & _).
  - reflexivity.
  - exists history. split; [exact Hrun | exact Hlen].
Defined.

Lemma saveModuleState_version_witness :
  ∃ stateData p',
    saveModuleState toy_stringify toy_parse "tts" [("count", 1%Z)]
      (SaveOptions None None) 5 openedPersistence
    = (Return stateData, p') ∧
    loadModuleState "tts" (Some "2.0.0") p' = (Return None, p').
Proof.
  destruct (saveModuleState_version toy_stringify toy_parse openedPersistence
              emptyDatabase "tts" [("count", 1%Z)] [("count", 1%Z)]
              (SaveOptions None None) 5)
    as (stateData & p' & Hsave & Hv & _ & _ & _ & _ & Hother).
  - reflexivity.
  - reflexivity.
  - exists stateData, p'. split; [exact Hsave |].
    apply Hother; [done |]. rewrite Hv. done.
Defined.

Lemma saveModuleState_history_head_witness :
  ∃ stateData p' before,
    saveModuleState toy_stringify toy_parse "tts" [("count", 2%Z)]
      (SaveOptions None None) 8 savedOnce
    = (Return stateData, p') ∧
    getModuleStateHistory "tts" 1 savedOnce = (Return before, savedOnce) ∧
    getModuleStateHistory "tts" 2 p'
    = (Return (HistoryData 2 "tts" [("count", 2%Z)] 8
                 (sd_version stateData) (sd_metadata stateData) :: before),
       p').
Proof.
  apply (saveModuleState_history_head toy_stringify toy_parse savedOnce
           (default emptyDatabase (db savedOnce)) "tts" [("count", 2%Z)]
           [("count", 2%Z)] (SaveOptions None None) 8 1).
  - reflexivity.
  - reflexivity.
  - intros h [->|Hh%elem_of_nil]%elem_of_cons _; [simpl; lia | done].
Defined.

Lemma deleteModuleState_keeps_history_witness :
  ∃ p', deleteModuleState "tts" savedOnce = (Return tt, p') ∧
        history_records p' = history_records savedOnce.
Proof.
  destruct (deleteModuleState_keeps_history savedOnce
              (default emptyDatabase (db savedOnce)) "tts")
    as (p' & Hrun & _ & _ & _ & Hhist).
  - reflexivity.
  - exists p'. split; [exact Hrun | exact Hhist].
Defined.

Lemma cleanupOldHistory_spec_witness :
  ∃ p',
    cleanupOldHistory 0.5 43200009 savedOnce = Some (Return 1, p') ∧
    history_records p' = [].
Proof.
  assert (time_value 43200009) as Hnow by (unfold time_value; lia).
  assert (∀ h, h ∈ history_records savedOnce → time_value (h_timestamp h))
    as Hrecords.
  { intros h [->|Hh%elem_of_nil]%elem_of_cons; [|done].
    unfold time_value. simpl. lia. }
  destruct (proj2 (cleanupOldHistory_spec savedOnce
                     (default emptyDatabase (db savedOnce)) 0.5 43200009
                     eq_refl Hnow Hrecords) eq_refl)
    as (n & p' & Hrun & Hn & _ & _ & _ & _ & Hagain).
  exists p'. split.
  - rewrite Hrun, Hn. reflexivity.
  - injection Hrun as _ <-. reflexivity.
Defined.

(** ** More of the WebSocket server *)

Lemma sendMessage_sockets ws message srv :
  sockets (sendMessage ws message srv)
  = alter (send_on message) ws (sockets srv).
Proof.
  unfold sendMessage, send_on.
  destruct (sockets srv !! ws) as [s|] eqn:Hs.
  - destruct (ws_readyState s) eqn:Hopen; simpl.
    + symmetry. apply map_eq. intros i.
      destruct (decide (i = ws)) as [->|Hne].
      * rewrite lookup_alter_eq, Hs. simpl. by rewrite Hopen; destruct s.
      * by rewrite lookup_alter_ne.
    + apply map_eq. intros i. destruct (decide (i = ws)) as [->|Hne].
      * rewrite lookup_insert_eq, lookup_alter_eq, Hs. simpl.
        by rewrite Hopen.
      * by rewrite lookup_insert_ne, lookup_alter_ne.
    + symmetry. apply map_eq. intros i.
      destruct (decide (i = ws)) as [->|Hne].
      * rewrite lookup_alter_eq, Hs. simpl. by rewrite Hopen; destruct s.
      * by rewrite lookup_alter_ne.
    + symmetry. apply map_eq. intros i.
      destruct (decide (i = ws)) as [->|Hne].
      * rewrite lookup_alter_eq, Hs. simpl. by rewrite Hopen; destruct s.
      * by rewrite lookup_alter_ne.
  - symmetry. apply map_eq. intros i. destruct (decide (i = ws)) as [->|Hne].
    + by rewrite lookup_alter_eq, Hs.
    + by rewrite lookup_alter_ne.
Qed.

Lemma sendMessage_rest ws message srv :
  clients (sendMessage ws message srv) = clients srv ∧
  moduleRegistry (sendMessage ws message srv) = moduleRegistry srv ∧
  moduleFiles (sendMessage ws message srv) = moduleFiles srv.
Proof.
  unfold sendMessage. destruct (sockets srv !! ws) as [s|]; [|done].
  by destruct (ws_readyState s).
Qed.

(** A loop that changes the connection of each client once. *)
Lemma foldl_alter_lookup (g : string * client → socket → socket)
    (l : list (string * client)) (σ : gmap nat socket) (ws : nat) :
  NoDup (c_ws <$> l.*2) →
  let σ' := foldl (λ σ (kv : string * client), alter (g kv) (c_ws kv.2) σ) σ l in
  (∀ kv, kv ∈ l → c_ws kv.2 = ws → σ' !! ws = g kv <$> σ !! ws) ∧
  ((∀ kv, kv ∈ l → c_ws kv.2 ≠ ws) → σ' !! ws = σ !! ws).
Proof.
  revert σ. induction l as [|a l IH]; intros σ Hnd; simpl.
  { split; [by intros kv ?%elem_of_nil | done]. }
  rewrite !fmap_cons in Hnd. apply NoDup_cons in Hnd as [Hfresh Hnd].
  destruct (IH (alter (g a) (c_ws a.2) σ) Hnd) as [Hin Hout].
  assert (∀ kv, kv ∈ l → c_ws kv.2 ≠ c_ws a.2) as Hother.
  { intros kv Hkv Heq. apply Hfresh. rewrite <- Heq.
    apply list_elem_of_fmap. exists kv.2. split; [done |].
    apply list_elem_of_fmap. by exists kv. }
  split.
  - intros kv [->|Hkv]%elem_of_cons Hws.
    + rewrite Hout; [by rewrite <- Hws, lookup_alter_eq |].
      intros kv' Hkv'. rewrite <- Hws. by apply Hother.
    + rewrite (Hin kv Hkv Hws), lookup_alter_ne; [done |].
      rewrite <- Hws. intros Heq. by apply (Hother kv).
  - intros Hnone. rewrite Hout.
    + rewrite lookup_alter_ne; [done |]. apply Hnone. left.
    + intros kv Hkv. apply Hnone. by right.
Qed.

Lemma broadcast_fold message srv l :
  let srv' := foldl (λ srv' (kv : string * client), sendMessage (c_ws kv.2) message srv') srv l in
  clients srv' = clients srv ∧
  moduleRegistry srv' = moduleRegistry srv ∧
  moduleFiles srv' = moduleFiles srv ∧
  sockets srv'
  = foldl (λ σ (kv : string * client), alter (send_on message) (c_ws kv.2) σ) (sockets srv) l.
Proof.
  revert srv. induction l as [|a l IH]; intros srv; simpl; [done |].
  destruct (IH (sendMessage (c_ws a.2) message srv)) as (-> & -> & -> & ->).
  destruct (sendMessage_rest (c_ws a.2) message srv) as (-> & -> & ->).
  by rewrite sendMessage_sockets.
Qed.

(** X19.  [broadcast] hands the message once to the connection of every
    client whose connection is open, after what was sent before; the
    connections that are not open, and those of no client, are as
    before, and so are the clients and the registry. *)
Theorem broadcast_delivers (srv : server) (message : json) :
  NoDup (c_ws <$> (clients srv).*2) →
  let srv' := broadcast message srv in
  clients srv' = clients srv ∧
  moduleRegistry srv' = moduleRegistry srv ∧
  (∀ clientId c s,
     (clientId, c) ∈ clients srv → sockets srv !! c_ws c = Some s →
     sockets srv' !! c_ws c = Some (send_on message s)) ∧
  (∀ ws, (∀ clientId c, (clientId, c) ∈ clients srv → c_ws c ≠ ws) →
         sockets srv' !! ws = sockets srv !! ws).
Proof.
  intros Hnd srv'. subst srv'. unfold broadcast.
  destruct (broadcast_fold message srv (clients srv)) as (-> & -> & _ & ->).
  split; [done |]. split; [done |].
  split.
  - intros clientId c s Hc Hs.
    destruct (foldl_alter_lookup (λ _, send_on message) (clients srv)
                (sockets srv) (c_ws c) Hnd) as [Hin _].
    by rewrite (Hin (clientId, c) Hc eq_refl), Hs.
  - intros ws Hnone.
    destruct (foldl_alter_lookup (λ _, send_on message) (clients srv)
                (sockets srv) ws Hnd) as [_ Hout].
    apply Hout. intros [clientId c] Hkv. by apply (Hnone clientId).
Qed.

Lemma broadcast_delivers_witness :
  sockets (broadcast ping_message twoPeers) !! 2
  = Some (Socket OPEN [ping_message]).
Proof.
  refine (proj1 (proj2 (proj2 (broadcast_delivers twoPeers ping_message _)))
            "client_b" (Client 2 "client_b" "unknown" 0) (Socket OPEN [])
            _ _).
  - simpl. apply NoDup_cons. split; [set_solver |]. apply NoDup_singleton.
  - set_solver.
  - reflexivity.
Defined.

(** *** The heartbeat *)

Lemma NoDup_keys_inj {V} (l : list (string * V)) k v v' :
  NoDup l.*1 → (k, v) ∈ l → (k, v') ∈ l → v = v'.
Proof.
  induction l as [|[k0 v0] l IH]; simpl; intros Hnd Hv Hv'.
  { by apply elem_of_nil in Hv. }
  apply NoDup_cons in Hnd as [Hfresh Hnd].
  assert (∀ w, (k0, w) ∈ l → False) as Hno.
  { intros w Hw. apply Hfresh. apply list_elem_of_fmap. by exists (k0, w). }
  apply elem_of_cons in Hv as [Hv|Hv];
    apply elem_of_cons in Hv' as [Hv'|Hv'].
  - congruence.
  - injection Hv as -> ->. by destruct (Hno v').
  - injection Hv' as -> ->. by destruct (Hno v).
  - by apply IH.
Qed.

Lemma JMap_get_filter {V} (P : string * V → Prop) `{∀ kv, Decision (P kv)}
    (l : list (string * V)) k v :
  JMap.get k l = Some v → P (k, v) → JMap.get k (filter P l) = Some v.
Proof.
  induction l as [|[k0 v0] l IH]; simpl; [done |].
  destruct (decide (k = k0)) as [->|Hne].
  - intros [= ->] Hp. rewrite filter_cons, decide_True by done. simpl.
    by rewrite decide_True.
  - intros Hget Hp. rewrite filter_cons.
    destruct (decide (P (k0, v0))); simpl; [rewrite decide_False by done |];
      by apply IH.
Qed.

Lemma JMap_keys_set {V} (l : list (string * V)) k v x :
  x ∈ (JMap.set k v l).*1 ↔ x = k ∨ x ∈ l.*1.
Proof.
  induction l as [|[k0 v0] l IH]; simpl.
  - rewrite list_elem_of_singleton. set_solver.
  - destruct (decide (k = k0)) as [->|Hne]; simpl.
    + rewrite !elem_of_cons. naive_solver.
    + rewrite !elem_of_cons, IH. naive_solver.
Qed.

Lemma JMap_keys_set_NoDup {V} (l : list (string * V)) k v :
  NoDup l.*1 → NoDup (JMap.set k v l).*1.
Proof.
  induction l as [|[k0 v0] l IH]; simpl; intros Hnd.
  - apply NoDup_singleton.
  - apply NoDup_cons in Hnd as [Hfresh Hnd].
    destruct (decide (k = k0)) as [->|Hne]; simpl.
    + by apply NoDup_cons.
    + apply NoDup_cons. split; [|by apply IH].
      rewrite JMap_keys_set. naive_solver.
Qed.

Lemma heartbeat_fold now srv l :
  let srv' := foldl (heartbeat_step now) srv l in
  clients srv'
  = foldl (λ cl (kv : string * client), if decide (timed_out now kv.2)
                    then JMap.delete kv.1 cl else cl) (clients srv) l ∧
  moduleRegistry srv' = moduleRegistry srv ∧
  sockets srv'
  = foldl (λ σ (kv : string * client), alter (heartbeat_socket now kv) (c_ws kv.2) σ)
      (sockets srv) l.
Proof.
  revert srv. induction l as [|a l IH]; intros srv; simpl; [done |].
  destruct (IH (heartbeat_step now srv a)) as (-> & -> & ->).
  unfold heartbeat_step, heartbeat_socket.
  destruct (decide (timed_out now a.2)); simpl; [done |].
  destruct (sendMessage_rest (c_ws a.2) ping_message srv) as (-> & -> & _).
  by rewrite sendMessage_sockets.
Qed.

Lemma filter_ext_in {A} (P Q : A → Prop) `{∀ x, Decision (P x)}
    `{∀ x, Decision (Q x)} (l : list A) :
  (∀ x, x ∈ l → P x ↔ Q x) → filter P l = filter Q l.
Proof.
  induction l as [|x l IH]; intros Hext; [done |].
  rewrite !filter_cons, IH by (intros y Hy; apply Hext; by right).
  destruct (decide (P x)) as [Hp|Hp], (decide (Q x)) as [Hq|Hq]; try done;
    destruct (Hext x (list_elem_of_here x l)); tauto.
Qed.

Lemma filter_twice {A} (P Q : A → Prop) `{∀ x, Decision (P x)}
    `{∀ x, Decision (Q x)} (l : list A) :
  filter P (filter Q l) = filter (λ x, Q x ∧ P x) l.
Proof.
  induction l as [|x l IH]; [done |].
  rewrite !filter_cons.
  destruct (decide (Q x)) as [Hq|Hq].
  - rewrite filter_cons, IH.
    destruct (decide (P x)), (decide (Q x ∧ P x)); try done; tauto.
  - rewrite IH. destruct (decide (Q x ∧ P x)); [tauto | done].
Qed.

(** The ids that a tick of the heartbeat drops. *)
Lemma foldl_delete_filter (P : client → Prop) `{∀ c, Decision (P c)}
    (l cl : list (string * client)) :
  foldl (λ cl (kv : string * client),
           if decide (P kv.2) then JMap.delete kv.1 cl else cl) cl l
  = filter (λ kv : string * client,
              kv.1 ∉ (filter (λ kv : string * client, P kv.2) l).*1) cl.
Proof.
  revert cl. induction l as [|[k c] l IH]; intros cl; simpl.
  - symmetry. apply filter_all. by intros kv _ ?%elem_of_nil.
  - rewrite IH, filter_cons. simpl. destruct (decide (P c)) as [Hp|Hp].
    + unfold JMap.delete. rewrite filter_twice.
      apply list_filter_iff. intros kv. rewrite fmap_cons, not_elem_of_cons.
      done.
    + done.
Qed.

(** The clients that a tick of the heartbeat keeps. *)
Lemma heartbeat_clients now srv :
  NoDup (clients srv).*1 →
  clients (heartbeat now srv)
  = filter (λ kv : string * client, ¬ timed_out now kv.2) (clients srv).
Proof.
  intros Hnd. unfold heartbeat.
  destruct (heartbeat_fold now srv (clients srv)) as (-> & _).
  rewrite foldl_delete_filter. apply filter_ext_in.
  intros [k c] Hkc. simpl. split.
  - intros Hno Hout. apply Hno. apply list_elem_of_fmap.
    exists (k, c). split; [done |]. by apply list_elem_of_filter.
  - intros Hfresh ([k' c'] & Hk & [Hout Hc']%list_elem_of_filter)%list_elem_of_fmap.
    simpl in *. subst k'.
    assert (c' = c) as -> by (by eapply NoDup_keys_inj). done.
Qed.

(** X20.  A tick of the heartbeat at time [now] keeps exactly the
    clients heard of in the last 30000 ms, in their order.  Each of
    them is sent one [ping] if its connection is open; the connection of
    each client dropped is closed, and is sent nothing. *)
Theorem heartbeat_tick (srv : server) (now : Z) :
  distinct_clients srv →
  let srv' := heartbeat now srv in
  clients srv'
  = filter (λ kv : string * client, (now - c_lastPing kv.2 ≤ 30000)%Z)
      (clients srv) ∧
  moduleRegistry srv' = moduleRegistry srv ∧
  (∀ clientId c s,
     (clientId, c) ∈ clients srv → sockets srv !! c_ws c = Some s →
     sockets srv' !! c_ws c
     = Some (if decide (now - c_lastPing c ≤ 30000)%Z
             then send_on ping_message s else close_socket s)) ∧
  (∀ ws, (∀ clientId c, (clientId, c) ∈ clients srv → c_ws c ≠ ws) →
         sockets srv' !! ws = sockets srv !! ws).
Proof.
  intros [Hkeys Hws] srv'. subst srv'.
  split; [|split; [|split]].
  - rewrite heartbeat_clients by done. apply list_filter_iff.
    intros kv. unfold timed_out. lia.
  - unfold heartbeat. by destruct (heartbeat_fold now srv (clients srv))
      as (_ & -> & _).
  - intros clientId c s Hc Hs. unfold heartbeat.
    destruct (heartbeat_fold now srv (clients srv)) as (_ & _ & ->).
    destruct (foldl_alter_lookup (heartbeat_socket now) (clients srv)
                (sockets srv) (c_ws c) Hws) as [Hin _].
    rewrite (Hin (clientId, c) Hc eq_refl), Hs. simpl. f_equal.
    unfold heartbeat_socket, timed_out. simpl.
    destruct (decide (now - c_lastPing c > 30000)%Z),
      (decide (now - c_lastPing c ≤ 30000)%Z); (done || lia).
  - intros ws Hnone. unfold heartbeat.
    destruct (heartbeat_fold now srv (clients srv)) as (_ & _ & ->).
    destruct (foldl_alter_lookup (heartbeat_socket now) (clients srv)
                (sockets srv) ws Hws) as [_ Hout].
    apply Hout. intros [clientId c] Hkv. by apply (Hnone clientId).
Qed.

Lemma onePeerSilent_distinct : distinct_clients onePeerSilent.
Proof.
  split; simpl.
  - apply NoDup_cons. split; [set_solver |]. apply NoDup_singleton.
  - apply NoDup_cons. split; [set_solver |]. apply NoDup_singleton.
Qed.

Lemma heartbeat_tick_witness :
  clients (heartbeat 50000 onePeerSilent)
  = [("client_a", Client 1 "client_a" "unknown" 40000)].
Proof.
  exact (proj1 (heartbeat_tick onePeerSilent 50000 onePeerSilent_distinct)).
Defined.

(** X21.  A client that sent a [ping] is kept by every tick of the
    heartbeat in the 30000 ms that follow, with the time of the [ping]
    as the time it was last heard of; it was answered [pong] if its
    connection is open. *)
Theorem handlePing_keeps_alive (srv : server) (clientId : string)
    (c : client) (s : socket) (t now : Z) :
  NoDup (clients srv).*1 →
  JMap.get clientId (clients srv) = Some c →
  sockets srv !! c_ws c = Some s →
  (now - t ≤ 30000)%Z →
  let srv1 := handlePing clientId t srv in
  sockets srv1 !! c_ws c = Some (send_on pong_message s) ∧
  JMap.get clientId (clients srv1)
  = Some (Client (c_ws c) (c_id c) (c_type c) t) ∧
  JMap.get clientId (clients (heartbeat now srv1))
  = Some (Client (c_ws c) (c_id c) (c_type c) t).
Proof.
  intros Hnd Hc Hs Hfresh srv1. subst srv1. unfold handlePing. rewrite Hc.
  set (c1 := Client (c_ws c) (c_id c) (c_type c) t).
  set (srv0 := set_clients (JMap.set clientId c1) srv).
  destruct (sendMessage_rest (c_ws c) pong_message srv0) as (Hcl & _).
  split; [|split].
  - rewrite sendMessage_sockets. simpl. by rewrite lookup_alter_eq, Hs.
  - rewrite Hcl. simpl. apply JMapFacts.get_set_eq.
  - rewrite heartbeat_clients.
    + rewrite Hcl. simpl. apply JMap_get_filter.
      * apply JMapFacts.get_set_eq.
      * unfold timed_out. simpl. lia.
    + rewrite Hcl. simpl. by apply JMap_keys_set_NoDup.
Qed.

Lemma handlePing_keeps_alive_witness :
  JMap.get "client_b" (clients (heartbeat 50000
                                  (handlePing "client_b" 45000 onePeerSilent)))
  = Some (Client 2 "client_b" "unknown" 45000).
Proof.
  refine (proj2 (proj2 (handlePing_keeps_alive onePeerSilent "client_b"
                          (Client 2 "client_b" "unknown" 0) (Socket OPEN [])
                          45000 50000 _ _ _ _))).
  - apply onePeerSilent_distinct.
  - reflexivity.
  - reflexivity.
  - lia.
Defined.

(** *** Installing over the wire *)

(** X22.  [handleModuleInstall] of the server installs nothing: the
    validation asks for an [init] that is a function, which no value
    parsed from a message is.  Whatever the message holds, the
    statements that store and announce the module are not reached and
    the registry is as before; when the data of the message is there,
    the client that asked is sent the error, and no other connection is
    sent anything. *)
Theorem server_handleModuleInstall_rejects
    (store_and_announce :
       string → option json → Z → server → option string * server)
    (clientId : string) (data : option json) (now : Z) (srv : server) :
  let result :=
    server_handleModuleInstall store_and_announce clientId data now srv in
  moduleRegistry result.2 = moduleRegistry srv ∧
  moduleFiles result.2 = moduleFiles srv ∧
  clients result.2 = clients srv ∧
  (∀ c, JMap.get clientId (clients srv) = Some c →
        data ≠ None → data ≠ Some JNull →
        result
        = (None,
           sendError (c_ws c)
             "Failed to install module: Invalid module configuration" now
             srv) ∧
        ∀ ws, ws ≠ c_ws c → sockets result.2 !! ws = sockets srv !! ws).
Proof.
  assert (∀ config, validateModuleConfig config = false) as Hvalid.
  { intros config. unfold validateModuleConfig, is_function.
    apply andb_false_r. }
  assert (∀ ws message, moduleRegistry (sendError ws message now srv)
                        = moduleRegistry srv ∧
                        moduleFiles (sendError ws message now srv)
                        = moduleFiles srv ∧
                        clients (sendError ws message now srv) = clients srv)
    as Hsend.
  { intros ws message. unfold sendError.
    destruct (sendMessage_rest ws (error_envelope message now) srv)
      as (-> & -> & ->). done. }
  assert (∀ d, d ≠ None → d ≠ Some JNull →
               server_handleModuleInstall store_and_announce clientId d now srv
               = match JMap.get clientId (clients srv) with
                 | Some c =>
                     (None,
                      sendError (c_ws c)
                        "Failed to install module: Invalid module configuration"
                        now srv)
                 | None => rejected "Cannot read properties of undefined" srv
                 end) as Hrun.
  { intros d Hd Hnull. unfold server_handleModuleInstall.
    rewrite Hvalid. simpl. by destruct d as [[]|]. }
  intros result. subst result.
  assert (data = None ∨ data = Some JNull ∨
          (data ≠ None ∧ data ≠ Some JNull)) as [->|[->|[Hd Hnull]]].
  { destruct data as [[]|]; auto. }
  { simpl. split; [done |]. split; [done |]. split; [done |].
    by intros c _ ?. }
  { simpl. split; [done |]. split; [done |]. split; [done |].
    by intros c _ _ ?. }
  rewrite Hrun by done.
  destruct (JMap.get clientId (clients srv)) as [c|] eqn:Hc; simpl.
  - destruct (Hsend (c_ws c)
                "Failed to install module: Invalid module configuration")
      as (-> & -> & ->).
    split; [done |]. split; [done |]. split; [done |].
    intros c' [= <-] _ _. split; [done |].
    intros ws Hws. unfold sendError.
    rewrite sendMessage_sockets. by rewrite lookup_alter_ne.
  - split; [done |]. split; [done |]. split; [done |]. by intros c' ?.
Qed.

Lemma server_handleModuleInstall_rejects_witness :
  server_handleModuleInstall (λ _ _ _ srv, (None, srv)) "client_a"
    installRequest 9 twoPeers
  = (None,
     sendError 1 "Failed to install module: Invalid module configuration" 9
       twoPeers).
Proof.
  refine (proj1 (proj2 (proj2 (proj2
            (server_handleModuleInstall_rejects (λ _ _ _ srv, (None, srv))
               "client_a" installRequest 9 twoPeers)))
            (Client 1 "client_a" "unknown" 0) _ _ _)).
  - reflexivity.
  - discriminate.
  - discriminate.
Defined.

(** ** The order of the [init] calls *)

Lemma ordered_load_refl st : ordered_load st st.
Proof.
  exists []. rewrite app_nil_r. split; [done |].
  split; [apply load_step_refl |]. split; [by intros i x options y ? |].
  auto.
Qed.

Lemma ordered_load_trans st1 st2 st3 :
  ordered_load st1 st2 → ordered_load st2 st3 → ordered_load st1 st3.
Proof.
  intros (t1 & Ht1 & Hs1 & Hi1 & Ha1) (t2 & Ht2 & Hs2 & Hi2 & Ha2).
  exists (t1 ++ t2). split; [by rewrite Ht2, Ht1, app_assoc |].
  split; [by eapply load_step_trans |]. split.
  - intros i x options y Hi Hxy.
    destruct (decide (i < length t1)) as [Hlt|Hge].
    + rewrite lookup_app_l in Hi by done.
      destruct (Hi1 i x options y Hi Hxy) as [?|(j & m & Hj & Hjm)];
        [by left |].
      right. exists j, m. split; [done |]. by rewrite lookup_app_l by lia.
    + rewrite lookup_app_r in Hi by lia.
      apply (load_step_tc _ _ _ _ Hs1) in Hxy.
      destruct (Hi2 _ x options y Hi Hxy) as [Hy|(j & m & Hj & Hjm)].
      * destruct (Ha1 y Hy) as [?|(j & m & Hjm)]; [by left |].
        right. exists j, m. pose proof (lookup_lt_Some _ _ _ Hjm).
        split; [lia |]. by rewrite lookup_app_l.
      * right. exists (length t1 + j), m. split; [lia |].
        rewrite lookup_app_r by lia. rewrite <- Hjm. f_equal. lia.
  - intros y Hy.
    destruct (Ha2 y Hy) as [Hy2|(j & m & Hjm)].
    + destruct (Ha1 y Hy2) as [?|(j & m & Hjm)]; [by left |].
      right. exists j, m. pose proof (lookup_lt_Some _ _ _ Hjm).
      by rewrite lookup_app_l.
    + right. exists (length t1 + j), m.
      rewrite lookup_app_r by lia. rewrite <- Hjm. f_equal. lia.
Qed.

Lemma finish_load_ordered moduleId options module st :
  is_Some (JMap.get moduleId (modules st)) →
  (∀ y, tc (depends_on (modules st)) moduleId y → y ∈ loadedModules st) →
  ordered_load st (finish_load moduleId options module st).2.
Proof.
  intros Hreg Hdeps.
  pose proof (finish_load_step moduleId options module st Hreg) as Hstep.
  destruct (finish_load moduleId options module st) as [[m| |] st'] eqn:Hrun;
    simpl in *.
  - destruct (finish_load_Return _ _ _ _ _ _ Hrun Hreg)
      as (Hin & Hm & _ & _ & Ht).
    eexists. split; [exact Ht |]. split; [done |]. split.
    + intros i x opts y Hi Hxy. left.
      destruct (init m) as [h|]; simpl in Hi.
      * destruct i as [|[|i]]; simpl in Hi; try discriminate.
        injection Hi as -> ->. by apply Hdeps.
      * destruct i as [|i]; simpl in Hi; discriminate.
    + intros y Hy.
      destruct (finish_load_loaded _ _ _ _ _ _ _ Hrun Hy) as [->|?];
        [|by left].
      right. destruct (init m); [exists 1, m | exists 0, m]; reflexivity.
  - apply finish_load_Throw in Hrun as ->.
    exists [InitCalled moduleId options]. split; [done |].
    split; [done |]. split; [|auto].
    intros i x opts y Hi Hxy. left.
    destruct i as [|i]; simpl in Hi; [|discriminate].
    injection Hi as -> ->. by apply Hdeps.
  - pose proof (finish_load_fuel moduleId options module st) as Hfuel.
    by rewrite Hrun in Hfuel.
Qed.

(** X23.  During a [loadModule], however it ends, an [init] hook is
    called only after every module that its module reaches through
    dependencies is loaded: such a module was loaded before the call of
    [loadModule], or its [moduleLoaded] event comes before the call of
    the hook.  Every module that the call loads is announced by a
    [moduleLoaded] event. *)
Theorem loadModule_init_order (fuel : nat) (moduleId : string)
    (options : list (string * string)) (st : system) :
  ordered_load st (state_after (loadModule fuel moduleId options) st).
Proof.
  unfold state_after. revert moduleId options st.
  induction fuel as [|fuel IH]; intros moduleId options st;
    [apply ordered_load_refl |].
  rewrite loadModule_unfold.
  destruct (JMap.get moduleId (modules st)) as [module|] eqn:Hget;
    [|apply ordered_load_refl].
  destruct (JSet.has moduleId (loadedModules st)); [apply ordered_load_refl |].
  assert (ordered_load st
            (checkDependencies (λ d, loadModule fuel d []) moduleId st).2)
    as Hdeps.
  { rewrite checkDependencies_unfold, Hget.
    destruct (cycle_check _ _); [|apply ordered_load_refl..].
    destruct (getDependencyOrder _ _) as [dependencyOrder| |];
      [|apply ordered_load_refl..].
    apply for_of_invariant; [|apply ordered_load_refl].
    intros d st1 _ H1. eapply ordered_load_trans; [exact H1 |].
    unfold load_dependency, bind, gets. simpl.
    destruct (JSet.has d (loadedModules st1)); [apply ordered_load_refl |].
    specialize (IH d [] st1).
    by destruct (loadModule fuel d [] st1) as [[| |] st2]. }
  pose proof (checkDependencies_Return_loaded fuel moduleId st) as Hall.
  destruct (checkDependencies _ _ _) as [[[]| |] st1]; simpl in *;
    [|done|done].
  eapply ordered_load_trans; [exact Hdeps |].
  destruct Hdeps as (_ & _ & Hstep & _).
  apply finish_load_ordered.
  - apply (load_step_is_Some _ _ _ Hstep). by eexists.
  - intros y Hy. apply (Hall st1 y eq_refl).
    by apply (load_step_tc _ _ _ _ Hstep).
Qed.

(** ** Unloading, and installing and uninstalling *)

(** X25.  [unloadModule(moduleId)], however it ends, leaves every other
    module untouched and calls no hook but the [destroy] hook of the
    module, once at most; when it throws, the module map, the status map
    and the loaded set are as before, so that a module whose [destroy]
    hook throws stays loaded. *)
Theorem unloadModule_leaves_others (st : system) (moduleId : string) :
  let st' := state_after (unloadModule moduleId) st in
  (∀ y, y ≠ moduleId → untouched y st st') ∧
  (∃ t, trace st' = trace st ++ t ∧
        (List.filter is_hook_call t = [] ∨
         List.filter is_hook_call t = [DestroyCalled moduleId])) ∧
  (∀ e, outcome_of (unloadModule moduleId) st = Throw e →
        modules st' = modules st ∧
        moduleStates st' = moduleStates st ∧
        loadedModules st' = loadedModules st).
Proof.
  intros st'. subst st'. unfold state_after, outcome_of.
  rewrite unloadModule_eq.
  assert ((∀ y, y ≠ moduleId → untouched y st st) ∧
          (∃ t, trace st = trace st ++ t ∧
                (List.filter is_hook_call t = [] ∨
                 List.filter is_hook_call t = [DestroyCalled moduleId])))
    as Hsame.
  { split; [intros y _; apply untouched_refl |].
    exists []. rewrite app_nil_r. auto. }
  destruct (JMap.get moduleId (modules st)) as [module|] eqn:Hget;
    [|destruct Hsame; done].
  destruct (JSet.has moduleId (loadedModules st));
    [|destruct Hsame; done].
  destruct (getDependents moduleId st) as [|d ds];
    [|destruct Hsame; done].
  assert (∀ (st1 : system) y,
            modules st1 = modules st → moduleStates st1 = moduleStates st →
            loadedModules st1 = loadedModules st →
            init_calls y (trace st1) = init_calls y (trace st) →
            y ≠ moduleId →
            untouched y st (unloaded_from moduleId module st1)) as Hfin.
  { intros st1 y Hm Hs Hl Ht Hne. unfold untouched, unloaded_from, record.
    cbn [loadedModules moduleStates modules trace set_modules
         set_moduleStates set_loadedModules].
    rewrite Hm, Hs, Hl, JSet_elem_of_delete, lookup_insert_ne,
      JMapFacts.get_modify, decide_False by done.
    split; [naive_solver |]. split; [done |]. split; [done |].
    rewrite init_calls_app, Ht. unfold init_calls. simpl. lia. }
  destruct (destroy module) as [[|msg]|]; simpl.
  - split; [|split; [|done]].
    + intros y Hne. apply Hfin; try done.
      unfold record. cbn [trace]. rewrite init_calls_app.
      unfold init_calls. simpl. lia.
    + eexists. split; [by rewrite <- app_assoc | by right].
  - split; [|split; [|done]].
    + intros y Hne. unfold untouched, record.
      cbn [loadedModules moduleStates modules trace].
      split; [done |]. split; [done |]. split; [done |].
      rewrite init_calls_app. unfold init_calls. simpl. lia.
    + exists [DestroyCalled moduleId]. split; [done | by right].
  - split; [|split; [|done]].
    + intros y Hne. by apply Hfin.
    + eexists. split; [done | by left].
Qed.

Lemma JMap_set_fresh {V} (l : list (string * V)) k v :
  JMap.get k l = None → JMap.set k v l = l ++ [(k, v)].
Proof.
  induction l as [|[k0 v0] l IH]; simpl; [done |].
  destruct (decide (k = k0)); [done |]. intros Hget. by rewrite IH.
Qed.

Lemma JMap_delete_fresh {V} (l : list (string * V)) k :
  JMap.get k l = None → JMap.delete k l = l.
Proof.
  unfold JMap.delete. induction l as [|[k0 v0] l IH]; simpl; [done |].
  destruct (decide (k = k0)) as [->|Hne]; [done |]. intros Hget.
  rewrite filter_cons, decide_True by (simpl; congruence).
  by rewrite IH.
Qed.

Lemma JMap_delete_set {V} (l : list (string * V)) k v :
  JMap.delete k (JMap.set k v l) = JMap.delete k l.
Proof.
  unfold JMap.delete. induction l as [|[k0 v0] l IH]; simpl.
  - by rewrite filter_cons, decide_False by (simpl; auto).
  - destruct (decide (k = k0)) as [->|Hne].
    + by rewrite !filter_cons, !decide_False by (simpl; auto).
    + rewrite !filter_cons. simpl. by rewrite IH.
Qed.

Lemma JMap_delete_modify {V} (f : V → V) (l : list (string * V)) k :
  JMap.delete k (JMap.modify f k l) = JMap.delete k l.
Proof.
  unfold JMap.modify. destruct (JMap.get k l); [|done].
  apply JMap_delete_set.
Qed.

Lemma JSet_delete_add x (s : list string) :
  x ∉ s → JSet.delete x (JSet.add x s) = s.
Proof.
  intros Hx. unfold JSet.add, JSet.delete.
  rewrite bool_decide_eq_false_2 by done.
  rewrite filter_app, filter_cons, decide_False, filter_nil, app_nil_r
    by auto.
  apply filter_all. intros y Hy ->. done.
Qed.

Lemma finish_load_eq moduleId options module st m :
  JMap.get moduleId (modules st) = Some m →
  init m = Some Returns →
  ∃ st',
    finish_load moduleId options module st
    = (Return (with_state loaded m), st') ∧
    modules st' = JMap.modify (with_state loaded) moduleId (modules st) ∧
    moduleStates st' = <[moduleId := loaded]> (moduleStates st) ∧
    loadedModules st' = JSet.add moduleId (loadedModules st).
Proof.
  intros Hget Hinit. unfold finish_load, deref, bind, gets. simpl.
  rewrite Hget. simpl. rewrite Hinit.
  unfold call_hook, emit, update_state, bind, ret. simpl.
  rewrite JMapFacts.get_modify, decide_True, Hget by done. simpl.
  eexists. split; [reflexivity |]. done.
Qed.

(** X26.  Installing and uninstalling a new module without dependencies
    is a round trip: when the id is new to the system, no registered
    module lists it and the [init] and [destroy] hooks of the
    configuration do not throw, [handleModuleInstall] loads the module,
    a following [handleModuleUninstall] returns, and the module map, the
    status map and the loaded set are then what they were before the
    install. *)
Theorem install_uninstall_roundtrip (st : system) (moduleId : string)
    (moduleConfig : moduleConfig) (data : messageData) (now : Z) :
  JMap.get moduleId (modules st) = None →
  moduleStates st !! moduleId = None →
  moduleId ∉ loadedModules st →
  getDependents moduleId st = [] →
  default [] (cfg_dependencies moduleConfig) = [] →
  (∀ msg, mjoin (cfg_init moduleConfig) ≠ Some (Throws msg)) →
  (∀ msg, mjoin (cfg_destroy moduleConfig) ≠ Some (Throws msg)) →
  d_moduleId data = moduleId →
  ∃ st1 st2,
    handleModuleInstall
      (MessageData moduleId (Some moduleConfig) (d_action data)) now st
    = (Return tt, st1) ∧
    moduleId ∈ loadedModules st1 ∧
    handleModuleUninstall data st1 = (Return tt, st2) ∧
    modules st2 = modules st ∧
    moduleStates st2 = moduleStates st ∧
    loadedModules st2 = loadedModules st.
Proof.
  intros Hfresh Hstatus Hout Hnone Hdeps Hinit Hdestroy Hid.
  set (m := new_module moduleId moduleConfig now).
  assert (dependencies m = []) as Hmdeps by done.
  assert (init m = Some Returns) as Hminit.
  { simpl. destruct (mjoin (cfg_init moduleConfig)) as [[|msg]|] eqn:Hi;
      try done. by destruct (Hinit msg). }
  assert (destroy m = Some Returns) as Hmdestroy.
  { simpl. destruct (mjoin (cfg_destroy moduleConfig)) as [[|msg]|] eqn:Hi;
      try done. by destruct (Hdestroy msg). }
  set (st0 := set_moduleStates <[moduleId := registered]>
                (set_modules (JMap.set moduleId m) st)).
  assert (JMap.get moduleId (modules st0) = Some m) as Hget0
    by apply JMapFacts.get_set_eq.
  assert (∀ y, ¬ depends_on (modules st0) moduleId y) as Hleaf.
  { intros y (m' & Hm' & Hy). rewrite Hget0 in Hm'. injection Hm' as <-.
    rewrite Hmdeps in Hy. by apply elem_of_nil in Hy. }
  (* the install *)
  assert (∃ st1,
            loadModule load_fuel moduleId [] st0
            = (Return (with_state loaded m), st1) ∧
            modules st1 = JMap.modify (with_state loaded) moduleId (modules st0) ∧
            moduleStates st1 = <[moduleId := loaded]> (moduleStates st0) ∧
            loadedModules st1 = JSet.add moduleId (loadedModules st0))
    as (st1 & Hload & Hm1 & Hs1 & Hl1).
  { unfold load_fuel. rewrite loadModule_unfold, Hget0.
    rewrite (proj2 (JSet_has_false moduleId (loadedModules st0))) by done.
    rewrite checkDependencies_unfold, Hget0.
    destruct (cycle_check_free_Return (modules st0) moduleId) as [k ->].
    { intros x Hx Hcyc. apply rtc_inv in Hx as [->|(y & Hy & _)];
        [|by destruct (Hleaf y)].
      inversion Hcyc as [? ? Hy|? y ? Hy _]; subst; by destruct (Hleaf _ Hy). }
    rewrite Hmdeps.
    change (getDependencyOrder (modules st0) [])
      with (Return [] : outcome (list string)).
    change (for_of [] (load_dependency (λ d, loadModule 1 d [])) st0)
      with (Return tt, st0).
    by apply finish_load_eq. }
  exists st1.
  (* the uninstall *)
  assert (JMap.get moduleId (modules st1) = Some (with_state loaded m))
    as Hget1.
  { by rewrite Hm1, JMapFacts.get_modify, decide_True, Hget0. }
  assert (getDependents moduleId st1 = []) as Hnone1.
  { unfold getDependents in *. rewrite Hm1, dependents_with_state.
    simpl. rewrite JMap_set_fresh by done.
    rewrite filter_app, fmap_app, Hnone, filter_cons. simpl.
    by rewrite decide_False by (rewrite Hdeps; by intros ?%elem_of_nil). }
  eexists. split; [|split; [|split]].
  - unfold handleModuleInstall, registerModule', bind.
    cbn [d_moduleId d_moduleConfig]. rewrite registerModule_eq.
    fold m st0. by rewrite Hload.
  - rewrite Hl1. apply JSet_elem_of_add. by left.
  - unfold handleModuleUninstall, bind. rewrite Hid, unloadModule_eq, Hget1.
    rewrite (proj2 (JSet_has_true moduleId (loadedModules st1)))
      by (rewrite Hl1; apply JSet_elem_of_add; by left).
    rewrite Hnone1. simpl. injection Hmdestroy as ->. reflexivity.
  - simpl. rewrite Hm1, Hs1, Hl1. simpl.
    rewrite !JMap_delete_modify, JMap_delete_set, JMap_delete_fresh by done.
    rewrite !insert_insert_eq, delete_insert_id by done.
    by rewrite JSet_delete_add.
Qed.

Lemma install_uninstall_roundtrip_witness :
  ∃ st1 st2,
    handleModuleInstall (MessageData "midi" (Some emptyConfig) None) 3
      ttsLoaded
    = (Return tt, st1) ∧
    "midi" ∈ loadedModules st1 ∧
    handleModuleUninstall (MessageData "midi" None None) st1
    = (Return tt, st2) ∧
    modules st2 = modules ttsLoaded ∧
    moduleStates st2 = moduleStates ttsLoaded ∧
    loadedModules st2 = loadedModules ttsLoaded.
Proof.
  apply (install_uninstall_roundtrip ttsLoaded "midi" emptyConfig
           (MessageData "midi" None None) 3).
  - by vm_compute.
  - by vm_compute.
  - vm_compute. set_solver.
  - by vm_compute.
  - reflexivity.
  - by intros msg.
  - by intros msg.
  - reflexivity.
Defined.

(** ** Calls that are awaited *)

(** A call that is run alone, from the world it was made in until it
    settles, does what the method run from call to end does: the world
    it leaves is the state the method leaves. *)

Lemma settles_await {A B} (callee : Async.task A)
    (k : A → Async.world → Async.task B * Async.world) w r1 w1 r w' :
  Async.settles (callee, w) r1 w1 →
  match r1 with
  | Return a => Async.settles (k a w1) r w'
  | Throw e => r = Throw e ∧ w' = w1
  | OutOfFuel => r = OutOfFuel ∧ w' = w1
  end →
  Async.settles (Async.await callee k w) r w'.
Proof.
  intros Hcallee. remember (callee, w) as cw eqn:Hcw.
  revert callee w Hcw.
  induction Hcallee as [r0 w0|resume w0 r0 w0' Hrun IH];
    intros callee w [= <- <-] Hk.
  - simpl. constructor. destruct r0 as [a|e|]; [done | |].
    + destruct Hk as [-> ->]. constructor.
    + destruct Hk as [-> ->]. constructor.
  - simpl. constructor. destruct (resume w0) as [callee' w''] eqn:Hres.
    by apply IH.
Qed.

Lemma get_view k w :
  JMap.get k (Async.view w)
  = (λ a, Async.object_at a w) <$> JMap.get k (Async.w_modules w).
Proof.
  unfold Async.view. induction (Async.w_modules w) as [|[k' a] m IH];
    [done |].
  simpl. by case_decide.
Qed.

Lemma view_alter (f : moduleObject → moduleObject) k a w ss ls t :
  Async.well_formed w →
  JMap.get k (Async.w_modules w) = Some a →
  Async.view
    (Async.World (alter f a (Async.w_heap w)) (Async.w_modules w) ss ls t)
  = JMap.modify f k (Async.view w).
Proof.
  intros [Hnd Hval] Hget. unfold JMap.modify. rewrite get_view, Hget. simpl.
  unfold Async.view, Async.object_at. simpl.
  set (heap := Async.w_heap w) in *.
  induction (Async.w_modules w) as [|[k' a'] m IH]; [done |].
  simpl in *. apply NoDup_cons in Hnd as [Hnotin Hnd].
  case_decide as Hk.
  - injection Hget as ->. subst k'. f_equal.
    + f_equal. rewrite list_lookup_alter.
      assert (a < length heap) as Hlt by (apply (Hval (k, a)); left).
      apply lookup_lt_is_Some in Hlt as [o Ho].
      by rewrite Ho, decide_True.
    + apply list_fmap_ext. intros i [k2 a2] Hi. simpl. f_equal.
      rewrite list_lookup_alter_ne; [done |].
      intros <-. apply Hnotin. apply list_elem_of_fmap.
      exists (k2, a). split; [done |]. by eapply list_elem_of_lookup_2.
  - f_equal.
    + f_equal. rewrite list_lookup_alter_ne; [done |].
      intros <-. apply Hnotin. apply list_elem_of_fmap.
      exists (k, a). split; [done |]. by apply JMapFacts.get_Some_elem.
    + apply IH; [done | | done]. intros kv Hkv. apply Hval. by right.
Qed.

Lemma object_at_alter (f : moduleObject → moduleObject) a w ms ss ls t :
  a < length (Async.w_heap w) →
  Async.object_at a (Async.World (alter f a (Async.w_heap w)) ms ss ls t)
  = f (Async.object_at a w).
Proof.
  intros Hlt. unfold Async.object_at. simpl.
  apply lookup_lt_is_Some in Hlt as [o Ho].
  by rewrite list_lookup_alter, Ho, decide_True.
Qed.

Lemma well_formed_alter (f : moduleObject → moduleObject) a w ss ls t :
  Async.well_formed w →
  Async.well_formed
    (Async.World (alter f a (Async.w_heap w)) (Async.w_modules w) ss ls t).
Proof.
  intros [Hnd Hval]. split; [done |]. simpl. intros kv Hkv.
  rewrite length_alter. by apply Hval.
Qed.

Lemma well_formed_traced e w :
  Async.well_formed w → Async.well_formed (Async.traced e w).
Proof. by intros [Hnd Hval]. Qed.

Lemma get_address_valid k a w :
  Async.well_formed w →
  JMap.get k (Async.w_modules w) = Some a → a < length (Async.w_heap w).
Proof.
  intros [_ Hval] Hget. apply (Hval (k, a)).
  by apply JMapFacts.get_Some_elem.
Qed.

Lemma finish_load_awaited moduleId options module0 a w :
  Async.well_formed w →
  JMap.get moduleId (Async.w_modules w) = Some a →
  ∃ r w',
    Async.settles (Async.finish_load moduleId options a w) r w' ∧
    Async.well_formed w' ∧
    Async.w_modules w' = Async.w_modules w ∧
    finish_load moduleId options module0 (Async.snapshot w)
    = (Async.loaded_object w' r, Async.snapshot w').
Proof.
  intros Hwf Hget.
  pose proof (get_address_valid _ _ _ Hwf Hget) as Hlt.
  unfold finish_load, Async.finish_load, deref, bind, gets. simpl.
  rewrite get_view, Hget. simpl.
  destruct (init (Async.object_at a w)) as [[|msg]|];
    unfold call_hook, emit, update_state, bind, ret, throw; simpl.
  - eexists _, _.
    split; [apply Async.settles_later; simpl; apply Async.settles_now |].
    split; [by apply well_formed_traced, well_formed_alter,
                     well_formed_traced |].
    split; [done |].
    simpl. rewrite object_at_alter by done.
    unfold Async.snapshot, Async.traced, record, set_modules; simpl.
    rewrite (view_alter _ moduleId a w) by done.
    rewrite JMapFacts.get_modify, decide_True by done.
    rewrite get_view, Hget. simpl.
    repeat rewrite object_at_alter by done.
    by rewrite <- app_assoc.
  - eexists _, _.
    split; [apply Async.settles_later; simpl; apply Async.settles_now |].
    split; [by apply well_formed_traced |]. split; [done |]. done.
  - eexists _, _. split; [apply Async.settles_now |].
    split; [by apply well_formed_traced, well_formed_alter |].
    split; [done |].
    simpl. rewrite object_at_alter by done.
    unfold Async.snapshot, Async.traced, record, set_modules; simpl.
    rewrite (view_alter _ moduleId a w) by done.
    rewrite JMapFacts.get_modify, decide_True by done.
    rewrite get_view, Hget. simpl.
    by repeat rewrite object_at_alter by done.
Qed.

Lemma load_each_awaited
    (load : string → Async.world → Async.task nat * Async.world)
    (load' : string → M moduleObject) l :
  (∀ depId w, Async.well_formed w →
     ∃ r w', Async.settles (load depId w) r w' ∧
       Async.well_formed w' ∧
       Async.w_modules w' = Async.w_modules w ∧
       load' depId (Async.snapshot w)
       = (Async.loaded_object w' r, Async.snapshot w')) →
  ∀ w, Async.well_formed w →
    ∃ r w', Async.settles (Async.load_each load l w) r w' ∧
      Async.well_formed w' ∧
      Async.w_modules w' = Async.w_modules w ∧
      for_of l (load_dependency load') (Async.snapshot w)
      = (r, Async.snapshot w').
Proof.
  intros Hload. induction l as [|depId rest IH]; intros w Hwf.
  - exists (Return tt), w. split; [apply Async.settles_now | done].
  - rewrite for_of_cons. simpl.
    unfold load_dependency at 1, bind, gets. simpl.
    destruct (JSet.has depId (Async.w_loadedModules w)); simpl.
    + by apply IH.
    + destruct (Hload depId w Hwf) as (r1 & w1 & Hrun & Hwf1 & Hm1 & ->).
      destruct (load depId w) as [callee w0].
      destruct r1 as [a|e|]; simpl.
      * destruct (IH w1 Hwf1) as (r & w' & Hrest & Hwf' & Hm' & ->).
        exists r, w'. split; [by eapply settles_await |].
        split; [done |]. split; [congruence | done].
      * exists (Throw e), w1. split; [by eapply settles_await |]. done.
      * exists OutOfFuel, w1. split; [by eapply settles_await |]. done.
Qed.

Lemma checkDependencies_awaited
    (load : string → Async.world → Async.task nat * Async.world)
    (load' : string → M moduleObject) moduleId :
  (∀ depId w, Async.well_formed w →
     ∃ r w', Async.settles (load depId w) r w' ∧
       Async.well_formed w' ∧
       Async.w_modules w' = Async.w_modules w ∧
       load' depId (Async.snapshot w)
       = (Async.loaded_object w' r, Async.snapshot w')) →
  ∀ w, Async.well_formed w →
    ∃ r w', Async.settles (Async.checkDependencies load moduleId w) r w' ∧
      Async.well_formed w' ∧
      Async.w_modules w' = Async.w_modules w ∧
      checkDependencies load' moduleId (Async.snapshot w)
      = (r, Async.snapshot w').
Proof.
  intros Hload w Hwf. rewrite checkDependencies_unfold.
  unfold Async.checkDependencies. simpl. rewrite get_view.
  destruct (JMap.get moduleId (Async.w_modules w)) as [a|]; simpl.
  2:{ exists (Return tt), w. split; [apply Async.settles_now | done]. }
  destruct (cycle_check (Async.view w) moduleId) as [?|e|].
  - destruct (getDependencyOrder (Async.view w)
                (dependencies (Async.object_at a w))) as [order|e|].
    + by apply load_each_awaited.
    + exists (Throw e), w. split; [apply Async.settles_now | done].
    + exists OutOfFuel, w. split; [apply Async.settles_now | done].
  - exists (Throw e), w. split; [apply Async.settles_now | done].
  - exists OutOfFuel, w. split; [apply Async.settles_now | done].
Qed.

(** [await this.loadModule(moduleId, options)] *)
Lemma loadModule_awaited fuel moduleId options w :
  Async.well_formed w →
  ∃ r w',
    Async.settles (Async.loadModule fuel moduleId options w) r w' ∧
    Async.well_formed w' ∧
    Async.w_modules w' = Async.w_modules w ∧
    loadModule fuel moduleId options (Async.snapshot w)
    = (Async.loaded_object w' r, Async.snapshot w').
Proof.
  revert moduleId options w.
  induction fuel as [|fuel IH]; intros moduleId options w Hwf.
  - exists OutOfFuel, w. split; [apply Async.settles_now | done].
  - rewrite loadModule_unfold. simpl. rewrite get_view.
    destruct (JMap.get moduleId (Async.w_modules w)) as [a|] eqn:Hget; simpl.
    2:{ exists (Throw (ModuleNotFound moduleId)), w.
        split; [apply Async.settles_now | done]. }
    destruct (JSet.has moduleId (Async.w_loadedModules w)).
    { exists (Return a), w. split; [apply Async.settles_now | done]. }
    destruct (checkDependencies_awaited
                (λ depId, Async.loadModule fuel depId [])
                (λ depId, loadModule fuel depId []) moduleId
                (λ depId w, IH depId [] w) w Hwf)
      as (r1 & w1 & Hrun & Hwf1 & Hm1 & ->).
    destruct (Async.checkDependencies _ moduleId w) as [callee w0].
    destruct r1 as [[]|e|]; simpl.
    + rewrite <- Hm1 in Hget.
      destruct (finish_load_awaited moduleId options (Async.object_at a w)
                  a w1 Hwf1 Hget) as (r & w' & Hfin & Hwf' & Hm' & ->).
      exists r, w'. split; [by eapply settles_await |].
      split; [done |]. split; [congruence | done].
    + exists (Throw e), w1. split; [by eapply settles_await |]. done.
    + exists OutOfFuel, w1. split; [by eapply settles_await |]. done.
Qed.

(** [await this.unloadModule(moduleId)] *)
Lemma unloadModule_awaited moduleId w :
  Async.well_formed w →
  ∃ r w',
    Async.settles (Async.unloadModule moduleId w) r w' ∧
    Async.well_formed w' ∧
    Async.w_modules w' = Async.w_modules w ∧
    unloadModule moduleId (Async.snapshot w) = (r, Async.snapshot w').
Proof.
  intros Hwf. rewrite unloadModule_eq. unfold Async.unloadModule. simpl.
  rewrite get_view.
  destruct (JMap.get moduleId (Async.w_modules w)) as [a|] eqn:Hget; simpl.
  2:{ eexists _, w. split; [apply Async.settles_now | done]. }
  pose proof (get_address_valid _ _ _ Hwf Hget) as Hlt.
  destruct (JSet.has moduleId (Async.w_loadedModules w)); simpl.
  2:{ eexists _, w. split; [apply Async.settles_now | done]. }
  destruct (getDependents moduleId (Async.snapshot w)) as [|d ds].
  2:{ eexists _, w. split; [apply Async.settles_now | done]. }
  unfold unloaded_from, set_modules, set_moduleStates, set_loadedModules,
    record. simpl.
  destruct (destroy (Async.object_at a w)) as [[|msg]|].
  - eexists _, _.
    split; [apply Async.settles_later; simpl; apply Async.settles_now |].
    split; [by apply well_formed_traced, well_formed_alter,
                     well_formed_traced |].
    split; [done |].
    unfold Async.snapshot, Async.traced; simpl.
    rewrite (view_alter _ moduleId a w) by done.
    rewrite JMapFacts.get_modify, decide_True by done.
    rewrite get_view, Hget. simpl.
    repeat rewrite object_at_alter by done.
    by rewrite <- app_assoc.
  - eexists _, _.
    split; [apply Async.settles_later; simpl; apply Async.settles_now |].
    split; [by apply well_formed_traced |]. done.
  - eexists _, _. split; [apply Async.settles_now |].
    split; [by apply well_formed_traced, well_formed_alter |].
    split; [done |].
    unfold Async.snapshot, Async.traced; simpl.
    rewrite (view_alter _ moduleId a w) by done.
    rewrite JMapFacts.get_modify, decide_True by done.
    rewrite get_view, Hget. simpl.
    by repeat rewrite object_at_alter by done.
Qed.

Lemma view_delete k w h ss ls t :
  Async.view (Async.World h (JMap.delete k (Async.w_modules w)) ss ls t)
  = JMap.delete k (Async.view (Async.World h (Async.w_modules w) ss ls t)).
Proof.
  unfold Async.view, Async.object_at, JMap.delete. simpl.
  induction (Async.w_modules w) as [|[k' a] m IH]; [done |].
  rewrite fmap_cons, !filter_cons. simpl.
  case_decide; [rewrite fmap_cons |]; by rewrite IH.
Qed.

Lemma well_formed_delete k w ss ls t :
  Async.well_formed w →
  Async.well_formed
    (Async.World (Async.w_heap w) (JMap.delete k (Async.w_modules w))
       ss ls t).
Proof.
  intros [Hnd Hval]. split; simpl.
  - eapply sublist_NoDup; [done |]. apply fmap_sublist, sublist_filter.
  - intros kv Hkv. apply Hval. unfold JMap.delete in Hkv.
    by apply list_elem_of_filter in Hkv as [_ ?].
Qed.

(** [await this.handleModuleUninstall(data)] *)
Lemma handleModuleUninstall_awaited data w :
  Async.well_formed w →
  ∃ r w',
    Async.settles (Async.handleModuleUninstall data w) r w' ∧
    Async.well_formed w' ∧
    handleModuleUninstall data (Async.snapshot w) = (r, Async.snapshot w').
Proof.
  intros Hwf. unfold handleModuleUninstall, Async.handleModuleUninstall, bind.
  destruct (unloadModule_awaited (d_moduleId data) w Hwf)
    as (r1 & w1 & Hrun & Hwf1 & Hm1 & ->).
  destruct (Async.unloadModule (d_moduleId data) w) as [callee w0].
  destruct r1 as [[]|e|]; simpl.
  - eexists _, _.
    split; [eapply settles_await; [done |]; apply Async.settles_now |].
    split; [by apply well_formed_delete |].
    unfold update_state, set_modules, set_moduleStates, Async.snapshot.
    simpl. by rewrite view_delete.
  - exists (Throw e), w1. split; [by eapply settles_await |]. done.
  - exists OutOfFuel, w1. split; [by eapply settles_await |]. done.
Qed.

Lemma well_formed_newWorld : Async.well_formed Async.newWorld.
Proof. split; [constructor |]. by intros kv Hkv%elem_of_nil. Qed.

Lemma set_fresh_address k fresh (m : list (string * nat)) :
  NoDup m.*2 → fresh ∉ m.*2 →
  NoDup (JMap.set k fresh m).*2 ∧
  ∀ kv, kv ∈ JMap.set k fresh m → kv ∈ m ∨ kv.2 = fresh.
Proof.
  induction m as [|[k' a] m IH]; intros Hm Hfresh; simpl.
  - split; [apply NoDup_singleton |].
    intros kv ->%list_elem_of_singleton. by right.
  - rewrite fmap_cons in Hm, Hfresh. simpl in Hm, Hfresh.
    apply NoDup_cons in Hm as [Ha Hm].
    apply not_elem_of_cons in Hfresh as [Hne Hfresh].
    case_decide; rewrite fmap_cons; simpl.
    + split; [by apply NoDup_cons |].
      intros kv [->|Hkv]%elem_of_cons; [by right |]. left. by right.
    + destruct (IH Hm Hfresh) as [Hnd' Hin'].
      split.
      * apply NoDup_cons. split; [|done]. intros Hin.
        apply list_elem_of_fmap in Hin as (kv & Hkv2 & Hkv).
        destruct (Hin' kv Hkv) as [Hold|Hnew].
        -- apply Ha. apply list_elem_of_fmap. by exists kv.
        -- congruence.
      * intros kv [->|Hkv]%elem_of_cons; [left; by left |].
        destruct (Hin' kv Hkv) as [?|?]; [left; by right | by right].
Qed.

Lemma view_set_fresh k (object : moduleObject) w ss ls t :
  Async.well_formed w →
  Async.view
    (Async.World (Async.w_heap w ++ [object])
       (JMap.set k (length (Async.w_heap w)) (Async.w_modules w)) ss ls t)
  = JMap.set k object (Async.view w).
Proof.
  intros [_ Hval]. unfold Async.view, Async.object_at. simpl.
  induction (Async.w_modules w) as [|[k' a] m IH]; simpl.
  - by rewrite lookup_app_r, Nat.sub_diag by lia.
  - case_decide; simpl.
    + subst k'. f_equal.
      * by rewrite lookup_app_r, Nat.sub_diag by lia.
      * apply list_fmap_ext. intros i [k2 a2] Hi. simpl. f_equal.
        rewrite lookup_app_l; [done |].
        apply (Hval (k2, a2)). right. by eapply list_elem_of_lookup_2.
    + f_equal.
      * f_equal. rewrite lookup_app_l; [done |].
        apply (Hval (k', a)). by left.
      * apply IH. intros kv Hkv. apply Hval. by right.
Qed.

(** [this.registerModule(moduleId, moduleConfig)] *)
Lemma registerModule_agrees moduleId moduleConfig now w :
  Async.well_formed w →
  let w' := (Async.registerModule moduleId moduleConfig now w).2 in
  Async.well_formed w' ∧
  registerModule moduleId moduleConfig now (Async.snapshot w)
  = (Return (Async.object_at (length (Async.w_heap w)) w'),
     Async.snapshot w').
Proof.
  intros Hwf. pose proof Hwf as [Hnd Hval]. simpl.
  assert (length (Async.w_heap w) ∉ (Async.w_modules w).*2) as Hfresh.
  { intros (kv & Heq & Hkv)%list_elem_of_fmap.
    specialize (Hval kv Hkv). lia. }
  destruct (set_fresh_address moduleId _ _ Hnd Hfresh) as [Hnd' Hin'].
  split; [split |].
  - done.
  - simpl. intros kv Hkv. rewrite length_app. simpl.
    destruct (Hin' kv Hkv) as [Hold| ->]; [|lia].
    specialize (Hval kv Hold). lia.
  - unfold registerModule, update_state, bind, ret, set_modules,
      set_moduleStates, Async.snapshot. simpl.
    rewrite view_set_fresh by done. f_equal. f_equal.
    unfold Async.object_at. simpl.
    by rewrite lookup_app_r, Nat.sub_diag by lia.
Qed.

(** Calls that are awaited keep a loaded id a registered id. *)
Lemma awaited_calls_loaded_registered w :
  Async.well_formed w →
  loaded_registered (Async.snapshot w) →
  (∀ moduleId moduleConfig now,
     let w' := (Async.registerModule moduleId moduleConfig now w).2 in
     Async.well_formed w' ∧ loaded_registered (Async.snapshot w')) ∧
  (∀ fuel moduleId options,
     ∃ r w', Async.settles (Async.loadModule fuel moduleId options w) r w' ∧
       Async.well_formed w' ∧ loaded_registered (Async.snapshot w')) ∧
  (∀ moduleId,
     ∃ r w', Async.settles (Async.unloadModule moduleId w) r w' ∧
       Async.well_formed w' ∧ loaded_registered (Async.snapshot w')) ∧
  (∀ data,
     ∃ r w', Async.settles (Async.handleModuleUninstall data w) r w' ∧
       Async.well_formed w' ∧ loaded_registered (Async.snapshot w')).
Proof.
  intros Hwf Hinv. split; [|split; [|split]].
  - intros moduleId moduleConfig now.
    destruct (registerModule_agrees moduleId moduleConfig now w Hwf)
      as [Hwf' Heq].
    split; [done |].
    pose proof (registerModule_loaded_registered moduleId moduleConfig now
                  _ Hinv) as H.
    by rewrite Heq in H.
  - intros fuel moduleId options.
    destruct (loadModule_awaited fuel moduleId options w Hwf)
      as (r & w' & Hrun & Hwf' & _ & Heq).
    exists r, w'. split; [done |]. split; [done |].
    pose proof (loadModule_loaded_registered fuel moduleId options
                  _ Hinv) as H.
    by rewrite Heq in H.
  - intros moduleId.
    destruct (unloadModule_awaited moduleId w Hwf)
      as (r & w' & Hrun & Hwf' & _ & Heq).
    exists r, w'. split; [done |]. split; [done |].
    pose proof (unloadModule_loaded_registered moduleId _ Hinv) as H.
    by rewrite Heq in H.
  - intros data.
    destruct (handleModuleUninstall_awaited data w Hwf)
      as (r & w' & Hrun & Hwf' & Heq).
    exists r, w'. split; [done |]. split; [done |].
    pose proof (handleModuleUninstall_loaded_registered data _ Hinv) as H.
    by rewrite Heq in H.
Qed.
